(** * Thermal network solver: a shallow embedding of [simulateThermalNetwork]

    Source: [app/src/simulation.ts].  The editor that calls the solver,
    [app/src/App.tsx], is embedded at the end, in [Module App].

    Conventions of the embedding.
    - A JavaScript [number] is modelled by [number]: a canonical rational
      ([Qc]) or one of the three non-finite values; the non-finite values
      follow IEEE 754 and the sign of zero is idealised away.  The solver is
      embedded twice.  First with the exact arithmetic of the rationals
      ([nadd], [nmul], ...), where the algebraic facts are proved.  Then, in
      [Module Rounded], over a record of operations, with two instances:
      the exact one and [binary64], where the result of every operation is
      rounded to the nearest double, ties to even, and overflows to an
      infinity, as JavaScript computes.  What is stated for every
      [Arithmetic] holds for the program as it runs; what is stated for
      [Rounded.exact] only, or for the first embedding, is a statement about
      exact arithmetic.
    - An exception is modelled by the [outcome] monad.  [Throw] carries the
      exception; [Timeout] says that the fuel given to the [while] loop ran
      out, and is never produced by the program itself.
    - Arrays are lists with stdpp's lookup and insert; the [Map] from node id
      to index is a [gmap string nat].
    - Field names of the interfaces are kept, with a prefix where two
      interfaces share a name ([id], [name], [conductance]). *)

From Stdlib Require Import QArith Qcanon Qround Lqa Lia.
From Stdlib Require Floats.PrimFloat Floats.SpecFloat Floats.FloatOps.
From stdpp Require Import gmap strings list fin_maps.

Local Open Scope Qc_scope.

(** ** Numbers *)

Inductive number : Type :=
  | Finite (q : Qc)
  | PosInf
  | NegInf
  | NaN.

Declare Scope number_scope.
Delimit Scope number_scope with num.
Bind Scope number_scope with number.

#[global] Instance number_eq_dec : EqDecision number.
Proof. solve_decision. Defined.

#[global] Instance number_inhabited : Inhabited number := populate NaN.

(** [Number.isFinite] *)
Definition isFinite (x : number) : bool :=
  match x with Finite _ => true | _ => false end.

(** The value of an infinity times, or a finite value over, something of
    sign [c]. *)
Definition signed (c : comparison) (pos neg : number) : number :=
  match c with Gt => pos | Lt => neg | Eq => NaN end.

Definition nopp (x : number) : number :=
  match x with
  | Finite q => Finite (- q)
  | PosInf => NegInf
  | NegInf => PosInf
  | NaN => NaN
  end.

Definition nadd (x y : number) : number :=
  match x, y with
  | Finite a, Finite b => Finite (a + b)
  | NaN, _ | _, NaN => NaN
  | PosInf, NegInf | NegInf, PosInf => NaN
  | PosInf, _ | _, PosInf => PosInf
  | NegInf, _ | _, NegInf => NegInf
  end.

Definition nsub (x y : number) : number := nadd x (nopp y).

Definition nmul (x y : number) : number :=
  match x, y with
  | Finite a, Finite b => Finite (a * b)
  | NaN, _ | _, NaN => NaN
  | Finite a, PosInf | PosInf, Finite a => signed (a ?= 0) PosInf NegInf
  | Finite a, NegInf | NegInf, Finite a => signed (a ?= 0) NegInf PosInf
  | PosInf, PosInf | NegInf, NegInf => PosInf
  | PosInf, NegInf | NegInf, PosInf => NegInf
  end.

Definition ndiv (x y : number) : number :=
  match x, y with
  | Finite a, Finite b =>
      if decide (b = 0) then signed (a ?= 0) PosInf NegInf else Finite (a / b)
  | NaN, _ | _, NaN => NaN
  | Finite _, (PosInf | NegInf) => Finite 0
  | (PosInf | NegInf), (PosInf | NegInf) => NaN
  | PosInf, Finite b => if decide (b < 0) then NegInf else PosInf
  | NegInf, Finite b => if decide (b < 0) then PosInf else NegInf
  end.

(** [x < y] and [x <= y]: false as soon as one side is [NaN]. *)
Definition nlt (x y : number) : bool :=
  match x, y with
  | NaN, _ | _, NaN => false
  | Finite a, Finite b => bool_decide (a < b)
  | _, NegInf | PosInf, _ => false
  | NegInf, _ | _, PosInf => true
  end.

Definition nle (x y : number) : bool :=
  match x, y with
  | NaN, _ | _, NaN => false
  | Finite a, Finite b => bool_decide (a ≤ b)
  | NegInf, _ | _, PosInf => true
  | _, NegInf | PosInf, _ => false
  end.

(** [Math.min] *)
Definition nmin (x y : number) : number :=
  match x, y with
  | NaN, _ | _, NaN => NaN
  | _, _ => if nlt y x then y else x
  end.

Notation "x + y" := (nadd x y) : number_scope.
Notation "x - y" := (nsub x y) : number_scope.
Notation "x * y" := (nmul x y) : number_scope.
Notation "x / y" := (ndiv x y) : number_scope.

Definition of_Z (z : Z) : number := Finite (Q2Qc (inject_Z z)).
Definition of_Q (q : Q) : number := Finite (Q2Qc q).

(** [Number(x.toFixed(6))].  [toFixed] works on the absolute value, leaves a
    value of at least 10^21 as it is, and otherwise takes the integer [n]
    with [n / 10^6] nearest to the value, the larger one on a tie. *)
Definition round6 (q : Qc) : Qc :=
  Q2Qc (Qmake (Qfloor (this q * inject_Z 1000000 + (1 # 2))%Q) 1000000).

Definition toFixed6 (x : number) : number :=
  match x with
  | Finite q =>
      if decide (Q2Qc (inject_Z (10 ^ 21)) ≤ q) then Finite q
      else if decide (q ≤ - Q2Qc (inject_Z (10 ^ 21))) then Finite q
      else if decide (q < 0) then Finite (- round6 (- q))
      else Finite (round6 q)
  | _ => x
  end.

(** ** The interfaces of [simulation.ts] *)

Record SimulationNode := {
  node_id : string;
  node_name : string;
  initialTemp : number;
  heatCapacity : number;
  isFixed : bool;
  fixedTemp : number;
}.

Record SimulationEdge := {
  edge_id : string;
  source : string;
  target : string;
  conductance : number;
}.

Record SimulationSettings := {
  timeStep : number;
  totalTime : number;
}.

Record SimulationSeries := {
  nodeId : string;
  name : string;
  temperatures : list number;
}.

Record SimulationResult := {
  times : list number;
  series : list SimulationSeries;
}.

(** [class SimulationError extends Error {}]: an error with its message.
    [TypeError] is what JavaScript raises on a property access on
    [undefined]. *)
Inductive exn : Type :=
  | SimulationError (message : string)
  | TypeError.

(** ** Exceptions *)

Inductive outcome (A : Type) : Type :=
  | Return (a : A)
  | Throw (e : exn)
  | Timeout.
Arguments Return {A} a.
Arguments Throw {A} e.
Arguments Timeout {A}.

#[global] Instance outcome_ret : MRet outcome := λ A a, Return a.

#[global] Instance outcome_bind : MBind outcome := λ A B k m,
  match m with
  | Return a => k a
  | Throw e => Throw e
  | Timeout => Timeout
  end.

(** [if (c) throw new SimulationError(msg)] *)
Definition throw_if (c : bool) (msg : string) : outcome unit :=
  if c then Throw (SimulationError msg) else Return ().

(** [l.forEach(f)] for a callback that may throw. *)
Fixpoint forEach {A} (f : A → outcome unit) (l : list A) : outcome unit :=
  match l with
  | [] => Return ()
  | x :: l' => f x ;; forEach f l'
  end.

(** [for (let i = start; i < start + count; i += 1) body] over a state. *)
Fixpoint for_range {St} (start count : nat) (body : nat → St → St) (s : St) : St :=
  match count with
  | O => s
  | S count' => for_range (S start) count' body (body start s)
  end.

(** ** The error messages *)

Definition msg_no_nodes : string :=
  "ノードがありません。ノードを追加してください。".
Definition msg_timeStep : string :=
  "時間刻み Δt は正の数で指定してください。".
Definition msg_totalTime : string :=
  "総シミュレーション時間は正の数で指定してください。".
Definition msg_total_lt_step : string :=
  "総シミュレーション時間は時間刻み Δt 以上にしてください。".
Definition msg_heatCapacity (node : SimulationNode) : string :=
  node_name node +:+ " の熱容量は正の数で指定してください。".
Definition msg_initialTemp (node : SimulationNode) : string :=
  node_name node +:+ " の初期温度が不正です。".
Definition msg_fixedTemp (node : SimulationNode) : string :=
  node_name node +:+ " の固定温度が不正です。".
Definition msg_conductance : string :=
  "熱コンダクタンスは 0 以上の数値で指定してください。".
Definition msg_dangling : string :=
  "存在しないノードを参照する接続があります。".

(** ** [simulateThermalNetwork] *)

Definition zero : number := Finite 0.

(** [const tolerance = 1e-9] *)
Definition tolerance : number := of_Q (1 # 1000000000).

(** An element of an adjacency list: [{ neighborIndex, conductance }]. *)
Record Neighbor := {
  neighborIndex : nat;
  nb_conductance : number;
}.

(** The callback of [nodes.forEach] at lines 58-70. *)
Definition check_node (node : SimulationNode) : outcome unit :=
  throw_if (negb (isFinite (heatCapacity node)) || nle (heatCapacity node) zero)
    (msg_heatCapacity node);;
  throw_if (negb (isFinite (initialTemp node))) (msg_initialTemp node);;
  throw_if (isFixed node && negb (isFinite (fixedTemp node))) (msg_fixedTemp node).

(** The callback of [edges.forEach] at lines 72-76. *)
Definition check_conductance (edge : SimulationEdge) : outcome unit :=
  throw_if (negb (isFinite (conductance edge)) || nlt (conductance edge) zero)
    msg_conductance.

(** [nodes.forEach((node, index) => nodeIndex.set(node.id, index))] *)
Fixpoint set_indices (nodes : list SimulationNode) (index : nat)
    (nodeIndex : gmap string nat) : gmap string nat :=
  match nodes with
  | [] => nodeIndex
  | node :: rest => set_indices rest (S index) (<[node_id node := index]> nodeIndex)
  end.

(** [nodeIndex.has(key)] *)
Definition has (nodeIndex : gmap string nat) (key : string) : bool :=
  bool_decide (is_Some (nodeIndex !! key)).

(** The callback of [edges.forEach] at lines 81-85. *)
Definition check_endpoints (nodeIndex : gmap string nat) (edge : SimulationEdge)
    : outcome unit :=
  throw_if (negb (has nodeIndex (source edge)) || negb (has nodeIndex (target edge)))
    msg_dangling.

(** [adjacency[index].push(nb)]; the access to [adjacency[index]] gives
    [undefined] out of range, and [push] on it raises. *)
Definition push_neighbor (index : nat) (nb : Neighbor)
    (adjacency : list (list Neighbor)) : outcome (list (list Neighbor)) :=
  match adjacency !! index with
  | Some neighbors => Return (<[index := neighbors ++ [nb]]> adjacency)
  | None => Throw TypeError
  end.

(** [edges.forEach] at lines 89-95.  [nodeIndex.get(..)!] is [undefined] for
    an absent key, and indexing [adjacency] with it raises as above. *)
Fixpoint build_adjacency (nodeIndex : gmap string nat) (edges : list SimulationEdge)
    (adjacency : list (list Neighbor)) : outcome (list (list Neighbor)) :=
  match edges with
  | [] => Return adjacency
  | edge :: rest =>
      match nodeIndex !! source edge, nodeIndex !! target edge with
      | Some sourceIndex, Some targetIndex =>
          adjacency ← push_neighbor sourceIndex
            {| neighborIndex := targetIndex; nb_conductance := conductance edge |}
            adjacency;
          adjacency ← push_neighbor targetIndex
            {| neighborIndex := sourceIndex; nb_conductance := conductance edge |}
            adjacency;
          build_adjacency nodeIndex rest adjacency
      | _, _ => Throw TypeError
      end
  end.

(** [s.temperatures.push(t)] *)
Definition push_temperature (t : number) (s : SimulationSeries) : SimulationSeries :=
  {| nodeId := nodeId s; name := name s; temperatures := temperatures s ++ [t] |}.

(** The variables the [while] loop assigns to. *)
Record LoopState := {
  elapsed : number;
  currentTemps : list number;
  st_series : list SimulationSeries;
  st_times : list number;
}.

(** Lines 130-136: the sum over [adjacency[i]].  A read of a [number] array
    is [l !!! i], which is [NaN] out of range, as [undefined] is in
    arithmetic. *)
Definition netHeatFlow (currentTemps : list number) (i : nat)
    (neighbors : list Neighbor) : number :=
  foldl (λ (acc : number) (nb : Neighbor),
           let delta := (currentTemps !!! neighborIndex nb - currentTemps !!! i)%num in
           (acc + nb_conductance nb * delta)%num)
        zero neighbors.

(** Lines 123-139: one turn of the first [for] loop, on [nextTemps]. *)
Definition update_node (nodes : list SimulationNode)
    (adjacency : list (list Neighbor)) (currentTemps : list number) (step : number)
    (i : nat) (nextTemps : list number) : list number :=
  match nodes !! i with
  | None => nextTemps
  | Some node =>
      if isFixed node then <[i := fixedTemp node]> nextTemps
      else
        let neighbors := default [] (adjacency !! i) in
        let temperatureDerivative :=
          (netHeatFlow currentTemps i neighbors / heatCapacity node)%num in
        <[i := (currentTemps !!! i + temperatureDerivative * step)%num]> nextTemps
  end.

(** Lines 142-145: one turn of the second [for] loop, on [currentTemps] and
    [series]. *)
Definition commit_node (nextTemps : list number) (i : nat)
    (s : list number * list SimulationSeries) : list number * list SimulationSeries :=
  let currentTemps := <[i := nextTemps !!! i]> s.1 in
  (currentTemps, alter (push_temperature (currentTemps !!! i)) i s.2).

(** Lines 117-147: the body of the [while] loop. *)
Definition loop_body (nodes : list SimulationNode) (adjacency : list (list Neighbor))
    (settings : SimulationSettings) (st : LoopState) : LoopState :=
  let step := nmin (timeStep settings) (totalTime settings - elapsed st)%num in
  let elapsed := (elapsed st + step)%num in
  let nextTemps := currentTemps st in
  let nextTemps :=
    for_range 0 (length nodes) (update_node nodes adjacency (currentTemps st) step)
      nextTemps in
  let '(currentTemps, series) :=
    for_range 0 (length nodes) (commit_node nextTemps) (currentTemps st, st_series st) in
  {| elapsed := elapsed;
     currentTemps := currentTemps;
     st_series := series;
     st_times := st_times st ++ [toFixed6 elapsed] |}.

(** [while (elapsed + tolerance < totalTime)] *)
Definition loop_cond (settings : SimulationSettings) (st : LoopState) : bool :=
  nlt (elapsed st + tolerance)%num (totalTime settings).

(** [while (cond) body], stopped with [Timeout] after [fuel] turns. *)
Fixpoint while_loop {St} (fuel : nat) (cond : St → bool) (body : St → St) (s : St)
    : outcome St :=
  match fuel with
  | O => if cond s then Timeout else Return s
  | S fuel' => if cond s then while_loop fuel' cond body (body s) else Return s
  end.

Definition simulateThermalNetwork (fuel : nat) (nodes : list SimulationNode)
    (edges : list SimulationEdge) (settings : SimulationSettings)
    : outcome SimulationResult :=
  throw_if (bool_decide (length nodes = 0%nat)) msg_no_nodes;;
  throw_if (negb (isFinite (timeStep settings)) || nle (timeStep settings) zero)
    msg_timeStep;;
  throw_if (negb (isFinite (totalTime settings)) || nle (totalTime settings) zero)
    msg_totalTime;;
  throw_if (nlt (totalTime settings) (timeStep settings)) msg_total_lt_step;;
  forEach check_node nodes;;
  forEach check_conductance edges;;
  let nodeIndex := set_indices nodes 0 ∅ in
  forEach (check_endpoints nodeIndex) edges;;
  adjacency ← build_adjacency nodeIndex edges ((λ _, []) <$> nodes);
  let series :=
    (λ node, {| nodeId := node_id node; name := node_name node; temperatures := [] |})
      <$> nodes in
  let currentTemps :=
    (λ node, if isFixed node then fixedTemp node else initialTemp node) <$> nodes in
  let series := imap (λ index s, push_temperature (currentTemps !!! index) s) series in
  st ← while_loop fuel (loop_cond settings) (loop_body nodes adjacency settings)
         {| elapsed := zero; currentTemps := currentTemps;
            st_series := series; st_times := [zero] |};
  mret {| times := st_times st; series := st_series st |}.

(** *** The end-to-end example: A free at 100 with capacity 50, B fixed at 20,
    one edge of conductance 5, a step of 1 for a total of 5. *)

Definition node_A : SimulationNode :=
  {| node_id := "a"; node_name := "A"; initialTemp := of_Z 100;
     heatCapacity := of_Z 50; isFixed := false; fixedTemp := of_Z 0 |}.
Definition node_B : SimulationNode :=
  {| node_id := "b"; node_name := "B"; initialTemp := of_Z 0;
     heatCapacity := of_Z 1; isFixed := true; fixedTemp := of_Z 20 |}.
Definition edge_AB (g : number) : SimulationEdge :=
  {| edge_id := "e"; source := "a"; target := "b"; conductance := g |}.

(** Equality of results by computation: the proof carried by a [Qc] is
    not compared. *)
Definition number_eqb (x y : number) : bool :=
  match x, y with
  | Finite a, Finite b => Qeq_bool a b
  | PosInf, PosInf | NegInf, NegInf | NaN, NaN => true
  | _, _ => false
  end.

Fixpoint numbers_eqb (l k : list number) : bool :=
  match l, k with
  | [], [] => true
  | x :: l', y :: k' => number_eqb x y && numbers_eqb l' k'
  | _, _ => false
  end.

(** * The preconditions, as the specification lists them *)

Definition finite (x : number) : Prop :=
  match x with Finite _ => True | _ => False end.
Definition positive (x : number) : Prop :=
  match x with Finite q => 0 < q | _ => False end.
Definition nonnegative (x : number) : Prop :=
  match x with Finite q => 0 ≤ q | _ => False end.

(** The rational under a finite number. *)
Definition qval (x : number) : Qc :=
  match x with Finite q => q | _ => 0 end.

Definition node_ok (node : SimulationNode) : Prop :=
  positive (heatCapacity node) ∧ finite (initialTemp node) ∧
  (isFixed node = true → finite (fixedTemp node)).

Definition conductance_ok (edge : SimulationEdge) : Prop :=
  nonnegative (conductance edge).

Definition is_node_id (nodes : list SimulationNode) (key : string) : Prop :=
  key ∈ node_id <$> nodes.

Definition endpoints_ok (nodes : list SimulationNode) (edge : SimulationEdge) : Prop :=
  is_node_id nodes (source edge) ∧ is_node_id nodes (target edge).

Inductive precondition : Type :=
  | P_nodes            (* 1: nodes non-empty *)
  | P_timeStep         (* 2: timeStep finite and positive *)
  | P_totalTime        (* 3: totalTime finite and positive *)
  | P_total_ge_step    (* 4: totalTime >= timeStep *)
  | P_node_values      (* 5: per-node finiteness and positivity *)
  | P_conductances     (* 6: per-edge conductance finite and >= 0 *)
  | P_endpoints.       (* 7: edge endpoints are node ids *)

(** The place of a precondition in the order of the specification. *)
Definition rank (p : precondition) : nat :=
  match p with
  | P_nodes => 1 | P_timeStep => 2 | P_totalTime => 3 | P_total_ge_step => 4
  | P_node_values => 5 | P_conductances => 6 | P_endpoints => 7
  end.

Definition holds (p : precondition) (nodes : list SimulationNode)
    (edges : list SimulationEdge) (settings : SimulationSettings) : Prop :=
  match p with
  | P_nodes => nodes ≠ []
  | P_timeStep => positive (timeStep settings)
  | P_totalTime => positive (totalTime settings)
  | P_total_ge_step => nle (timeStep settings) (totalTime settings) = true
  | P_node_values => Forall node_ok nodes
  | P_conductances => Forall conductance_ok edges
  | P_endpoints => Forall (endpoints_ok nodes) edges
  end.

(** An input that validation accepts. *)
Definition valid (nodes : list SimulationNode) (edges : list SimulationEdge)
    (settings : SimulationSettings) : Prop :=
  ∀ p, holds p nodes edges settings.

(** The error of the first check that [node] fails. *)
Definition node_error (node : SimulationNode) (e : exn) : Prop :=
  (¬ positive (heatCapacity node) ∧ e = SimulationError (msg_heatCapacity node)) ∨
  (positive (heatCapacity node) ∧ ¬ finite (initialTemp node) ∧
     e = SimulationError (msg_initialTemp node)) ∨
  (positive (heatCapacity node) ∧ finite (initialTemp node) ∧ isFixed node = true ∧
     ¬ finite (fixedTemp node) ∧ e = SimulationError (msg_fixedTemp node)).

(** What the error raised for a violated precondition says. *)
Definition reports (p : precondition) (nodes : list SimulationNode)
    (edges : list SimulationEdge) (e : exn) : Prop :=
  match p with
  | P_nodes => e = SimulationError msg_no_nodes
  | P_timeStep => e = SimulationError msg_timeStep
  | P_totalTime => e = SimulationError msg_totalTime
  | P_total_ge_step => e = SimulationError msg_total_lt_step
  | P_node_values =>
      ∃ before node after, nodes = before ++ node :: after ∧
        Forall node_ok before ∧ ¬ node_ok node ∧ node_error node e
  | P_conductances =>
      e = SimulationError msg_conductance ∧ ∃ edge, edge ∈ edges ∧ ¬ conductance_ok edge
  | P_endpoints =>
      e = SimulationError msg_dangling ∧ ∃ edge, edge ∈ edges ∧ ¬ endpoints_ok nodes edge
  end.

(** * Validation *)

Section validation.

Lemma bind_Return {A B} (a : A) (k : A → outcome B) : (Return a ≫= k) = k a.
Proof. reflexivity. Qed.

Lemma bind_Throw {A B} (e : exn) (k : A → outcome B) : (Throw e ≫= k) = Throw e.
Proof. reflexivity. Qed.

Lemma throw_if_bind {B} (c : bool) (msg : string) (k : outcome B) :
  (throw_if c msg ;; k) = if c then Throw (SimulationError msg) else k.
Proof. by destruct c. Qed.

Lemma positive_check (x : number) :
  negb (isFinite x) || nle x zero = false ↔ positive x.
Proof.
  destruct x as [q| | |]; simpl; try (split; [discriminate|tauto]).
  rewrite bool_decide_eq_false. apply iff_sym, Qclt_nge.
Qed.

Lemma nonnegative_check (x : number) :
  negb (isFinite x) || nlt x zero = false ↔ nonnegative x.
Proof.
  destruct x as [q| | |]; simpl; try (split; [discriminate|tauto]).
  rewrite bool_decide_eq_false. apply iff_sym, Qcle_ngt.
Qed.

Lemma finite_check (x : number) : negb (isFinite x) = false ↔ finite x.
Proof. destruct x; simpl; split; try tauto; discriminate. Qed.

Lemma positive_finite (x : number) : positive x → finite x.
Proof. by destruct x. Qed.

Lemma finite_qval (x : number) : finite x → x = Finite (qval x).
Proof. by destruct x. Qed.

Lemma positive_qval (x : number) : positive x → 0 < qval x.
Proof. by destruct x. Qed.

#[global] Instance finite_dec (x : number) : Decision (finite x).
Proof. destruct x; simpl; apply _. Defined.
#[global] Instance positive_dec (x : number) : Decision (positive x).
Proof. destruct x; simpl; apply _. Defined.
#[global] Instance nonnegative_dec (x : number) : Decision (nonnegative x).
Proof. destruct x; simpl; apply _. Defined.
#[global] Instance node_ok_dec (node : SimulationNode) : Decision (node_ok node).
Proof. unfold node_ok. apply _. Defined.

Lemma check_node_ok (node : SimulationNode) :
  node_ok node → check_node node = Return ().
Proof.
  intros (HC & HT & HF). unfold check_node.
  apply positive_check in HC. apply finite_check in HT.
  rewrite !throw_if_bind, HC, HT.
  destruct (isFixed node); [|done].
  specialize (HF eq_refl). apply finite_check in HF. by rewrite HF.
Qed.

Lemma check_node_error (node : SimulationNode) :
  ¬ node_ok node → ∃ e, check_node node = Throw e ∧ node_error node e.
Proof.
  intros Hbad. unfold check_node, node_error. rewrite !throw_if_bind.
  destruct (decide (positive (heatCapacity node))) as [HC|HC].
  - rewrite (proj2 (positive_check _) HC).
    destruct (decide (finite (initialTemp node))) as [HT|HT].
    + rewrite (proj2 (finite_check _) HT).
      destruct (isFixed node) eqn:Hfix.
      * destruct (decide (finite (fixedTemp node))) as [HF|HF].
        { destruct Hbad. by repeat split. }
        destruct (negb (isFinite (fixedTemp node))) eqn:E.
        { simpl. eexists; split; [done|]. do 2 right. by repeat split. }
        by apply finite_check in E.
      * destruct Hbad. repeat split; [done..|]. intros ?; congruence.
    + destruct (negb (isFinite (initialTemp node))) eqn:E.
      { eexists; split; [done|]. right; left. by repeat split. }
      by apply finite_check in E.
  - destruct (negb (isFinite (heatCapacity node)) || nle (heatCapacity node) zero) eqn:E.
    { eexists; split; [done|]. left. by split. }
    by apply positive_check in E.
Qed.

Lemma check_conductance_ok (edge : SimulationEdge) :
  conductance_ok edge → check_conductance edge = Return ().
Proof.
  intros H. unfold check_conductance. apply nonnegative_check in H. by rewrite H.
Qed.

Lemma check_conductance_error (edge : SimulationEdge) :
  ¬ conductance_ok edge →
  check_conductance edge = Throw (SimulationError msg_conductance).
Proof.
  intros H. unfold check_conductance.
  destruct (negb (isFinite (conductance edge)) || nlt (conductance edge) zero) eqn:E;
    [done|].
  by apply nonnegative_check in E.
Qed.

Lemma forEach_ok {A} (f : A → outcome unit) (l : list A) :
  Forall (λ x, f x = Return ()) l → forEach f l = Return ().
Proof. induction 1 as [|x l Hx _ IH]; simpl; [done|]. by rewrite Hx. Qed.

Lemma forEach_first {A} (f : A → outcome unit) (before after : list A) x e :
  Forall (λ x, f x = Return ()) before → f x = Throw e →
  forEach f (before ++ x :: after) = Throw e.
Proof.
  intros Hbefore Hx. induction Hbefore as [|y l Hy _ IH]; simpl.
  - by rewrite Hx.
  - by rewrite Hy.
Qed.

(** The first element of a list without a decidable property. *)
Lemma first_failure {A} (P : A → Prop) `{!∀ x, Decision (P x)} (l : list A) :
  ¬ Forall P l →
  ∃ before x after, l = before ++ x :: after ∧ Forall P before ∧ ¬ P x.
Proof.
  induction l as [|y l IH]; intros Hl.
  - destruct Hl. constructor.
  - destruct (decide (P y)) as [Hy|Hy].
    + destruct IH as (before & x & after & -> & Hb & Hx).
      { intros Hl'. apply Hl. by constructor. }
      exists (y :: before), x, after. repeat split; [|done]. by constructor.
    + exists [], y, l. repeat split; [constructor|done].
Qed.

Lemma set_indices_is_Some nodes start (m : gmap string nat) key :
  is_Some (set_indices nodes start m !! key) ↔
  is_Some (m !! key) ∨ is_node_id nodes key.
Proof.
  unfold is_node_id. revert start m.
  induction nodes as [|node rest IH]; intros start m; simpl.
  - rewrite elem_of_nil. tauto.
  - rewrite IH, elem_of_cons, lookup_insert_is_Some. clear IH.
    destruct (decide (node_id node = key)) as [Heq|Hne].
    + split; [intros _; right; by left | intros _; left; by left].
    + split.
      * intros [[?|[_ ?]]|?]; [done|by left|right; by right].
      * intros [?|[?|?]]; [left; right; by split|congruence|by right].
Qed.

(** Every index in the map is the index of a node with that id. *)
Lemma set_indices_Some nodes start (m : gmap string nat) key i :
  set_indices nodes start m !! key = Some i →
  m !! key = Some i ∨
  ∃ j node, i = (start + j)%nat ∧ nodes !! j = Some node ∧ node_id node = key.
Proof.
  revert start m. induction nodes as [|node rest IH]; intros start m; simpl.
  - by left.
  - intros [Hm|(j & node' & -> & Hj & Hid)]%IH.
    + destruct (decide (node_id node = key)) as [<-|Hne].
      * rewrite lookup_insert_eq in Hm. injection Hm as <-.
        right. exists 0%nat, node. split; [lia|done].
      * rewrite lookup_insert_ne in Hm by done. by left.
    + right. exists (S j), node'. split; [lia|done].
Qed.

Lemma nodeIndex_lt nodes key i :
  set_indices nodes 0 ∅ !! key = Some i → (i < length nodes)%nat.
Proof.
  intros [Hm|(j & node & -> & Hj & _)]%set_indices_Some.
  - by rewrite lookup_empty in Hm.
  - apply lookup_lt_Some in Hj. lia.
Qed.

Lemma has_nodeIndex nodes key :
  has (set_indices nodes 0 ∅) key = true ↔ is_node_id nodes key.
Proof.
  unfold has. rewrite bool_decide_eq_true, set_indices_is_Some, lookup_empty.
  split; [intros [[? [=]]|]; done | by right].
Qed.

#[global] Instance endpoints_ok_dec nodes edge : Decision (endpoints_ok nodes edge).
Proof. unfold endpoints_ok, is_node_id. apply _. Defined.

Lemma check_endpoints_ok nodes edge :
  endpoints_ok nodes edge →
  check_endpoints (set_indices nodes 0 ∅) edge = Return ().
Proof.
  intros [Hs Ht]. unfold check_endpoints.
  apply has_nodeIndex in Hs, Ht. by rewrite Hs, Ht.
Qed.

Lemma check_endpoints_error nodes edge :
  ¬ endpoints_ok nodes edge →
  check_endpoints (set_indices nodes 0 ∅) edge = Throw (SimulationError msg_dangling).
Proof.
  intros Hbad. unfold check_endpoints.
  destruct (has _ (source edge)) eqn:Hs; [|done].
  destruct (has _ (target edge)) eqn:Ht; [|done].
  destruct Hbad. split; by apply has_nodeIndex.
Qed.

#[global] Instance holds_dec p nodes edges settings :
  Decision (holds p nodes edges settings).
Proof. destruct p; simpl; apply _. Defined.

Lemma nonempty_check (nodes : list SimulationNode) :
  nodes ≠ [] → bool_decide (length nodes = 0%nat) = false.
Proof. intros H. apply bool_decide_eq_false. by destruct nodes. Qed.

(** The error of the earliest violated precondition is the one raised,
    whatever the fuel. *)
Lemma first_violation_reported fuel nodes edges settings p :
  (∀ q, (rank q < rank p)%nat → holds q nodes edges settings) →
  ¬ holds p nodes edges settings →
  ∃ e, simulateThermalNetwork fuel nodes edges settings = Throw e ∧
       reports p nodes edges e.
Proof.
  intros Hearlier Hp. unfold simulateThermalNetwork.
  rewrite !throw_if_bind.
  destruct p; simpl in Hp.
  all: try rewrite (nonempty_check nodes) by (apply (Hearlier P_nodes); simpl; lia).
  - destruct nodes; [|by destruct Hp]. by eexists.
  - destruct (negb _ || nle (timeStep settings) zero) eqn:E.
    + by eexists.
    + by apply positive_check in E.
  - rewrite (proj2 (positive_check _) (Hearlier P_timeStep ltac:(simpl; lia))).
    destruct (negb _ || nle (totalTime settings) zero) eqn:E.
    + by eexists.
    + by apply positive_check in E.
  - pose proof (Hearlier P_timeStep ltac:(simpl; lia)) as Hts.
    pose proof (Hearlier P_totalTime ltac:(simpl; lia)) as Htt. simpl in Hts, Htt.
    rewrite (proj2 (positive_check _) Hts), (proj2 (positive_check _) Htt).
    destruct (timeStep settings) as [a| | |], (totalTime settings) as [b| | |];
      try done; simpl in *.
    rewrite bool_decide_eq_true in Hp. apply Qcnot_le_lt in Hp.
    rewrite bool_decide_eq_true_2 by done. by eexists.
  - pose proof (Hearlier P_timeStep ltac:(simpl; lia)) as Hts.
    pose proof (Hearlier P_totalTime ltac:(simpl; lia)) as Htt.
    pose proof (Hearlier P_total_ge_step ltac:(simpl; lia)) as Hge.
    simpl in Hts, Htt, Hge.
    rewrite (proj2 (positive_check _) Hts), (proj2 (positive_check _) Htt).
    replace (nlt (totalTime settings) (timeStep settings)) with false; last first.
    { destruct (timeStep settings) as [a| | |], (totalTime settings) as [b| | |];
        try done; simpl in *.
      rewrite bool_decide_eq_true in Hge. symmetry. apply bool_decide_eq_false.
      by apply Qcle_not_lt. }
    destruct (first_failure node_ok nodes Hp) as (before & node & after & -> & Hb & Hn).
    destruct (check_node_error node Hn) as (e & He & Herr).
    exists e. split.
    + rewrite (forEach_first check_node before after node e); [done| |done].
      eapply Forall_impl; [exact Hb|]. apply check_node_ok.
    + by exists before, node, after.
  - pose proof (Hearlier P_timeStep ltac:(simpl; lia)) as Hts.
    pose proof (Hearlier P_totalTime ltac:(simpl; lia)) as Htt.
    pose proof (Hearlier P_total_ge_step ltac:(simpl; lia)) as Hge.
    pose proof (Hearlier P_node_values ltac:(simpl; lia)) as Hnodes.
    simpl in Hts, Htt, Hge, Hnodes.
    rewrite (proj2 (positive_check _) Hts), (proj2 (positive_check _) Htt).
    replace (nlt (totalTime settings) (timeStep settings)) with false; last first.
    { destruct (timeStep settings) as [a| | |], (totalTime settings) as [b| | |];
        try done; simpl in *.
      rewrite bool_decide_eq_true in Hge. symmetry. apply bool_decide_eq_false.
      by apply Qcle_not_lt. }
    rewrite (forEach_ok check_node nodes)
      by (eapply Forall_impl; [exact Hnodes|]; apply check_node_ok).
    destruct (first_failure conductance_ok edges Hp)
      as (before & edge & after & -> & Hb & He).
    eexists. split.
    + erewrite (forEach_first check_conductance before after edge); [done| |].
      * eapply Forall_impl; [exact Hb|]. apply check_conductance_ok.
      * by apply check_conductance_error.
    + split; [done|]. exists edge. split; [|done]. set_solver.
  - pose proof (Hearlier P_timeStep ltac:(simpl; lia)) as Hts.
    pose proof (Hearlier P_totalTime ltac:(simpl; lia)) as Htt.
    pose proof (Hearlier P_total_ge_step ltac:(simpl; lia)) as Hge.
    pose proof (Hearlier P_node_values ltac:(simpl; lia)) as Hnodes.
    pose proof (Hearlier P_conductances ltac:(simpl; lia)) as Hedges.
    simpl in Hts, Htt, Hge, Hnodes, Hedges.
    rewrite (proj2 (positive_check _) Hts), (proj2 (positive_check _) Htt).
    replace (nlt (totalTime settings) (timeStep settings)) with false; last first.
    { destruct (timeStep settings) as [a| | |], (totalTime settings) as [b| | |];
        try done; simpl in *.
      rewrite bool_decide_eq_true in Hge. symmetry. apply bool_decide_eq_false.
      by apply Qcle_not_lt. }
    rewrite (forEach_ok check_node nodes)
      by (eapply Forall_impl; [exact Hnodes|]; apply check_node_ok).
    rewrite (forEach_ok check_conductance edges)
      by (eapply Forall_impl; [exact Hedges|]; apply check_conductance_ok).
    destruct (first_failure (endpoints_ok nodes) edges Hp)
      as (before & edge & after & -> & Hb & He).
    eexists. split.
    + simpl. erewrite (forEach_first _ before after edge); [done| |].
      * eapply Forall_impl; [exact Hb|]. apply check_endpoints_ok.
      * by apply check_endpoints_error.
    + split; [done|]. exists edge. split; [|done]. set_solver.
Qed.

End validation.

(** * The adjacency structure *)

(** What one edge adds to the adjacency list of node [i]. *)
Definition edge_neighbors (nodeIndex : gmap string nat) (i : nat)
    (edge : SimulationEdge) : list Neighbor :=
  match nodeIndex !! source edge, nodeIndex !! target edge with
  | Some s, Some t =>
      (if decide (s = i)
       then [{| neighborIndex := t; nb_conductance := conductance edge |}] else []) ++
      (if decide (t = i)
       then [{| neighborIndex := s; nb_conductance := conductance edge |}] else [])
  | _, _ => []
  end.

(** The neighbours of node [i]: every edge touching it, in the order of
    [edges]. *)
Definition neighbors_of (nodeIndex : gmap string nat) (edges : list SimulationEdge)
    (i : nat) : list Neighbor :=
  edges ≫= edge_neighbors nodeIndex i.

Definition adjacency_of (nodes : list SimulationNode) (edges : list SimulationEdge)
    : list (list Neighbor) :=
  neighbors_of (set_indices nodes 0 ∅) edges <$> seq 0 (length nodes).

Section adjacency.

Lemma neighbors_of_cons nodeIndex edge rest i :
  neighbors_of nodeIndex (edge :: rest) i =
  edge_neighbors nodeIndex i edge ++ neighbors_of nodeIndex rest i.
Proof. reflexivity. Qed.

Lemma neighbors_of_app nodeIndex edges1 edges2 i :
  neighbors_of nodeIndex (edges1 ++ edges2) i =
  neighbors_of nodeIndex edges1 i ++ neighbors_of nodeIndex edges2 i.
Proof. apply bind_app. Qed.

Lemma push_neighbor_lookup index nb (adjacency : list (list Neighbor)) :
  (index < length adjacency)%nat →
  ∃ adjacency', push_neighbor index nb adjacency = Return adjacency' ∧
    length adjacency' = length adjacency ∧
    ∀ i, adjacency' !! i =
         (λ l, l ++ if decide (index = i) then [nb] else []) <$> adjacency !! i.
Proof.
  intros Hlt. unfold push_neighbor.
  destruct (lookup_lt_is_Some_2 _ _ Hlt) as [l Hl]. rewrite Hl.
  eexists. split; [done|]. split; [apply length_insert|].
  intros i. destruct (decide (index = i)) as [<-|Hne].
  - rewrite list_lookup_insert_eq by done. by rewrite Hl.
  - rewrite list_lookup_insert_ne by done.
    destruct (adjacency !! i); simpl; [|done]. by rewrite app_nil_r.
Qed.

(** The endpoints of [edge] are in the map, at indices below [n]. *)
Definition indexed (nodeIndex : gmap string nat) (n : nat) (edge : SimulationEdge)
    : Prop :=
  ∃ s t, nodeIndex !! source edge = Some s ∧ nodeIndex !! target edge = Some t ∧
         (s < n)%nat ∧ (t < n)%nat.

Lemma build_adjacency_lookup nodeIndex edges :
  ∀ adjacency : list (list Neighbor),
  Forall (indexed nodeIndex (length adjacency)) edges →
  ∃ adjacency', build_adjacency nodeIndex edges adjacency = Return adjacency' ∧
    length adjacency' = length adjacency ∧
    ∀ i, adjacency' !! i =
         (λ l, l ++ neighbors_of nodeIndex edges i) <$> adjacency !! i.
Proof.
  induction edges as [|edge rest IH]; intros adjacency Hall.
  - exists adjacency. split; [done|]. split; [done|]. intros i. simpl.
    destruct (adjacency !! i); simpl; [|done]. by rewrite app_nil_r.
  - apply Forall_cons in Hall as [(s & t & Hs & Ht & Hsn & Htn) Hrest].
    cbn [build_adjacency]. rewrite Hs, Ht.
    destruct (push_neighbor_lookup s
      {| neighborIndex := t; nb_conductance := conductance edge |} adjacency Hsn)
      as (adj1 & -> & Hlen1 & Hadj1).
    rewrite bind_Return.
    destruct (push_neighbor_lookup t
      {| neighborIndex := s; nb_conductance := conductance edge |} adj1
      ltac:(by rewrite Hlen1)) as (adj2 & -> & Hlen2 & Hadj2).
    rewrite bind_Return.
    destruct (IH adj2) as (adj3 & -> & Hlen3 & Hadj3).
    { by rewrite Hlen2, Hlen1. }
    exists adj3. split; [done|]. split; [congruence|].
    intros i. rewrite Hadj3, Hadj2, Hadj1, neighbors_of_cons.
    unfold edge_neighbors. rewrite Hs, Ht.
    destruct (adjacency !! i); simpl; [|done].
    f_equal. by rewrite <-!app_assoc.
Qed.

Lemma endpoints_indexed nodes edge :
  endpoints_ok nodes edge → indexed (set_indices nodes 0 ∅) (length nodes) edge.
Proof.
  intros [Hs Ht]. apply has_nodeIndex in Hs, Ht. unfold has in Hs, Ht.
  apply bool_decide_eq_true in Hs as [s Hs], Ht as [t Ht].
  exists s, t. repeat split; [done..| |]; by eapply nodeIndex_lt.
Qed.

(** With every endpoint a node id, the structure built is [adjacency_of]. *)
Lemma build_adjacency_spec nodes edges :
  Forall (endpoints_ok nodes) edges →
  build_adjacency (set_indices nodes 0 ∅) edges ((λ _, []) <$> nodes) =
  Return (adjacency_of nodes edges).
Proof.
  intros Hall.
  destruct (build_adjacency_lookup (set_indices nodes 0 ∅) edges ((λ _, []) <$> nodes))
    as (adjacency & -> & Hlen & Hadj).
  { rewrite length_fmap. eapply Forall_impl; [exact Hall|]. apply endpoints_indexed. }
  f_equal. apply list_eq. intros i. rewrite Hadj. unfold adjacency_of.
  rewrite !list_lookup_fmap.
  destruct (decide (i < length nodes)%nat) as [Hlt|Hge].
  - rewrite lookup_seq_lt by done.
    destruct (lookup_lt_is_Some_2 nodes i Hlt) as [node ->]. done.
  - rewrite lookup_seq_ge by lia. by rewrite lookup_ge_None_2 by lia.
Qed.

Lemma length_adjacency_of nodes edges :
  length (adjacency_of nodes edges) = length nodes.
Proof. unfold adjacency_of. by rewrite length_fmap, length_seq. Qed.

Lemma lookup_adjacency_of nodes edges i :
  (i < length nodes)%nat →
  adjacency_of nodes edges !! i = Some (neighbors_of (set_indices nodes 0 ∅) edges i).
Proof.
  intros Hlt. unfold adjacency_of. by rewrite list_lookup_fmap, lookup_seq_lt.
Qed.

End adjacency.

(** * One turn of the [while] loop *)

(** The new temperature of node [i], from the temperatures [T] of the
    previous sample. *)
Definition next_temp (adjacency : list (list Neighbor)) (T : list number)
    (step : number) (i : nat) (node : SimulationNode) : number :=
  if isFixed node then fixedTemp node
  else (T !!! i +
        netHeatFlow T i (default [] (adjacency !! i)) / heatCapacity node * step)%num.

Definition euler_step (nodes : list SimulationNode) (adjacency : list (list Neighbor))
    (T : list number) (step : number) : list number :=
  imap (next_temp adjacency T step) nodes.

Definition initial_temps (nodes : list SimulationNode) : list number :=
  (λ node, if isFixed node then fixedTemp node else initialTemp node) <$> nodes.

Section loop_body.

Context (nodes : list SimulationNode) (adjacency : list (list Neighbor)).

Lemma for_range_update T step count :
  ∀ start (L : list number) i,
  length L = length nodes → (start + count ≤ length nodes)%nat →
  for_range start count (update_node nodes adjacency T step) L !! i =
  if decide (start ≤ i < start + count)%nat
  then next_temp adjacency T step i <$> nodes !! i
  else L !! i.
Proof.
  induction count as [|count IH]; intros start L i HL Hle; simpl.
  - by rewrite decide_False by lia.
  - destruct (lookup_lt_is_Some_2 nodes start ltac:(lia)) as [node Hnode].
    rewrite IH; [|unfold update_node; rewrite Hnode;
                  destruct (isFixed node); by rewrite length_insert|lia].
    destruct (decide (i = start)) as [->|Hne].
    + rewrite decide_False by lia. rewrite decide_True by lia.
      unfold update_node. rewrite Hnode. unfold next_temp. simpl.
      destruct (isFixed node); by rewrite list_lookup_insert_eq by lia.
    + assert (update_node nodes adjacency T step start L !! i = L !! i) as ->.
      { unfold update_node. rewrite Hnode.
        destruct (isFixed node); by rewrite list_lookup_insert_ne. }
      destruct (decide (S start ≤ i < S start + count)%nat);
        [by rewrite decide_True by lia | by rewrite decide_False by lia].
Qed.

Lemma for_range_update_all T step :
  length T = length nodes →
  for_range 0 (length nodes) (update_node nodes adjacency T step) T =
  euler_step nodes adjacency T step.
Proof.
  intros HT. apply list_eq. intros i.
  rewrite for_range_update by (done || lia). unfold euler_step.
  rewrite list_lookup_imap.
  destruct (decide (0 ≤ i < 0 + length nodes)%nat) as [?|Hge]; [done|].
  rewrite (lookup_ge_None_2 nodes) by lia. simpl. apply lookup_ge_None_2. lia.
Qed.

Lemma for_range_commit (next : list number) count :
  ∀ start (T : list number) (ser : list SimulationSeries) i,
  length T = length next → (start + count ≤ length next)%nat →
  let r := for_range start count (commit_node next) (T, ser) in
  length r.1 = length next ∧
  r.1 !! i = (if decide (start ≤ i < start + count)%nat then next !! i else T !! i) ∧
  r.2 !! i = (if decide (start ≤ i < start + count)%nat
              then push_temperature (next !!! i) <$> ser !! i else ser !! i).
Proof.
  induction count as [|count IH]; intros start T ser i HT Hle; simpl.
  - by rewrite !decide_False by lia.
  - assert (start < length T)%nat as Hstart by lia.
    destruct (IH (S start) (commit_node next start (T, ser)).1
                (commit_node next start (T, ser)).2 i) as (Hlen & H1 & H2).
    { simpl. by rewrite length_insert. }
    { lia. }
    rewrite <-surjective_pairing in Hlen, H1, H2.
    split; [done|]. rewrite H1, H2. clear IH Hlen H1 H2. simpl.
    rewrite list_lookup_total_insert_eq by done.
    destruct (decide (i = start)) as [->|Hne].
    + rewrite list_lookup_insert_eq by done. rewrite list_lookup_alter_eq.
      rewrite (list_lookup_lookup_total_lt next start) by lia.
      repeat case_decide; try lia; done.
    + rewrite list_lookup_insert_ne by done. rewrite list_lookup_alter_ne by done.
      repeat case_decide; try lia; done.
Qed.

Lemma for_range_commit_all (next T : list number) (ser : list SimulationSeries) :
  length T = length next → length ser = length next →
  for_range 0 (length next) (commit_node next) (T, ser) =
  (next, imap (λ i s, push_temperature (next !!! i) s) ser).
Proof.
  intros HT Hser.
  destruct (for_range 0 (length next) (commit_node next) (T, ser)) as [T' ser'] eqn:E.
  f_equal; apply list_eq; intros i.
  - destruct (for_range_commit next (length next) 0 T ser i HT ltac:(lia))
      as (_ & H1 & _). rewrite E in H1. simpl in H1. rewrite H1.
    destruct (decide _) as [?|Hge]; [done|].
    rewrite (lookup_ge_None_2 next) by lia. apply lookup_ge_None_2. lia.
  - destruct (for_range_commit next (length next) 0 T ser i HT ltac:(lia))
      as (_ & _ & H2). rewrite E in H2. simpl in H2. rewrite H2.
    rewrite list_lookup_imap.
    destruct (decide _) as [?|Hge]; [done|].
    by rewrite (lookup_ge_None_2 ser) by lia.
Qed.

Lemma length_euler_step T step :
  length (euler_step nodes adjacency T step) = length nodes.
Proof. apply length_imap. Qed.

(** The body of the loop, in one piece. *)
Lemma loop_body_spec settings (st : LoopState) :
  length (currentTemps st) = length nodes →
  length (st_series st) = length nodes →
  let step := nmin (timeStep settings) (totalTime settings - elapsed st)%num in
  let next := euler_step nodes adjacency (currentTemps st) step in
  loop_body nodes adjacency settings st =
  {| elapsed := (elapsed st + step)%num;
     currentTemps := next;
     st_series := imap (λ i s, push_temperature (next !!! i) s) (st_series st);
     st_times := st_times st ++ [toFixed6 (elapsed st + step)%num] |}.
Proof.
  intros HT Hser step next. unfold loop_body. fold step.
  rewrite for_range_update_all by done. fold next.
  replace (length nodes) with (length next) by apply length_euler_step.
  rewrite for_range_commit_all; [done| |];
    unfold next; rewrite length_euler_step; done.
Qed.

End loop_body.

(** * The samples of a run *)

(** The variable [elapsed] after [k] turns of the loop. *)
Fixpoint elapsed_at (settings : SimulationSettings) (k : nat) : number :=
  match k with
  | O => zero
  | S k' =>
      (elapsed_at settings k' +
       nmin (timeStep settings) (totalTime settings - elapsed_at settings k'))%num
  end.

(** The step taken by turn [k] of the loop (the first turn is turn 0). *)
Definition step_size (settings : SimulationSettings) (k : nat) : number :=
  nmin (timeStep settings) (totalTime settings - elapsed_at settings k)%num.

(** The temperatures of all nodes after [k] turns. *)
Fixpoint temps_at (nodes : list SimulationNode) (adjacency : list (list Neighbor))
    (settings : SimulationSettings) (k : nat) : list number :=
  match k with
  | O => initial_temps nodes
  | S k' =>
      euler_step nodes adjacency (temps_at nodes adjacency settings k')
        (step_size settings k')
  end.

(** The series of a run of [k] turns. *)
Definition series_at (nodes : list SimulationNode) (adjacency : list (list Neighbor))
    (settings : SimulationSettings) (k : nat) : list SimulationSeries :=
  imap (λ i node,
          {| nodeId := node_id node; name := node_name node;
             temperatures :=
               (λ j, temps_at nodes adjacency settings j !!! i) <$> seq 0 (S k) |})
       nodes.

(** The times of a run of [k] turns. *)
Definition times_at (settings : SimulationSettings) (k : nat) : list number :=
  zero :: ((λ j, toFixed6 (elapsed_at settings j)) <$> seq 1 k).

Definition state_at (nodes : list SimulationNode) (adjacency : list (list Neighbor))
    (settings : SimulationSettings) (k : nat) : LoopState :=
  {| elapsed := elapsed_at settings k;
     currentTemps := temps_at nodes adjacency settings k;
     st_series := series_at nodes adjacency settings k;
     st_times := times_at settings k |}.

Section samples.

Context (nodes : list SimulationNode) (adjacency : list (list Neighbor))
        (settings : SimulationSettings).

#[local] Arguments seq : simpl never.
#[local] Arguments temps_at : simpl never.
#[local] Arguments elapsed_at : simpl never.

Lemma length_temps_at k : length (temps_at nodes adjacency settings k) = length nodes.
Proof.
  destruct k; [apply length_fmap | apply length_euler_step].
Qed.

Lemma length_series_at k : length (series_at nodes adjacency settings k) = length nodes.
Proof. apply length_imap. Qed.

Lemma length_times_at k : length (times_at settings k) = S k.
Proof. unfold times_at. simpl. by rewrite length_fmap, length_seq. Qed.

(** The state on entry to the loop. *)
Lemma initial_state :
  {| elapsed := zero;
     currentTemps := initial_temps nodes;
     st_series :=
       imap (λ index s, push_temperature (initial_temps nodes !!! index) s)
         ((λ node, {| nodeId := node_id node; name := node_name node;
                      temperatures := [] |}) <$> nodes);
     st_times := [zero] |} = state_at nodes adjacency settings 0.
Proof.
  unfold state_at, series_at, times_at. simpl. f_equal.
  rewrite imap_fmap. by apply imap_ext.
Qed.

Lemma loop_body_state_at k :
  loop_body nodes adjacency settings (state_at nodes adjacency settings k) =
  state_at nodes adjacency settings (S k).
Proof.
  rewrite loop_body_spec; simpl;
    [|apply length_temps_at|apply length_series_at].
  unfold state_at. f_equal.
  - apply list_eq. intros i. unfold series_at.
    rewrite !list_lookup_imap.
    destruct (nodes !! i) as [node|]; [|done].
    rewrite (seq_S (S k)), fmap_app. done.
  - unfold times_at. rewrite (seq_S k), fmap_app. done.
Qed.

Lemma iter_loop_body k :
  Nat.iter k (loop_body nodes adjacency settings) (state_at nodes adjacency settings 0)
  = state_at nodes adjacency settings k.
Proof.
  induction k as [|k IH]; [done|]. simpl. rewrite IH. apply loop_body_state_at.
Qed.

End samples.

(** [while_loop] runs the body as many times as the condition holds. *)
Lemma while_loop_iter {St} (cond : St → bool) (body : St → St) (N : nat) :
  ∀ fuel (s : St),
  (∀ k, (k < N)%nat → cond (Nat.iter k body s) = true) →
  cond (Nat.iter N body s) = false →
  while_loop fuel cond body s =
  if decide (N ≤ fuel)%nat then Return (Nat.iter N body s) else Timeout.
Proof.
  induction N as [|N IH]; intros fuel s Htrue Hfalse.
  - simpl in Hfalse. rewrite decide_True by lia.
    destruct fuel; simpl; by rewrite Hfalse.
  - pose proof (Htrue 0%nat ltac:(lia)) as H0. simpl in H0.
    destruct fuel as [|fuel]; cbn [while_loop]; rewrite H0.
    + by rewrite decide_False by lia.
    + rewrite IH.
      * rewrite <-Nat.iter_succ_r. repeat case_decide; (done || lia).
      * intros k Hk. rewrite <-Nat.iter_succ_r. apply Htrue. lia.
      * by rewrite <-Nat.iter_succ_r.
Qed.

(** * The clock *)

Definition Qc_of_nat (k : nat) : Qc := Q2Qc (inject_Z (Z.of_nat k)).

(** The rational under [tolerance]. *)
Definition tol : Qc := Q2Qc (1 # 1000000000).

(** [elapsed] after [k] turns, for a step [a] and a total [b]. *)
Definition qelapsed (a b : Qc) (k : nat) : Qc :=
  if decide (Qc_of_nat k * a ≤ b) then Qc_of_nat k * a else b.

(** The number of turns of the loop: the least [k] with
    [k * a + tol >= b]. *)
Definition steps (a b : Qc) : nat := Z.to_nat (Qceiling ((b - tol) / a)%Qc).

Definition steps_of (settings : SimulationSettings) : nat :=
  steps (qval (timeStep settings)) (qval (totalTime settings)).

(** From [Qc] to [Q], where [lra] works. *)
Lemma this_Q2Qc q : (this (Q2Qc q) == q)%Q.
Proof. apply Qred_correct. Qed.
Lemma this_plus (x y : Qc) : (this (x + y) == this x + this y)%Q.
Proof. apply this_Q2Qc. Qed.
Lemma this_opp (x : Qc) : (this (- x) == - this x)%Q.
Proof. apply this_Q2Qc. Qed.
Lemma this_minus (x y : Qc) : (this (x - y) == this x - this y)%Q.
Proof. unfold Qcminus. rewrite this_plus, this_opp. reflexivity. Qed.
Lemma this_mult (x y : Qc) : (this (x * y) == this x * this y)%Q.
Proof. apply this_Q2Qc. Qed.
Lemma this_of_nat k : (this (Qc_of_nat k) == inject_Z (Z.of_nat k))%Q.
Proof. apply this_Q2Qc. Qed.
Lemma this_eq (x y : Qc) : x = y → (this x == this y)%Q.
Proof. by intros ->. Qed.

Ltac qc_lra :=
  repeat match goal with
  | H : @eq Qc _ _ |- _ => apply this_eq in H
  end;
  try apply Qc_is_canon;
  unfold Qcle, Qclt, tol in *;
  repeat (rewrite ?this_plus, ?this_minus, ?this_opp, ?this_mult, ?this_of_nat,
            ?this_Q2Qc in * );
  lra.

Lemma Qc_of_nat_S k : Qc_of_nat (S k) = Qc_of_nat k + 1.
Proof.
  apply Qc_is_canon. rewrite this_plus, !this_of_nat, Nat2Z.inj_succ.
  unfold Z.succ. rewrite inject_Z_plus. reflexivity.
Qed.

Lemma Qc_of_nat_nonneg k : 0 ≤ Qc_of_nat k.
Proof.
  unfold Qcle. rewrite this_of_nat. change (this 0) with (inject_Z 0).
  rewrite <-Zle_Qle. lia.
Qed.

Lemma Qc_of_nat_le j k : (j ≤ k)%nat → Qc_of_nat j ≤ Qc_of_nat k.
Proof.
  intros H. unfold Qcle. rewrite !this_of_nat, <-Zle_Qle. lia.
Qed.

Section clock.

Context (a b : Qc) (Ha : 0 < a) (Hab : a ≤ b).

Let settings : SimulationSettings := {| timeStep := Finite a; totalTime := Finite b |}.

Lemma qelapsed_0 : qelapsed a b 0 = 0.
Proof.
  unfold qelapsed. change (Qc_of_nat 0) with (Q2Qc 0). rewrite Qcmult_0_l.
  rewrite decide_True; [done|]. qc_lra.
Qed.

Lemma qelapsed_S k :
  qelapsed a b (S k) =
  qelapsed a b k + (if decide (b - qelapsed a b k < a) then b - qelapsed a b k else a).
Proof.
  unfold qelapsed. rewrite Qc_of_nat_S.
  pose proof (Qc_of_nat_nonneg k) as Hk.
  assert (0 ≤ Qc_of_nat k * a) as Hka.
  { apply Qcmult_nonneg_nonneg; [done|by apply Qclt_le_weak]. }
  repeat case_decide; qc_lra.
Qed.

Lemma qelapsed_le k : qelapsed a b k ≤ b.
Proof. unfold qelapsed. case_decide; [done|apply Qcle_refl]. Qed.

Lemma qelapsed_nonneg k : 0 ≤ qelapsed a b k.
Proof.
  unfold qelapsed. case_decide.
  - apply Qcmult_nonneg_nonneg; [apply Qc_of_nat_nonneg|by apply Qclt_le_weak].
  - qc_lra.
Qed.

Lemma elapsed_at_closed k : elapsed_at settings k = Finite (qelapsed a b k).
Proof.
  induction k as [|k IH]; [by rewrite qelapsed_0|].
  cbn [elapsed_at]. rewrite IH, qelapsed_S. simpl.
  case_bool_decide; by rewrite ?decide_True, ?decide_False by done.
Qed.

(** The steps are positive. *)
Lemma step_size_closed k :
  step_size settings k =
  Finite (if decide (b - qelapsed a b k < a) then b - qelapsed a b k else a).
Proof.
  unfold step_size. rewrite elapsed_at_closed. simpl.
  case_bool_decide; by rewrite ?decide_True, ?decide_False by done.
Qed.

Lemma loop_cond_closed (st : LoopState) k :
  elapsed st = elapsed_at settings k →
  loop_cond settings st = bool_decide (Qc_of_nat k * a + tol < b).
Proof.
  intros Hst. unfold loop_cond. rewrite Hst, elapsed_at_closed. simpl.
  apply bool_decide_ext. fold tol. unfold qelapsed.
  case_decide; [done|]. split; intros; qc_lra.
Qed.

Lemma steps_spec k :
  (k < steps a b)%nat ↔ Qc_of_nat k * a + tol < b.
Proof.
  assert (((b - tol) / a) * a = b - tol) as Hx.
  { field. intros ->. by apply Qclt_not_eq in Ha. }
  unfold steps. remember ((b - tol) / a) as x eqn:Ex. clear Ex.
  pose proof (Qceiling_lt x) as Hc. pose proof (Qle_ceiling x) as Hc'.
  split.
  - intros Hk.
    assert (inject_Z (Z.of_nat k) <= inject_Z (Qceiling x - 1))%Q as Hle.
    { rewrite <-Zle_Qle. lia. }
    assert (Qc_of_nat k < x) as Hlt.
    { unfold Qclt. rewrite this_of_nat. lra. }
    assert (Qc_of_nat k * a < x * a) as Hm by (by apply Qcmult_lt_compat_r).
    clear -Hm Hx. qc_lra.
  - intros Hk.
    assert (Qc_of_nat k < x) as Hlt.
    { apply Qcnot_le_lt. intros Hle.
      assert (x * a ≤ Qc_of_nat k * a) as Hm.
      { apply Qcmult_le_compat_r; [done|by apply Qclt_le_weak]. }
      clear -Hm Hx Hk. qc_lra. }
    assert (inject_Z (Z.of_nat k) < inject_Z (Qceiling x))%Q as Hlt'.
    { unfold Qclt in Hlt. rewrite this_of_nat in Hlt. lra. }
    rewrite <-Zlt_Qlt in Hlt'. lia.
Qed.

End clock.

(** * Runs of an accepted input *)

(** The result of a run of [k] turns. *)
Definition result_at (nodes : list SimulationNode) (edges : list SimulationEdge)
    (settings : SimulationSettings) (k : nat) : SimulationResult :=
  {| times := times_at settings k;
     series := series_at nodes (adjacency_of nodes edges) settings k |}.

Section run.

Context (nodes : list SimulationNode) (edges : list SimulationEdge)
        (settings : SimulationSettings).
Context (Hvalid : valid nodes edges settings).

Lemma valid_settings :
  ∃ a b, settings = {| timeStep := Finite a; totalTime := Finite b |} ∧
         0 < a ∧ a ≤ b.
Proof.
  pose proof (Hvalid P_timeStep) as Hts. pose proof (Hvalid P_totalTime) as Htt.
  pose proof (Hvalid P_total_ge_step) as Hge. simpl in *.
  destruct settings as [[a| | |] [b| | |]]; try done. simpl in *.
  exists a, b. apply bool_decide_eq_true in Hge. done.
Qed.

Lemma validation_passes fuel :
  simulateThermalNetwork fuel nodes edges settings =
  (st ← while_loop fuel (loop_cond settings)
          (loop_body nodes (adjacency_of nodes edges) settings)
          (state_at nodes (adjacency_of nodes edges) settings 0);
   mret {| times := st_times st; series := st_series st |}).
Proof.
  destruct valid_settings as (a & b & Hset & Ha & Hab).
  unfold simulateThermalNetwork. rewrite !throw_if_bind.
  rewrite nonempty_check by apply (Hvalid P_nodes).
  rewrite (proj2 (positive_check _) (Hvalid P_timeStep)).
  rewrite (proj2 (positive_check _) (Hvalid P_totalTime)).
  replace (nlt (totalTime settings) (timeStep settings)) with false; last first.
  { rewrite Hset. simpl. symmetry. apply bool_decide_eq_false. by apply Qcle_not_lt. }
  rewrite (forEach_ok check_node nodes); last first.
  { eapply Forall_impl; [apply (Hvalid P_node_values)|]. apply check_node_ok. }
  rewrite (forEach_ok check_conductance edges); last first.
  { eapply Forall_impl; [apply (Hvalid P_conductances)|]. apply check_conductance_ok. }
  cbv zeta. rewrite (forEach_ok (check_endpoints _) edges); last first.
  { eapply Forall_impl; [apply (Hvalid P_endpoints)|]. apply check_endpoints_ok. }
  rewrite !bind_Return.
  rewrite build_adjacency_spec by apply (Hvalid P_endpoints).
  rewrite bind_Return. fold (initial_temps nodes).
  by rewrite (initial_state nodes (adjacency_of nodes edges) settings).
Qed.

(** The loop ends after [steps_of settings] turns, and the result is the one
    of that many turns. *)
Lemma simulate_valid fuel :
  simulateThermalNetwork fuel nodes edges settings =
  if decide (steps_of settings ≤ fuel)%nat
  then Return (result_at nodes edges settings (steps_of settings))
  else Timeout.
Proof.
  rewrite validation_passes.
  destruct valid_settings as (a & b & Hset & Ha & Hab).
  rewrite (while_loop_iter _ _ (steps_of settings)).
  - case_decide; [|reflexivity]. rewrite iter_loop_body. reflexivity.
  - intros k Hk. rewrite iter_loop_body.
    rewrite Hset. rewrite (loop_cond_closed a b Ha Hab _ k) by done.
    apply bool_decide_eq_true. apply (steps_spec a b Ha Hab). by rewrite Hset in Hk.
  - rewrite iter_loop_body.
    rewrite Hset at 1. rewrite (loop_cond_closed a b Ha Hab _ (steps_of settings)).
    + apply bool_decide_eq_false. rewrite <-(steps_spec a b Ha Hab).
      rewrite Hset. unfold steps_of. simpl. lia.
    + by rewrite Hset.
Qed.

End run.

(** * The outcomes of a call *)

Lemma valid_or_first_violation nodes edges settings :
  valid nodes edges settings ∨
  ∃ p, (∀ q, (rank q < rank p)%nat → holds q nodes edges settings) ∧
       ¬ holds p nodes edges settings.
Proof.
  destruct (decide (holds P_nodes nodes edges settings)) as [H1|H1];
    [|right; exists P_nodes; split; [intros q; destruct q; simpl; lia|done]].
  destruct (decide (holds P_timeStep nodes edges settings)) as [H2|H2];
    [|right; exists P_timeStep; split; [intros q; destruct q; simpl; (lia||done)|done]].
  destruct (decide (holds P_totalTime nodes edges settings)) as [H3|H3];
    [|right; exists P_totalTime; split; [intros q; destruct q; simpl; (lia||done)|done]].
  destruct (decide (holds P_total_ge_step nodes edges settings)) as [H4|H4];
    [|right; exists P_total_ge_step; split;
      [intros q; destruct q; simpl; (lia||done)|done]].
  destruct (decide (holds P_node_values nodes edges settings)) as [H5|H5];
    [|right; exists P_node_values; split;
      [intros q; destruct q; simpl; (lia||done)|done]].
  destruct (decide (holds P_conductances nodes edges settings)) as [H6|H6];
    [|right; exists P_conductances; split;
      [intros q; destruct q; simpl; (lia||done)|done]].
  destruct (decide (holds P_endpoints nodes edges settings)) as [H7|H7];
    [|right; exists P_endpoints; split;
      [intros q; destruct q; simpl; (lia||done)|done]].
  left. intros p. by destruct p.
Qed.

(** A call raises the error of the first violated precondition, or, on an
    accepted input, returns the result of [steps_of settings] turns when the
    fuel allows as many. *)
Lemma outcome_cases fuel nodes edges settings :
  (valid nodes edges settings ∧
     simulateThermalNetwork fuel nodes edges settings =
     if decide (steps_of settings ≤ fuel)%nat
     then Return (result_at nodes edges settings (steps_of settings))
     else Timeout) ∨
  (∃ p e, (∀ q, (rank q < rank p)%nat → holds q nodes edges settings) ∧
          ¬ holds p nodes edges settings ∧
          simulateThermalNetwork fuel nodes edges settings = Throw e ∧
          reports p nodes edges e).
Proof.
  destruct (valid_or_first_violation nodes edges settings) as [Hv|(p & Hq & Hp)].
  - left. split; [done|]. by apply simulate_valid.
  - right. destruct (first_violation_reported fuel nodes edges settings p Hq Hp)
      as (e & He & Hrep).
    by exists p, e.
Qed.

Lemma Return_valid fuel nodes edges settings r :
  simulateThermalNetwork fuel nodes edges settings = Return r →
  valid nodes edges settings ∧ r = result_at nodes edges settings (steps_of settings).
Proof.
  intros Hr.
  destruct (outcome_cases fuel nodes edges settings)
    as [[Hv Hrun]|(p & e & _ & _ & He & _)]; [|congruence].
  split; [done|]. rewrite Hrun in Hr. case_decide; congruence.
Qed.

Lemma while_loop_no_Throw {St} fuel (cond : St → bool) body s e :
  while_loop fuel cond body s ≠ Throw e.
Proof.
  revert s. induction fuel as [|fuel IH]; intros s; simpl; destruct (cond s); done.
Qed.

(** An error does not depend on the fuel. *)
Lemma Throw_fuel fuel1 fuel2 nodes edges settings e :
  simulateThermalNetwork fuel1 nodes edges settings = Throw e →
  simulateThermalNetwork fuel2 nodes edges settings = Throw e.
Proof.
  unfold simulateThermalNetwork. rewrite !throw_if_bind.
  repeat match goal with |- context [if ?c then _ else _] => destruct c end;
    try done.
  cbv zeta.
  destruct (forEach check_node nodes) as [[]|?|]; simpl; try done.
  destruct (forEach check_conductance edges) as [[]|?|]; simpl; try done.
  destruct (forEach _ edges) as [[]|?|]; simpl; try done.
  destruct (build_adjacency _ _ _) as [adj|?|]; simpl; try done.
  destruct (while_loop fuel1 _ _ _) eqn:E1; simpl; try done.
  intros [= <-]. by apply while_loop_no_Throw in E1.
Qed.

(** * The claims *)

(** C3 (validation order).  The preconditions are checked in the order
    (1) nodes non-empty, (2) timeStep finite and positive, (3) totalTime
    finite and positive, (4) totalTime at least timeStep, (5) the values of
    every node, (6) the conductance of every edge, (7) the endpoints of every
    edge: when the preconditions before [p] hold and [p] does not, the call
    raises the error of [p], whatever else is wrong with the input. *)
Theorem validation_order fuel nodes edges settings p :
  (∀ q, (rank q < rank p)%nat → holds q nodes edges settings) →
  ¬ holds p nodes edges settings →
  ∃ e, simulateThermalNetwork fuel nodes edges settings = Throw e ∧
       reports p nodes edges e.
Proof. apply first_violation_reported. Qed.

(** No node and a [NaN] time step: the error is the one for "no nodes". *)
Lemma validation_order_witness :
  ∃ e, simulateThermalNetwork 0 [] [] {| timeStep := NaN; totalTime := NaN |}
       = Throw e ∧
       e = SimulationError msg_no_nodes ∧ e ≠ SimulationError msg_timeStep.
Proof.
  destruct (validation_order 0 [] [] {| timeStep := NaN; totalTime := NaN |} P_nodes)
    as (e & He & Hrep).
  - intros q Hq. destruct q; simpl in Hq; lia.
  - simpl. intros H. by apply H.
  - exists e. split; [exact He|]. simpl in Hrep. split; [exact Hrep|].
    rewrite Hrep. discriminate.
Defined.

(** The outcome of the model does not depend on the fuel once it suffices:
    two runs on the same nodes, edges and settings that both complete give
    the same result or the same error. *)
Theorem simulate_deterministic fuel1 fuel2 nodes edges settings o1 o2 :
  simulateThermalNetwork fuel1 nodes edges settings = o1 →
  simulateThermalNetwork fuel2 nodes edges settings = o2 →
  o1 ≠ Timeout → o2 ≠ Timeout → o1 = o2.
Proof.
  intros H1 H2 Hn1 Hn2.
  destruct (outcome_cases fuel1 nodes edges settings)
    as [[Hv Hrun1]|(p & e & Hq & Hp & He1 & _)].
  - pose proof (simulate_valid nodes edges settings Hv fuel2) as Hrun2.
    rewrite Hrun1 in H1. rewrite Hrun2 in H2.
    repeat case_decide; congruence.
  - destruct (first_violation_reported fuel2 nodes edges settings p Hq Hp)
      as (e2 & He2 & _).
    pose proof (Throw_fuel fuel1 fuel2 nodes edges settings e He1). congruence.
Qed.

(** [ceil (totalTime / timeStep)] *)
Definition ceil_ratio (settings : SimulationSettings) : nat :=
  Z.to_nat (Qceiling (qval (totalTime settings) / qval (timeStep settings))%Qc).

Section iteration_count.

Context (a b : Qc) (Ha : 0 < a) (Hab : a ≤ b).

Let M : nat := Z.to_nat (Qceiling (b / a)%Qc).

Lemma ceil_ratio_bounds : (1 ≤ M)%nat ∧ b ≤ Qc_of_nat M * a ∧ Qc_of_nat (M - 1) * a < b.
Proof.
  assert ((b / a) * a = b) as Hx.
  { field. intros ->. by apply Qclt_not_eq in Ha. }
  subst M. remember (b / a) as x eqn:Ex. clear Ex.
  pose proof (Qceiling_lt x) as Hc. pose proof (Qle_ceiling x) as Hc'.
  assert (0 < x) as Hx0.
  { apply Qcnot_le_lt. intros Hle.
    assert (x * a ≤ 0 * a) as Hm.
    { apply Qcmult_le_compat_r; [done|by apply Qclt_le_weak]. }
    rewrite Qcmult_0_l in Hm. clear -Hm Hx Ha Hab. qc_lra. }
  assert (0 < Qceiling x)%Z as Hpos.
  { rewrite Zlt_Qlt. unfold Qclt in Hx0. change (this 0) with (inject_Z 0) in Hx0. lra. }
  split; [lia|]. split.
  - assert (x ≤ Qc_of_nat (Z.to_nat (Qceiling x))) as Hle.
    { unfold Qcle. rewrite this_of_nat, Z2Nat.id by lia. done. }
    assert (x * a ≤ Qc_of_nat (Z.to_nat (Qceiling x)) * a) as Hm.
    { apply Qcmult_le_compat_r; [done|by apply Qclt_le_weak]. }
    by rewrite Hx in Hm.
  - assert (Qc_of_nat (Z.to_nat (Qceiling x) - 1) < x) as Hlt.
    { unfold Qclt. rewrite this_of_nat.
      replace (Z.of_nat (Z.to_nat (Qceiling x) - 1)) with (Qceiling x - 1)%Z by lia.
      done. }
    assert (Qc_of_nat (Z.to_nat (Qceiling x) - 1) * a < x * a) as Hm.
    { by apply Qcmult_lt_compat_r. }
    by rewrite Hx in Hm.
Qed.

Lemma steps_le_ceil : (steps a b ≤ M)%nat.
Proof.
  destruct ceil_ratio_bounds as (_ & HM & _).
  destruct (decide (steps a b ≤ M)%nat) as [?|Hgt]; [done|].
  assert (M < steps a b)%nat as Hlt by lia.
  apply (steps_spec a b Ha Hab) in Hlt. clear -Hlt HM. qc_lra.
Qed.

(** The count is [ceil (b / a)] exactly when what is left for the last of
    that many steps exceeds the tolerance. *)
Lemma steps_eq_ceil : steps a b = M ↔ Qc_of_nat (M - 1) * a + tol < b.
Proof.
  destruct ceil_ratio_bounds as (HM1 & _ & _). pose proof steps_le_ceil as Hle.
  rewrite <-(steps_spec a b Ha Hab). lia.
Qed.

End iteration_count.

(** The input of the counterexample to the count [ceil (totalTime / timeStep)]:
    a step of 1 for a total of 2.0000000005. *)
Definition settings_short_tail : SimulationSettings :=
  {| timeStep := of_Z 1; totalTime := of_Q (20000000005 # 10000000000) |}.

Lemma valid_intro nodes edges settings :
  holds P_nodes nodes edges settings → holds P_timeStep nodes edges settings →
  holds P_totalTime nodes edges settings →
  holds P_total_ge_step nodes edges settings →
  holds P_node_values nodes edges settings →
  holds P_conductances nodes edges settings →
  holds P_endpoints nodes edges settings →
  valid nodes edges settings.
Proof. intros ??????? p. by destruct p. Qed.

Ltac valid_by_computation :=
  apply valid_intro; (apply (bool_decide_unpack _); vm_compute; exact I).



(** The number of turns in exact arithmetic.  On an accepted input the
    loop terminates after exactly [N] turns, with
    [N = ceil ((totalTime - 1e-9) / timeStep)] (0 when that is negative):
    the call returns with a fuel of [N] turns and runs out of fuel with less.
    The times and every series have [1 + N] entries.  [N] is at most
    [ceil (totalTime / timeStep)], and equal to it exactly when what remains
    for the last of that many steps exceeds the tolerance 1e-9. *)
Theorem iteration_count nodes edges settings :
  valid nodes edges settings →
  let N := Z.to_nat
    (Qceiling ((qval (totalTime settings) - tol) / qval (timeStep settings))%Qc) in
  ∃ r,
    (∀ fuel, (N ≤ fuel)%nat →
       simulateThermalNetwork fuel nodes edges settings = Return r) ∧
    (∀ fuel, (fuel < N)%nat →
       simulateThermalNetwork fuel nodes edges settings = Timeout) ∧
    length (times r) = S N ∧
    length (series r) = length nodes ∧
    Forall (λ s, length (temperatures s) = S N) (series r) ∧
    (N ≤ ceil_ratio settings)%nat ∧
    (N = ceil_ratio settings ↔
       Qc_of_nat (ceil_ratio settings - 1) * qval (timeStep settings) + tol
       < qval (totalTime settings)).
Proof.
  intros Hv N. fold (steps (qval (timeStep settings)) (qval (totalTime settings))) in N.
  fold (steps_of settings) in N.
  exists (result_at nodes edges settings N).
  destruct (valid_settings nodes edges settings Hv) as (a & b & Hset & Ha & Hab).
  split; [|split; [|split; [|split; [|split; [|split]]]]].
  - intros fuel Hfuel. rewrite simulate_valid by done. by rewrite decide_True.
  - intros fuel Hfuel. rewrite simulate_valid by done. by rewrite decide_False by lia.
  - apply length_times_at.
  - apply length_series_at.
  - apply Forall_forall. intros s Hs. apply list_elem_of_lookup in Hs as [i Hs].
    cbn [series result_at] in Hs. unfold series_at in Hs.
    rewrite list_lookup_imap in Hs.
    destruct (nodes !! i); [|done]. injection Hs as <-.
    simpl. f_equal. etransitivity; [apply length_fmap|apply length_seq].
  - subst N. rewrite Hset. apply (steps_le_ceil a b Ha Hab).
  - subst N. rewrite Hset. apply (steps_eq_ceil a b Ha Hab).
Qed.

Lemma iteration_count_witness :
  ∃ r, simulateThermalNetwork 2 [node_A; node_B] [edge_AB (of_Z 5)] settings_short_tail
       = Return r ∧ length (times r) = 3%nat.
Proof.
  destruct (iteration_count [node_A; node_B] [edge_AB (of_Z 5)] settings_short_tail)
    as (r & Hret & _ & Hlen & _).
  - valid_by_computation.
  - exists r. split.
    + apply Hret. vm_compute. lia.
    + rewrite Hlen. vm_compute. reflexivity.
Defined.

(** * Rounding of the times *)

(** One millionth, the unit of [toFixed(6)]. *)
Definition micro : Qc := Q2Qc (1 # 1000000).

(** A whole multiple of one millionth. *)
Definition on_grid (x : number) : Prop :=
  ∃ z : Z, x = Finite (Q2Qc (z # 1000000)).

Section rounding.

Lemma Qfloor_unique (x : Q) (z : Z) :
  (inject_Z z <= x)%Q → (x < inject_Z (z + 1))%Q → Qfloor x = z.
Proof.
  intros Hle Hlt.
  pose proof (Qfloor_le x) as H1. pose proof (Qlt_floor x) as H2.
  assert (inject_Z (Qfloor x) < inject_Z (z + 1))%Q as H3 by lra.
  assert (inject_Z z < inject_Z (Qfloor x + 1))%Q as H4 by lra.
  rewrite <-Zlt_Qlt in H3, H4. lia.
Qed.

Lemma Qmake_millionth (z : Z) : (z # 1000000 == inject_Z z * (1 # 1000000))%Q.
Proof. unfold Qeq. simpl. lia. Qed.

Lemma this_round6 (q : Qc) :
  (this (round6 q) ==
   inject_Z (Qfloor (this q * inject_Z 1000000 + (1 # 2))) * (1 # 1000000))%Q.
Proof.
  unfold round6. rewrite this_Q2Qc, Qmake_millionth. reflexivity.
Qed.

(** Rounding moves a value by at most half a millionth. *)
Lemma round6_near (q : Qc) :
  round6 q - q ≤ Q2Qc (1 # 2000000) ∧ q - round6 q ≤ Q2Qc (1 # 2000000).
Proof.
  pose proof (this_round6 q) as Hr.
  pose proof (Qfloor_le (this q * inject_Z 1000000 + (1 # 2))) as H1.
  pose proof (Qlt_floor (this q * inject_Z 1000000 + (1 # 2))) as H2.
  rewrite inject_Z_plus in H2.
  remember (inject_Z (Qfloor (this q * inject_Z 1000000 + (1 # 2)))) as z eqn:Ez.
  clear Ez. change (inject_Z 1) with 1%Q in H2.
  change (inject_Z 1000000) with (1000000 # 1)%Q in H1, H2.
  unfold Qcle. rewrite !this_minus, !this_Q2Qc, Hr. split; lra.
Qed.

(** Rounding leaves a multiple of one millionth as it is. *)
Lemma round6_grid (z : Z) : round6 (Q2Qc (z # 1000000)) = Q2Qc (z # 1000000).
Proof.
  apply Qc_is_canon. rewrite this_round6.
  rewrite (Qfloor_unique _ z).
  - rewrite this_Q2Qc. symmetry. apply Qmake_millionth.
  - rewrite this_Q2Qc, (Qmake_millionth z).
    change (inject_Z 1000000) with (1000000 # 1)%Q. lra.
  - rewrite this_Q2Qc, (Qmake_millionth z), inject_Z_plus.
    change (inject_Z 1000000) with (1000000 # 1)%Q.
    change (inject_Z 1) with 1%Q. lra.
Qed.

Lemma toFixed6_grid (x : number) :
  on_grid x → nonnegative x → toFixed6 x = x.
Proof.
  intros [z ->] Hx. simpl in *. repeat case_decide; try done.
  - by apply Qcle_not_lt in Hx.
  - by rewrite round6_grid.
Qed.

Lemma toFixed6_zero : toFixed6 zero = zero.
Proof.
  apply (toFixed6_grid zero); [|apply Qcle_refl].
  exists 0%Z. unfold zero. f_equal. by apply Qc_is_canon.
Qed.

(** Rounding a non-negative time moves it by at most half a millionth. *)
Lemma toFixed6_near (q : Qc) :
  0 ≤ q →
  ∃ t, toFixed6 (Finite q) = Finite t ∧
       t - q ≤ Q2Qc (1 # 2000000) ∧ q - t ≤ Q2Qc (1 # 2000000).
Proof.
  intros Hq. simpl. repeat case_decide.
  - exists q. split; [done|]. split; qc_lra.
  - exists q. split; [done|]. split; qc_lra.
  - by apply Qcle_not_lt in Hq.
  - exists (round6 q). split; [done|]. apply round6_near.
Qed.

End rounding.

Section clock_grid.

Context (a b : Qc) (Ha : 0 < a) (Hab : a ≤ b).

Lemma qelapsed_grid k :
  on_grid (Finite a) → on_grid (Finite b) → on_grid (Finite (qelapsed a b k)).
Proof.
  intros [za Hza] [zb Hzb]. unfold qelapsed. case_decide; [|by exists zb].
  exists (Z.of_nat k * za)%Z. f_equal. injection Hza as ->.
  apply Qc_is_canon. rewrite this_mult, this_of_nat, !this_Q2Qc.
  rewrite (Qmake_millionth za), (Qmake_millionth (Z.of_nat k * za)), inject_Z_mult.
  ring.
Qed.

(** When the loop has ended, [elapsed] is within the tolerance of the
    total. *)
Lemma qelapsed_final :
  b - qelapsed a b (steps a b) ≤ tol ∧ qelapsed a b (steps a b) ≤ b.
Proof.
  split; [|apply qelapsed_le].
  assert (¬ Qc_of_nat (steps a b) * a + tol < b) as Hend.
  { rewrite <-(steps_spec a b Ha Hab). lia. }
  apply Qcnot_lt_le in Hend. unfold qelapsed. case_decide; qc_lra.
Qed.

End clock_grid.



Lemma number_eqb_eq (x y : number) : number_eqb x y = true → x = y.
Proof.
  destruct x, y; simpl; try done. intros H. f_equal.
  apply Qc_is_canon. by apply Qeq_bool_iff.
Qed.

Lemma numbers_eqb_eq (l k : list number) : numbers_eqb l k = true → l = k.
Proof.
  revert k. induction l as [|x l IH]; intros [|y k]; simpl; try done.
  intros [Hxy Hlk]%andb_true_iff. f_equal; [by apply number_eqb_eq|by apply IH].
Qed.

Lemma lookup_times_at settings N k :
  (k ≤ N)%nat → times_at settings N !! k = Some (toFixed6 (elapsed_at settings k)).
Proof.
  intros Hk. unfold times_at. destruct k as [|k].
  - change (Some zero = Some (toFixed6 zero)). by rewrite toFixed6_zero.
  - rewrite lookup_cons, list_lookup_fmap, lookup_seq_lt by lia. done.
Qed.

Lemma last_times_at settings N :
  last (times_at settings N) = Some (toFixed6 (elapsed_at settings N)).
Proof.
  rewrite last_lookup, length_times_at. simpl. by apply lookup_times_at.
Qed.

(** The step of 7 for a total of 20: steps of 7, 7 and 6. *)
Example times_7_20 :
  ∃ r, simulateThermalNetwork 3 [node_A; node_B] [edge_AB (of_Z 5)]
         {| timeStep := of_Z 7; totalTime := of_Z 20 |} = Return r ∧
       times r = [of_Z 0; of_Z 7; of_Z 14; of_Z 20].
Proof.
  eexists. split; [vm_compute; reflexivity|].
  apply numbers_eqb_eq. vm_compute. reflexivity.
Qed.



(** The times in exact arithmetic.  The times start at 0.  The variable
    [elapsed] starts at 0 and each turn advances it by
    [min (timeStep, totalTime - elapsed)]; entry [k] of the times is
    [elapsed] after [k] turns rounded to 6 decimals.  When timeStep and
    totalTime are whole multiples of 0.000001 the rounding changes nothing
    and each entry is the one before plus
    [min (timeStep, totalTime - that entry)].  The last entry is within 1e-6
    of totalTime. *)
Theorem times_spec fuel nodes edges settings r :
  simulateThermalNetwork fuel nodes edges settings = Return r →
  ∃ elapsed : nat → number,
    elapsed 0%nat = zero ∧
    (∀ k, elapsed (S k) =
          (elapsed k + nmin (timeStep settings) (totalTime settings - elapsed k))%num) ∧
    times r !! 0%nat = Some zero ∧
    (∀ k, (k < length (times r))%nat → times r !! k = Some (toFixed6 (elapsed k))) ∧
    (on_grid (timeStep settings) → on_grid (totalTime settings) →
     ∀ k, (S k < length (times r))%nat →
       ∃ t, times r !! k = Some t ∧
            times r !! S k =
            Some (t + nmin (timeStep settings) (totalTime settings - t))%num) ∧
    (∃ t, last (times r) = Some (Finite t) ∧
          t - qval (totalTime settings) ≤ micro ∧
          qval (totalTime settings) - t ≤ micro).
Proof.
  intros [Hv ->]%Return_valid.
  destruct (valid_settings nodes edges settings Hv) as (a & b & -> & Ha & Hab).
  set (settings := {| timeStep := Finite a; totalTime := Finite b |}) in *.
  exists (elapsed_at settings). cbn [times result_at].
  split; [done|]. split; [done|]. split; [done|]. split; [|split].
  - intros k Hk. rewrite length_times_at in Hk. apply lookup_times_at. lia.
  - intros Hga Hgb k Hk. rewrite length_times_at in Hk.
    assert (∀ j, toFixed6 (elapsed_at settings j) = elapsed_at settings j) as Hfix.
    { intros j. unfold settings. rewrite (elapsed_at_closed a b Ha Hab).
      apply toFixed6_grid; [by apply qelapsed_grid|].
      by apply qelapsed_nonneg. }
    exists (elapsed_at settings k).
    rewrite !lookup_times_at by lia. by rewrite !Hfix.
  - rewrite last_times_at. unfold settings at 1.
    rewrite (elapsed_at_closed a b Ha Hab).
    destruct (toFixed6_near (qelapsed a b (steps_of settings))) as (t & -> & Ht1 & Ht2).
    { by apply qelapsed_nonneg. }
    exists t. split; [done|].
    pose proof (qelapsed_final a b Ha Hab) as [He1 He2].
    change (steps_of settings) with (steps a b) in *.
    change (qval (totalTime settings)) with b. unfold micro.
    remember (qelapsed a b (steps a b)) as e eqn:Ee. clear Ee.
    clear -Ht1 Ht2 He1 He2. split; qc_lra.
Qed.

Lemma times_spec_witness :
  ∃ t, last (times (result_at [node_A; node_B] [edge_AB (of_Z 5)]
                      {| timeStep := of_Z 7; totalTime := of_Z 20 |} 3))
       = Some (Finite t) ∧
       t - Q2Qc (inject_Z 20) ≤ micro ∧ Q2Qc (inject_Z 20) - t ≤ micro.
Proof.
  destruct (times_spec 3 [node_A; node_B] [edge_AB (of_Z 5)]
              {| timeStep := of_Z 7; totalTime := of_Z 20 |}
              (result_at [node_A; node_B] [edge_AB (of_Z 5)]
                 {| timeStep := of_Z 7; totalTime := of_Z 20 |} 3))
    as (elapsed & _ & _ & _ & _ & _ & Hlast).
  - vm_compute. reflexivity.
  - exact Hlast.
Defined.

(** * The samples of a result *)

(** Entry [k] of the series of node [i]; [NaN] where there is none. *)
Definition sample (r : SimulationResult) (i k : nat) : number :=
  default NaN (series r !! i ≫= λ s, temperatures s !! k).

(** The sum of a list from left to right, starting from 0. *)
Definition sum_numbers (l : list number) : number := foldl nadd zero l.

Section samples_of_result.

Context (nodes : list SimulationNode) (edges : list SimulationEdge)
        (settings : SimulationSettings).

Let adjacency := adjacency_of nodes edges.

Lemma lookup_total_outside (T : list number) i :
  (length T ≤ i)%nat → T !!! i = NaN.
Proof.
  intros H. rewrite list_lookup_total_alt. by rewrite lookup_ge_None_2.
Qed.

Lemma lookup_series_at N i :
  series_at nodes adjacency settings N !! i =
  (λ node, {| nodeId := node_id node; name := node_name node;
              temperatures :=
                (λ j, temps_at nodes adjacency settings j !!! i) <$> seq 0 (S N) |})
    <$> nodes !! i.
Proof. apply list_lookup_imap. Qed.

Lemma sample_result_at N i k :
  (k ≤ N)%nat →
  sample (result_at nodes edges settings N) i k =
  temps_at nodes adjacency settings k !!! i.
Proof.
  intros Hk. unfold sample. cbn [series result_at]. fold adjacency.
  rewrite lookup_series_at.
  destruct (nodes !! i) as [node|] eqn:Hnode.
  - cbn [fmap option_fmap option_map mbind option_bind temperatures].
    rewrite list_lookup_fmap, lookup_seq_lt by lia. done.
  - simpl. symmetry. apply lookup_total_outside.
    rewrite length_temps_at. by apply lookup_ge_None.
Qed.

Lemma netHeatFlow_sum (T : list number) i (neighbors : list Neighbor) :
  netHeatFlow T i neighbors =
  sum_numbers ((λ nb, nb_conductance nb * (T !!! neighborIndex nb - T !!! i))%num
                 <$> neighbors).
Proof. unfold netHeatFlow, sum_numbers. by rewrite foldl_fmap. Qed.

Lemma lookup_total_euler_step (T : list number) step i node :
  nodes !! i = Some node →
  euler_step nodes adjacency T step !!! i = next_temp adjacency T step i node.
Proof.
  intros Hnode. apply list_lookup_total_correct. unfold euler_step.
  by rewrite list_lookup_imap, Hnode.
Qed.

(** A fixed node has its fixed temperature at every sample. *)
Lemma temps_at_fixed k i node :
  nodes !! i = Some node → isFixed node = true →
  temps_at nodes adjacency settings k !!! i = fixedTemp node.
Proof.
  intros Hnode Hfix. destruct k as [|k]; cbn [temps_at].
  - apply list_lookup_total_correct. unfold initial_temps.
    rewrite list_lookup_fmap, Hnode. simpl. by rewrite Hfix.
  - rewrite (lookup_total_euler_step _ _ _ node) by done.
    unfold next_temp. by rewrite Hfix.
Qed.

(** A free node moves by its net heat flow over its capacity times the
    step. *)
Lemma temps_at_free k i node :
  nodes !! i = Some node → isFixed node = false →
  let T := temps_at nodes adjacency settings k in
  temps_at nodes adjacency settings (S k) !!! i =
  (T !!! i +
   sum_numbers ((λ nb, nb_conductance nb * (T !!! neighborIndex nb - T !!! i))
                  <$> neighbors_of (set_indices nodes 0 ∅) edges i)
   / heatCapacity node * step_size settings k)%num.
Proof.
  intros Hnode Hfree T. cbn [temps_at]. fold T.
  rewrite (lookup_total_euler_step _ _ _ node) by done.
  unfold next_temp. rewrite Hfree. unfold adjacency.
  rewrite lookup_adjacency_of by (by eapply lookup_lt_Some).
  by rewrite netHeatFlow_sum.
Qed.

End samples_of_result.

(** C1 (the update).  On an accepted input, every node has a series aligned
    with the times.  For a node that is not fixed, the temperature at sample
    [k + 1] is the temperature at sample [k] plus the sum, over the adjacency
    neighbours of the node, of conductance times (neighbour's temperature at
    sample [k] minus the node's temperature at sample [k]), divided by the
    heat capacity and multiplied by the step of that turn,
    [min (timeStep, totalTime - elapsed)]: every temperature on the right is
    read from sample [k] of the result.  For a fixed node every sample is
    its [fixedTemp]. *)
Theorem euler_update fuel nodes edges settings r :
  simulateThermalNetwork fuel nodes edges settings = Return r →
  ∀ i node, nodes !! i = Some node →
    (∃ s, series r !! i = Some s ∧ nodeId s = node_id node ∧
          length (temperatures s) = length (times r)) ∧
    (isFixed node = true →
       ∀ k, (k < length (times r))%nat → sample r i k = fixedTemp node) ∧
    (isFixed node = false →
       ∀ k, (S k < length (times r))%nat →
         sample r i (S k) =
         (sample r i k +
          sum_numbers
            ((λ nb, nb_conductance nb *
                    (sample r (neighborIndex nb) k - sample r i k))
               <$> neighbors_of (set_indices nodes 0 ∅) edges i)
          / heatCapacity node * step_size settings k)%num).
Proof.
  intros [Hv ->]%Return_valid i node Hnode.
  cbn [times result_at]. rewrite length_times_at.
  split; [|split].
  - cbn [series result_at]. rewrite lookup_series_at, Hnode.
    eexists. split; [done|]. split; [done|].
    cbn [temperatures]. etransitivity; [apply length_fmap|apply length_seq].
  - intros Hfix k Hk. rewrite sample_result_at by lia. by apply (temps_at_fixed _ _ _ _ _ node).
  - intros Hfree k Hk. rewrite !sample_result_at by lia.
    rewrite (temps_at_free _ _ _ _ _ node) by done. cbv zeta. do 4 f_equal.
    apply list_fmap_ext. intros _ nb _. by rewrite sample_result_at by lia.
Qed.

(** The end-to-end example: the first step takes A from 100 to
    100 + (5 * (20 - 100) / 50) * 1 = 92, and B stays at 20. *)
Lemma euler_update_witness :
  let r := result_at [node_A; node_B] [edge_AB (of_Z 5)]
             {| timeStep := of_Z 1; totalTime := of_Z 5 |} 5 in
  number_eqb (sample r 0 1) (of_Z 92) = true ∧ sample r 1 1 = of_Z 20.
Proof.
  intros r.
  assert (simulateThermalNetwork 5 [node_A; node_B] [edge_AB (of_Z 5)]
            {| timeStep := of_Z 1; totalTime := of_Z 5 |} = Return r) as Hr
    by (vm_compute; reflexivity).
  destruct (euler_update 5 _ _ _ r Hr 0%nat node_A eq_refl) as (_ & _ & HA).
  destruct (euler_update 5 _ _ _ r Hr 1%nat node_B eq_refl) as (_ & HB & _).
  split.
  - rewrite (HA eq_refl 0%nat) by (vm_compute; lia). vm_compute. reflexivity.
  - apply (HB eq_refl 1%nat). vm_compute. lia.
Defined.

(** * Heat flow in exact arithmetic *)

#[global] Instance Qc_inhabited : Inhabited Qc := populate 0.

Definition Qsum (l : list Qc) : Qc := foldr Qcplus 0 l.

(** The heat that [edge] brings to node [i] per unit of time, at the
    temperatures [T]: it is counted once at each endpoint of the edge. *)
Definition edge_flow (nodeIndex : gmap string nat) (T : list Qc) (i : nat)
    (edge : SimulationEdge) : Qc :=
  match nodeIndex !! source edge, nodeIndex !! target edge with
  | Some s, Some t =>
      (if decide (s = i) then qval (conductance edge) * (T !!! t - T !!! i) else 0) +
      (if decide (t = i) then qval (conductance edge) * (T !!! s - T !!! i) else 0)
  | _, _ => 0
  end.

(** The net heat flow into node [i]: the sum over the edges. *)
Definition net_flow (nodeIndex : gmap string nat) (edges : list SimulationEdge)
    (T : list Qc) (i : nat) : Qc :=
  Qsum (edge_flow nodeIndex T i <$> edges).

Definition qnext (nodeIndex : gmap string nat) (edges : list SimulationEdge)
    (T : list Qc) (h : Qc) (i : nat) (node : SimulationNode) : Qc :=
  if isFixed node then qval (fixedTemp node)
  else T !!! i + net_flow nodeIndex edges T i / qval (heatCapacity node) * h.

Definition qstep (nodes : list SimulationNode) (edges : list SimulationEdge)
    (T : list Qc) (h : Qc) : list Qc :=
  imap (qnext (set_indices nodes 0 ∅) edges T h) nodes.

(** The temperatures after [k] turns, as rationals. *)
Fixpoint qtemps (nodes : list SimulationNode) (edges : list SimulationEdge)
    (settings : SimulationSettings) (k : nat) : list Qc :=
  match k with
  | O => qval <$> initial_temps nodes
  | S k' =>
      qstep nodes edges (qtemps nodes edges settings k') (qval (step_size settings k'))
  end.

Section sums.

Lemma Qsum_cons x l : Qsum (x :: l) = x + Qsum l.
Proof. reflexivity. Qed.

Lemma Qsum_nil : Qsum [] = 0.
Proof. reflexivity. Qed.

Lemma Qsum_app l k : Qsum (l ++ k) = Qsum l + Qsum k.
Proof.
  induction l as [|x l IH].
  - by rewrite app_nil_l, Qsum_nil, Qcplus_0_l.
  - rewrite <-app_comm_cons, !Qsum_cons, IH. ring.
Qed.

#[global] Instance Qsum_Permutation : Proper ((≡ₚ) ==> (=)) Qsum.
Proof.
  intros l k Hperm. induction Hperm as [|x l k _ IH|x y l|l k m _ IH1 _ IH2].
  - done.
  - by rewrite !Qsum_cons, IH.
  - rewrite !Qsum_cons. ring.
  - congruence.
Qed.

Lemma Qsum_fmap_plus {A} (f g : A → Qc) (l : list A) :
  Qsum ((λ x, f x + g x) <$> l) = Qsum (f <$> l) + Qsum (g <$> l).
Proof.
  induction l as [|x l IH].
  - by rewrite !fmap_nil, Qsum_nil, Qcplus_0_l.
  - rewrite !fmap_cons, !Qsum_cons, IH. ring.
Qed.

Lemma Qsum_fmap_mult {A} (f : A → Qc) (c : Qc) (l : list A) :
  Qsum ((λ x, f x * c) <$> l) = Qsum (f <$> l) * c.
Proof.
  induction l as [|x l IH].
  - by rewrite !fmap_nil, Qsum_nil, Qcmult_0_l.
  - rewrite !fmap_cons, !Qsum_cons, IH. ring.
Qed.

Lemma Qsum_zero {A} (f : A → Qc) (l : list A) :
  (∀ x, x ∈ l → f x = 0) → Qsum (f <$> l) = 0.
Proof.
  induction l as [|x l IH]; intros Hf; [done|].
  rewrite fmap_cons, Qsum_cons, Hf, IH by set_solver. ring.
Qed.

(** Sums over two lists may be taken in either order. *)
Lemma Qsum_swap {A B} (f : A → B → Qc) (l : list A) (k : list B) :
  Qsum ((λ x, Qsum (f x <$> k)) <$> l) = Qsum ((λ y, Qsum ((λ x, f x y) <$> l)) <$> k).
Proof.
  induction k as [|y k IH].
  - by apply Qsum_zero.
  - rewrite fmap_cons, Qsum_cons, <-IH, <-Qsum_fmap_plus. done.
Qed.

(** A sum over indices with a single non-zero term. *)
Lemma Qsum_single (f : nat → Qc) (s start count : nat) :
  Qsum ((λ i, if decide (s = i) then f i else 0) <$> seq start count) =
  if decide (start ≤ s < start + count)%nat then f s else 0.
Proof.
  revert start. induction count as [|count IH]; intros start.
  - by rewrite decide_False by lia.
  - cbn [seq]. rewrite fmap_cons, Qsum_cons, IH.
    destruct (decide (s = start)) as [->|Hne].
    + rewrite decide_False by lia. rewrite decide_True by lia. ring.
    + repeat case_decide; try lia; ring.
Qed.

(** The left-to-right sum of finite numbers is the sum of the rationals. *)
Lemma sum_numbers_Finite (qs : list Qc) :
  sum_numbers (Finite <$> qs) = Finite (Qsum qs).
Proof.
  unfold sum_numbers.
  assert (∀ acc, foldl nadd (Finite acc) (Finite <$> qs) = Finite (acc + Qsum qs))
    as Hacc.
  { induction qs as [|q qs IH]; intros acc.
    - simpl. by rewrite Qcplus_0_r.
    - rewrite fmap_cons, Qsum_cons. cbn [foldl nadd]. rewrite IH. f_equal. ring. }
  unfold zero. rewrite Hacc. f_equal. ring.
Qed.

End sums.

(** * The run in exact arithmetic *)

Section exact_run.

Context (nodes : list SimulationNode) (edges : list SimulationEdge)
        (settings : SimulationSettings).
Context (Hvalid : valid nodes edges settings).

Let nodeIndex := set_indices nodes 0 ∅.

Lemma valid_indexed : Forall (indexed nodeIndex (length nodes)) edges.
Proof.
  eapply Forall_impl; [apply (Hvalid P_endpoints)|]. apply endpoints_indexed.
Qed.

Lemma neighbors_of_ok i nb :
  nb ∈ neighbors_of nodeIndex edges i →
  (neighborIndex nb < length nodes)%nat ∧ finite (nb_conductance nb).
Proof.
  unfold neighbors_of. intros (edge & Hnb & Hedge)%list_elem_of_bind.
  pose proof valid_indexed as Hidx.
  rewrite Forall_forall in Hidx. destruct (Hidx edge Hedge) as (s & t & Hs & Ht & ? & ?).
  pose proof (Hvalid P_conductances) as Hg. simpl in Hg.
  rewrite Forall_forall in Hg. specialize (Hg edge Hedge).
  assert (finite (conductance edge)) as Hfin.
  { unfold conductance_ok in Hg. by destruct (conductance edge). }
  unfold edge_neighbors in Hnb. rewrite Hs, Ht in Hnb.
  apply elem_of_app in Hnb as [Hnb|Hnb]; case_decide;
    try (by apply elem_of_nil in Hnb);
    apply list_elem_of_singleton in Hnb as ->; done.
Qed.

Lemma lookup_total_Finite (Tq : list Qc) i :
  (i < length Tq)%nat → (Finite <$> Tq) !!! i = Finite (Tq !!! i).
Proof.
  intros Hi. apply list_lookup_total_correct.
  rewrite list_lookup_fmap. by rewrite (list_lookup_lookup_total_lt Tq i).
Qed.

(** The term of a neighbour in the net heat flow. *)
Let qterm (Tq : list Qc) (i : nat) (nb : Neighbor) : Qc :=
  qval (nb_conductance nb) * (Tq !!! neighborIndex nb - Tq !!! i).

Lemma Qsum_edge_neighbors (Tq : list Qc) i edge :
  Qsum (qterm Tq i <$> edge_neighbors nodeIndex i edge) = edge_flow nodeIndex Tq i edge.
Proof.
  unfold edge_neighbors, edge_flow, qterm.
  destruct (nodeIndex !! source edge) as [s|]; [|done].
  destruct (nodeIndex !! target edge) as [t|]; [|done].
  repeat case_decide; simpl; unfold Qsum; simpl; ring.
Qed.

Lemma Qsum_neighbors_of (Tq : list Qc) i :
  Qsum (qterm Tq i <$> neighbors_of nodeIndex edges i) = net_flow nodeIndex edges Tq i.
Proof.
  unfold net_flow. clear Hvalid. induction edges as [|edge rest IH]; [done|].
  rewrite neighbors_of_cons, fmap_app, Qsum_app, Qsum_edge_neighbors, IH. done.
Qed.

(** The sum computed by the loop is the net heat flow. *)
Lemma sum_neighbors_Finite (Tq : list Qc) i :
  length Tq = length nodes → (i < length nodes)%nat →
  sum_numbers
    ((λ nb, nb_conductance nb *
            ((Finite <$> Tq) !!! neighborIndex nb - (Finite <$> Tq) !!! i))%num
       <$> neighbors_of nodeIndex edges i)
  = Finite (net_flow nodeIndex edges Tq i).
Proof.
  intros Hlen Hi. rewrite <-Qsum_neighbors_of, <-sum_numbers_Finite.
  f_equal. rewrite <-list_fmap_compose. apply list_fmap_ext.
  intros j nb Hnb. apply list_elem_of_lookup_2 in Hnb.
  destruct (neighbors_of_ok i nb Hnb) as [Hj Hg].
  rewrite !lookup_total_Finite by lia. rewrite (finite_qval _ Hg). done.
Qed.

Lemma next_temp_Finite (Tq : list Qc) (h : Qc) i node :
  length Tq = length nodes → nodes !! i = Some node →
  next_temp (adjacency_of nodes edges) (Finite <$> Tq) (Finite h) i node =
  Finite (qnext nodeIndex edges Tq h i node).
Proof.
  intros Hlen Hnode.
  pose proof (Hvalid P_node_values) as Hok. simpl in Hok.
  rewrite Forall_forall in Hok.
  destruct (Hok node) as (HC & _ & HF); [by eapply list_elem_of_lookup_2|].
  assert (i < length nodes)%nat as Hi by (by eapply lookup_lt_Some).
  unfold next_temp, qnext. destruct (isFixed node).
  - by apply finite_qval, HF.
  - rewrite lookup_adjacency_of by done. rewrite netHeatFlow_sum.
    fold nodeIndex. rewrite sum_neighbors_Finite by done.
    rewrite lookup_total_Finite by lia.
    pose proof (positive_qval _ HC) as HC0.
    rewrite (finite_qval _ (positive_finite _ HC)). simpl.
    rewrite decide_False; [done|]. intros Heq. rewrite Heq in HC0.
    by apply Qclt_not_eq in HC0.
Qed.

Lemma length_qtemps k : length (qtemps nodes edges settings k) = length nodes.
Proof.
  destruct k; simpl.
  - unfold initial_temps. by rewrite !length_fmap.
  - apply length_imap.
Qed.

Lemma step_size_Finite k :
  step_size settings k = Finite (qval (step_size settings k)).
Proof.
  destruct (valid_settings nodes edges settings Hvalid) as (a & b & -> & Ha & Hab).
  by rewrite (step_size_closed a b Ha Hab).
Qed.

(** The temperatures of a run are finite, and are those of the exact run. *)
Lemma temps_at_Finite k :
  temps_at nodes (adjacency_of nodes edges) settings k =
  Finite <$> qtemps nodes edges settings k.
Proof.
  induction k as [|k IH].
  - simpl. rewrite <-list_fmap_compose. symmetry.
    etransitivity; [|apply list_fmap_id]. apply list_fmap_ext.
    intros i x Hx. simpl. symmetry. apply finite_qval.
    unfold initial_temps in Hx. rewrite list_lookup_fmap in Hx.
    destruct (nodes !! i) as [node|] eqn:Hnode; [|done]. injection Hx as <-.
    pose proof (Hvalid P_node_values) as Hok. simpl in Hok.
    rewrite Forall_forall in Hok.
    destruct (Hok node) as (_ & HT & HF); [by eapply list_elem_of_lookup_2|].
    destruct (isFixed node); [by apply HF|done].
  - cbn [temps_at qtemps]. rewrite IH, step_size_Finite.
    unfold euler_step, qstep. rewrite fmap_imap. apply imap_ext.
    intros i node Hnode. simpl. apply next_temp_Finite; [apply length_qtemps|done].
Qed.

End exact_run.

(** * Conservation of energy *)

(** The total thermal energy at sample [k]: the sum over the nodes of
    heat capacity times temperature. *)
Definition total_energy (nodes : list SimulationNode) (r : SimulationResult)
    (k : nat) : number :=
  sum_numbers (imap (λ i node, heatCapacity node * sample r i k)%num nodes).

(** The same, on rational temperatures. *)
Definition qenergy (nodes : list SimulationNode) (T : list Qc) : Qc :=
  Qsum (imap (λ i node, qval (heatCapacity node) * T !!! i) nodes).

Section conservation.

Lemma Qsum_imap_plus {A} (f g : nat → A → Qc) (l : list A) :
  Qsum (imap (λ i x, f i x + g i x) l) = Qsum (imap f l) + Qsum (imap g l).
Proof.
  revert f g. induction l as [|x l IH]; intros f g.
  - simpl. by rewrite Qcplus_0_l.
  - rewrite !imap_cons, !Qsum_cons.
    change ((λ i x0, f i x0 + g i x0) ∘ S) with (λ i x0, (f ∘ S) i x0 + (g ∘ S) i x0).
    rewrite IH. ring.
Qed.

Context (nodes : list SimulationNode) (edges : list SimulationEdge)
        (settings : SimulationSettings).
Context (Hvalid : valid nodes edges settings).

Let nodeIndex := set_indices nodes 0 ∅.

(** What an edge brings to one endpoint it takes from the other. *)
Lemma edge_flow_total (T : list Qc) edge :
  indexed nodeIndex (length nodes) edge →
  Qsum ((λ i, edge_flow nodeIndex T i edge) <$> seq 0 (length nodes)) = 0.
Proof.
  intros (s & t & Hs & Ht & Hsn & Htn). unfold edge_flow. rewrite Hs, Ht.
  rewrite Qsum_fmap_plus.
  rewrite (Qsum_single (λ i, qval (conductance edge) * (T !!! t - T !!! i)) s).
  rewrite (Qsum_single (λ i, qval (conductance edge) * (T !!! s - T !!! i)) t).
  rewrite !decide_True by lia. ring.
Qed.

Lemma net_flow_total (T : list Qc) :
  Qsum (net_flow nodeIndex edges T <$> seq 0 (length nodes)) = 0.
Proof.
  unfold net_flow.
  rewrite (Qsum_swap (λ i edge, edge_flow nodeIndex T i edge)).
  apply Qsum_zero. intros edge Hedge. apply edge_flow_total.
  pose proof (valid_indexed nodes edges settings Hvalid) as Hidx.
  rewrite Forall_forall in Hidx. by apply Hidx.
Qed.

Lemma qenergy_qstep (T : list Qc) (h : Qc) :
  Forall (λ node, isFixed node = false) nodes →
  qenergy nodes (qstep nodes edges T h) = qenergy nodes T.
Proof.
  intros Hfree. unfold qenergy.
  transitivity (Qsum (imap (λ i node, qval (heatCapacity node) * T !!! i +
                                      net_flow nodeIndex edges T i * h) nodes)).
  - f_equal. apply imap_ext. intros i node Hnode. simpl.
    assert (qstep nodes edges T h !!! i = qnext nodeIndex edges T h i node) as ->.
    { apply list_lookup_total_correct. unfold qstep.
      by rewrite list_lookup_imap, Hnode. }
    unfold qnext. rewrite Forall_forall in Hfree.
    rewrite Hfree by (by eapply list_elem_of_lookup_2).
    pose proof (Hvalid P_node_values) as Hok. simpl in Hok.
    rewrite Forall_forall in Hok.
    destruct (Hok node) as (HC & _ & _); [by eapply list_elem_of_lookup_2|].
    apply positive_qval in HC. field. intros Heq. rewrite Heq in HC.
    by apply Qclt_not_eq in HC.
  - rewrite Qsum_imap_plus.
    rewrite (imap_seq_0 nodes (λ i, net_flow nodeIndex edges T i * h)).
    rewrite (Qsum_fmap_mult (net_flow nodeIndex edges T) h), net_flow_total. ring.
Qed.

Lemma qenergy_qtemps k :
  Forall (λ node, isFixed node = false) nodes →
  qenergy nodes (qtemps nodes edges settings k) =
  qenergy nodes (qtemps nodes edges settings 0).
Proof.
  intros Hfree. induction k as [|k IH]; [done|].
  cbn [qtemps]. by rewrite qenergy_qstep.
Qed.

(** The energy of a sample of the result is the energy of the exact run. *)
Lemma total_energy_result_at N k :
  (k ≤ N)%nat →
  total_energy nodes (result_at nodes edges settings N) k =
  Finite (qenergy nodes (qtemps nodes edges settings k)).
Proof.
  intros Hk. unfold total_energy, qenergy. rewrite <-sum_numbers_Finite. f_equal.
  rewrite fmap_imap. apply imap_ext. intros i node Hnode. simpl.
  rewrite sample_result_at by done. rewrite temps_at_Finite by done.
  rewrite lookup_total_Finite; last first.
  { rewrite length_qtemps. by eapply lookup_lt_Some. }
  pose proof (Hvalid P_node_values) as Hok. simpl in Hok.
  rewrite Forall_forall in Hok.
  destruct (Hok node) as (HC & _ & _); [by eapply list_elem_of_lookup_2|].
  by rewrite (finite_qval _ (positive_finite _ HC)).
Qed.

End conservation.

(** Conservation in exact arithmetic.  On an accepted input in which no
    node is fixed, the total thermal energy, the sum over the nodes of heat capacity times
    temperature, is a finite number and is the same at every sample as at
    the first one (in exact arithmetic). *)
Theorem energy_conservation fuel nodes edges settings r :
  simulateThermalNetwork fuel nodes edges settings = Return r →
  Forall (λ node, isFixed node = false) nodes →
  ∀ k, (k < length (times r))%nat →
    finite (total_energy nodes r k) ∧
    total_energy nodes r k = total_energy nodes r 0.
Proof.
  intros [Hv ->]%Return_valid Hfree k Hk.
  cbn [times result_at] in Hk. rewrite length_times_at in Hk.
  rewrite !(total_energy_result_at nodes edges settings Hv) by lia.
  split; [done|]. f_equal. by apply qenergy_qtemps.
Qed.

(** A network without a fixed node: A and C, both free. *)
Definition node_C : SimulationNode :=
  {| node_id := "c"; node_name := "C"; initialTemp := of_Z 20;
     heatCapacity := of_Z 10; isFixed := false; fixedTemp := of_Z 0 |}.
Definition edge_AC (g : number) : SimulationEdge :=
  {| edge_id := "f"; source := "a"; target := "c"; conductance := g |}.

Lemma energy_conservation_witness :
  let r := result_at [node_A; node_C] [edge_AC (of_Z 5)]
             {| timeStep := of_Z 1; totalTime := of_Z 3 |} 3 in
  total_energy [node_A; node_C] r 3 = total_energy [node_A; node_C] r 0.
Proof.
  intros r.
  apply (energy_conservation 3 [node_A; node_C] [edge_AC (of_Z 5)]
           {| timeStep := of_Z 1; totalTime := of_Z 3 |} r).
  - vm_compute. reflexivity.
  - repeat constructor.
  - vm_compute. lia.
Defined.

(** * Networks with the same heat flows *)

Section same_flows.

Context (nodes : list SimulationNode) (edges edges' : list SimulationEdge)
        (settings : SimulationSettings).
Context (Hvalid : valid nodes edges settings) (Hvalid' : valid nodes edges' settings).
Context (Hflow : ∀ T i, net_flow (set_indices nodes 0 ∅) edges T i =
                        net_flow (set_indices nodes 0 ∅) edges' T i).

Lemma qtemps_ext k :
  qtemps nodes edges settings k = qtemps nodes edges' settings k.
Proof using Hflow.
  induction k as [|k IH]; [done|].
  cbn [qtemps]. rewrite IH. unfold qstep. apply imap_ext.
  intros i node _. unfold qnext. by rewrite Hflow.
Qed.

(** Two accepted edge lists that give every node the same net heat flow at
    all temperatures give the same outcome. *)
Lemma simulate_ext fuel :
  simulateThermalNetwork fuel nodes edges settings =
  simulateThermalNetwork fuel nodes edges' settings.
Proof using All.
  rewrite !simulate_valid by done. case_decide; [|done].
  f_equal. unfold result_at. f_equal. unfold series_at.
  apply imap_ext. intros i node _. cbv beta. f_equal.
  apply list_fmap_ext. intros _ k _.
  by rewrite !temps_at_Finite, qtemps_ext by done.
Qed.

End same_flows.

(** Validity does not look at the order of the edges, nor at more of an
    edge than its conductance and endpoints. *)
Lemma valid_edges nodes edges edges' settings :
  valid nodes edges settings →
  Forall conductance_ok edges' → Forall (endpoints_ok nodes) edges' →
  valid nodes edges' settings.
Proof.
  intros Hv Hg He p. pose proof (Hv p) as Hp. by destruct p.
Qed.

(** * Parallel edges *)

(** [e2] joins the same two node ids as [e1], in either direction. *)
Definition same_pair (e1 e2 : SimulationEdge) : Prop :=
  (source e2 = source e1 ∧ target e2 = target e1) ∨
  (source e2 = target e1 ∧ target e2 = source e1).

Lemma edge_flow_merge nodeIndex T i e1 e2 e12 :
  same_pair e1 e2 → source e12 = source e1 → target e12 = target e1 →
  qval (conductance e12) = qval (conductance e1) + qval (conductance e2) →
  edge_flow nodeIndex T i e12 =
  edge_flow nodeIndex T i e1 + edge_flow nodeIndex T i e2.
Proof.
  intros Hpair Hs Ht Hg. unfold edge_flow. rewrite Hs, Ht, Hg.
  destruct Hpair as [[-> ->]|[-> ->]];
    destruct (nodeIndex !! source e1) as [s|], (nodeIndex !! target e1) as [t|];
    try ring; repeat case_decide; ring.
Qed.

(** Parallel edges in exact arithmetic.  In an accepted network whose edges
    are, in any order, two edges [e1] and [e2] between the same pair of nodes and the
    edges [rest], replacing the two by one edge between that pair with the
    sum of their conductances gives an accepted network and the same
    outcome: the same times and the same series (in exact arithmetic). *)
Theorem parallel_edges fuel nodes edges edges' rest e1 e2 e12 settings :
  edges ≡ₚ e1 :: e2 :: rest → edges' ≡ₚ e12 :: rest →
  same_pair e1 e2 → source e12 = source e1 → target e12 = target e1 →
  conductance e12 = (conductance e1 + conductance e2)%num →
  valid nodes edges settings →
  valid nodes edges' settings ∧
  simulateThermalNetwork fuel nodes edges' settings =
  simulateThermalNetwork fuel nodes edges settings.
Proof.
  intros Hperm Hperm' Hpair Hs Ht Hg Hv.
  pose proof (Hv P_conductances) as Hcond. pose proof (Hv P_endpoints) as Hend.
  simpl in Hcond, Hend. rewrite Hperm in Hcond, Hend.
  apply Forall_cons in Hcond as [Hg1 [Hg2 Hgrest]%Forall_cons].
  apply Forall_cons in Hend as [He1 [He2 Herest]%Forall_cons].
  assert (qval (conductance e12) = qval (conductance e1) + qval (conductance e2)
          ∧ conductance_ok e12) as [Hq Hg12].
  { unfold conductance_ok in *. rewrite Hg.
    destruct (conductance e1) as [g1| | |], (conductance e2) as [g2| | |]; try done.
    simpl in *. split; [done|]. by apply Qcplus_nonneg_nonneg. }
  assert (valid nodes edges' settings) as Hv'.
  { apply (valid_edges nodes edges); [done| |]; rewrite Hperm'.
    - by constructor.
    - constructor; [|done]. unfold endpoints_ok in *. by rewrite Hs, Ht. }
  split; [done|]. apply simulate_ext; [done..|].
  intros T i. unfold net_flow. rewrite Hperm, Hperm'.
  rewrite !fmap_cons, !Qsum_cons.
  rewrite (edge_flow_merge _ T i e1 e2 e12) by done. ring.
Qed.

(** * Self-loops *)

Lemma edge_flow_loop nodeIndex T i loop :
  source loop = target loop → edge_flow nodeIndex T i loop = 0.
Proof.
  intros Hloop. unfold edge_flow. rewrite Hloop.
  destruct (nodeIndex !! target loop) as [s|]; [|done].
  case_decide; [subst|]; ring.
Qed.

(** C10 (self-loops).  An edge from a node of the network to itself with a
    finite conductance that is not negative is accepted by validation, and
    adding it anywhere in the edges of an accepted network leaves the
    outcome as it is: the same times and the same series. *)
Theorem self_loop fuel nodes edges1 edges2 loop settings :
  source loop = target loop → is_node_id nodes (source loop) →
  nonnegative (conductance loop) →
  valid nodes (edges1 ++ edges2) settings →
  valid nodes (edges1 ++ loop :: edges2) settings ∧
  simulateThermalNetwork fuel nodes (edges1 ++ loop :: edges2) settings =
  simulateThermalNetwork fuel nodes (edges1 ++ edges2) settings.
Proof.
  intros Hloop Hid Hg Hv.
  pose proof (Hv P_conductances) as Hcond. pose proof (Hv P_endpoints) as Hend.
  simpl in Hcond, Hend.
  apply Forall_app in Hcond as [Hc1 Hc2]. apply Forall_app in Hend as [He1 He2].
  assert (valid nodes (edges1 ++ loop :: edges2) settings) as Hv'.
  { apply (valid_edges nodes (edges1 ++ edges2)); [done| |].
    - apply Forall_app. split; [done|]. by constructor.
    - apply Forall_app. split; [done|]. constructor; [|done].
      split; [done|]. by rewrite <-Hloop. }
  split; [done|]. apply simulate_ext; [done..|].
  intros T i. unfold net_flow.
  rewrite !fmap_app, !Qsum_app, fmap_cons, Qsum_cons.
  rewrite edge_flow_loop by done. ring.
Qed.

Definition settings_1_5 : SimulationSettings :=
  {| timeStep := of_Z 1; totalTime := of_Z 5 |}.

Lemma parallel_edges_witness :
  simulateThermalNetwork 5 [node_A; node_B] [edge_AB (of_Z 2 + of_Z 3)%num] settings_1_5 =
  simulateThermalNetwork 5 [node_A; node_B] [edge_AB (of_Z 2); edge_AB (of_Z 3)]
    settings_1_5.
Proof.
  apply (parallel_edges 5 [node_A; node_B] [edge_AB (of_Z 2); edge_AB (of_Z 3)]
           [edge_AB (of_Z 2 + of_Z 3)%num] []
           (edge_AB (of_Z 2)) (edge_AB (of_Z 3)) (edge_AB (of_Z 2 + of_Z 3)%num)
           settings_1_5).
  - reflexivity.
  - reflexivity.
  - left. split; reflexivity.
  - reflexivity.
  - reflexivity.
  - reflexivity.
  - valid_by_computation.
Defined.

(** An edge from A to A. *)
Definition edge_AA (g : number) : SimulationEdge :=
  {| edge_id := "l"; source := "a"; target := "a"; conductance := g |}.

Lemma self_loop_witness :
  valid [node_A; node_B] [edge_AB (of_Z 5); edge_AA (of_Z 3)] settings_1_5 ∧
  simulateThermalNetwork 5 [node_A; node_B] [edge_AB (of_Z 5); edge_AA (of_Z 3)]
    settings_1_5 =
  simulateThermalNetwork 5 [node_A; node_B] [edge_AB (of_Z 5)] settings_1_5.
Proof.
  apply (self_loop 5 [node_A; node_B] [edge_AB (of_Z 5)] [] (edge_AA (of_Z 3))
           settings_1_5).
  - reflexivity.
  - unfold is_node_id. apply (bool_decide_unpack _). vm_compute. exact I.
  - apply (bool_decide_unpack _). vm_compute. exact I.
  - valid_by_computation.
Defined.

(** * What an error says *)

(** A place among the edges: a position or an edge id. *)
Definition locates (place : nat + string) (edges : list SimulationEdge)
    (edge : SimulationEdge) : Prop :=
  match place with
  | inl position => edges !! position = Some edge
  | inr key => edge ∈ edges ∧ edge_id edge = key
  end.

(** The error raised for the violated precondition [p] on edges tells the
    place of an edge at fault. *)
Definition error_locates_edge (p : precondition)
    (at_fault : list SimulationNode → SimulationEdge → Prop) : Prop :=
  ∃ place_of : exn → nat + string,
    ∀ fuel nodes edges settings e,
      (∀ q, (rank q < rank p)%nat → holds q nodes edges settings) →
      ¬ holds p nodes edges settings →
      simulateThermalNetwork fuel nodes edges settings = Throw e →
      ∃ edge, locates (place_of e) edges edge ∧ at_fault nodes edge.

(** Edges between A and B under the ids e1 and e2. *)
Definition edge_1 (g : number) : SimulationEdge :=
  {| edge_id := "e1"; source := "a"; target := "b"; conductance := g |}.
Definition edge_2 (g : number) : SimulationEdge :=
  {| edge_id := "e2"; source := "a"; target := "b"; conductance := g |}.
(** Edges from A to a node that does not exist. *)
Definition dangling_1 : SimulationEdge :=
  {| edge_id := "e1"; source := "a"; target := "z"; conductance := of_Z 5 |}.
Definition dangling_2 : SimulationEdge :=
  {| edge_id := "e2"; source := "a"; target := "z"; conductance := of_Z 5 |}.

Ltac earlier_by_computation :=
  let q := fresh "q" in let Hq := fresh "Hq" in
  intros q Hq; destruct q; simpl in Hq; try lia;
  apply (bool_decide_unpack _); vm_compute; exact I.

(** C8, as stated, fails for the edges: a negative conductance on the first
    of two edges and on the second raise the same error, and so do a
    dangling first edge and a dangling second edge; the error gives neither
    the position nor the id of the edge at fault. *)
Lemma edge_errors_counterexample :
  ¬ error_locates_edge P_conductances (λ _ edge, ¬ conductance_ok edge) ∧
  ¬ error_locates_edge P_endpoints (λ nodes edge, ¬ endpoints_ok nodes edge).
Proof.
  split.
  - intros [place_of Hplace].
    destruct (Hplace 0%nat [node_A; node_B] [edge_1 (of_Z (-1)); edge_2 (of_Z 5)]
                settings_1_5 (SimulationError msg_conductance))
      as (edge & Hloc & Hbad).
    { earlier_by_computation. }
    { intros H. apply (bool_decide_pack _) in H. vm_compute in H. exact H. }
    { vm_compute. reflexivity. }
    destruct (Hplace 0%nat [node_A; node_B] [edge_1 (of_Z 5); edge_2 (of_Z (-1))]
                settings_1_5 (SimulationError msg_conductance))
      as (edge' & Hloc' & Hbad').
    { earlier_by_computation. }
    { intros H. apply (bool_decide_pack _) in H. vm_compute in H. exact H. }
    { vm_compute. reflexivity. }
    assert (conductance_ok (edge_1 (of_Z 5)) ∧ conductance_ok (edge_2 (of_Z 5)))
      as [Hok1 Hok2] by (split; apply (bool_decide_unpack _); vm_compute; exact I).
    destruct (place_of (SimulationError msg_conductance)) as [position|key];
      simpl in Hloc, Hloc'.
    + destruct position as [|[|position]]; simpl in Hloc, Hloc'; try done.
      * injection Hloc' as <-. by apply Hbad'.
      * injection Hloc as <-. by apply Hbad.
    + destruct Hloc as [Hin Hkey], Hloc' as [Hin' Hkey'].
      apply elem_of_cons in Hin as [->|Hin].
      * apply elem_of_cons in Hin' as [->|Hin']; [by apply Hbad'|].
        apply list_elem_of_singleton in Hin' as ->. simpl in *. congruence.
      * apply list_elem_of_singleton in Hin as ->. by apply Hbad.
  - intros [place_of Hplace].
    destruct (Hplace 0%nat [node_A; node_B] [dangling_1; edge_2 (of_Z 5)]
                settings_1_5 (SimulationError msg_dangling))
      as (edge & Hloc & Hbad).
    { earlier_by_computation. }
    { intros H. apply (bool_decide_pack _) in H. vm_compute in H. exact H. }
    { vm_compute. reflexivity. }
    destruct (Hplace 0%nat [node_A; node_B] [edge_1 (of_Z 5); dangling_2]
                settings_1_5 (SimulationError msg_dangling))
      as (edge' & Hloc' & Hbad').
    { earlier_by_computation. }
    { intros H. apply (bool_decide_pack _) in H. vm_compute in H. exact H. }
    { vm_compute. reflexivity. }
    assert (endpoints_ok [node_A; node_B] (edge_1 (of_Z 5)) ∧
            endpoints_ok [node_A; node_B] (edge_2 (of_Z 5)))
      as [Hok1 Hok2] by (split; apply (bool_decide_unpack _); vm_compute; exact I).
    destruct (place_of (SimulationError msg_dangling)) as [position|key];
      simpl in Hloc, Hloc'.
    + destruct position as [|[|position]]; simpl in Hloc, Hloc'; try done.
      * injection Hloc' as <-. by apply Hbad'.
      * injection Hloc as <-. by apply Hbad.
    + destruct Hloc as [Hin Hkey], Hloc' as [Hin' Hkey'].
      apply elem_of_cons in Hin as [->|Hin].
      * apply elem_of_cons in Hin' as [->|Hin']; [by apply Hbad'|].
        apply list_elem_of_singleton in Hin' as ->. simpl in *. congruence.
      * apply list_elem_of_singleton in Hin as ->. by apply Hbad.
Qed.

(** C8 (what an error says), amended.  Every error of a call is a
    [SimulationError] for the first violated precondition [p], and its
    message tells the nature of the violation: a message of its own for each
    of no nodes, the time step, the total time and their order; for a node
    value, the name of the first offending node followed by the text for the
    first of its checks that fails (heat capacity, initial temperature, fixed
    temperature); for the edges, one message for a conductance and one for an
    endpoint, which say that some edge is at fault and not which. *)
Theorem error_report fuel nodes edges settings e :
  simulateThermalNetwork fuel nodes edges settings = Throw e →
  ∃ p, (∀ q, (rank q < rank p)%nat → holds q nodes edges settings) ∧
       ¬ holds p nodes edges settings ∧
       reports p nodes edges e.
Proof.
  intros He.
  destruct (outcome_cases fuel nodes edges settings)
    as [[Hv Hrun]|(p & e' & Hq & Hp & He' & Hrep)].
  - rewrite Hrun in He. by case_decide.
  - exists p. by replace e with e' by congruence.
Qed.

(** A node named A with a heat capacity of 0: the message starts with A. *)
Definition node_A_bad : SimulationNode :=
  {| node_id := "a"; node_name := "A"; initialTemp := of_Z 100;
     heatCapacity := of_Z 0; isFixed := false; fixedTemp := of_Z 0 |}.

Lemma error_report_witness :
  ∃ p, ¬ holds p [node_B; node_A_bad] [] settings_1_5 ∧
       reports p [node_B; node_A_bad] []
         (SimulationError ("A" +:+ " の熱容量は正の数で指定してください。")).
Proof.
  destruct (error_report 0 [node_B; node_A_bad] [] settings_1_5
              (SimulationError ("A" +:+ " の熱容量は正の数で指定してください。")))
    as (p & _ & Hp & Hrep).
  - vm_compute. reflexivity.
  - exists p. split; [exact Hp|exact Hrep].
Defined.

Lemma simulate_deterministic_witness :
  simulateThermalNetwork 5 [node_A; node_B] [edge_AB (of_Z 5)] settings_1_5 =
  simulateThermalNetwork 9 [node_A; node_B] [edge_AB (of_Z 5)] settings_1_5.
Proof.
  apply (simulate_deterministic 5 9 [node_A; node_B] [edge_AB (of_Z 5)] settings_1_5
           _ _ eq_refl eq_refl).
  - vm_compute. discriminate.
  - vm_compute. discriminate.
Defined.

(** * The parameter estimator

    [App.tsx] imports [estimateParameters] and its interfaces from
    [simulation.ts]; their text is not part of the sources at hand. *)

(** Modelled from the spec: the interface [MeasurementData] of section 3,
    for each node its id, the sample instants and one temperature per
    instant. *)
Record MeasurementData := {
  m_nodeId : string;
  m_times : list number;
  m_temperatures : list number;
}.

(** Modelled from the spec: the optimizer configuration of section 3,
    [maxIterations] and [tolerance], as [App.tsx] builds it at lines
    565-568. *)
Record OptimizationSettings := {
  maxIterations : nat;
  opt_tolerance : number;
}.

(** Modelled from the spec: [ParameterEstimationSettings], as [App.tsx]
    builds it at lines 960-963. *)
Record ParameterEstimationSettings := {
  measurementData : list MeasurementData;
  optimizationSettings : OptimizationSettings;
}.

(** Modelled from the spec: [convergenceInfo] of section 3. *)
Record ConvergenceInfo := {
  iterations : nat;
  converged : bool;
  finalError : number;
}.

(** Modelled from the spec: [ParameterEstimationResult] of section 3, the
    two maps from id to value and the convergence summary. *)
Record ParameterEstimationResult := {
  estimatedHeatCapacities : gmap string number;
  estimatedConductances : gmap string number;
  convergenceInfo : ConvergenceInfo;
}.

(** Modelled from the spec: the failures of the estimator in sections 4.2
    and 7, an error of the Solver surfaced unchanged and the fast failure on
    empty measurement data. *)
Inductive estimation_error : Type :=
  | SolverError (e : exn)
  | EmptyMeasurements.

Inductive estimation_outcome : Type :=
  | Estimated (r : ParameterEstimationResult)
  | Failed (e : estimation_error)
  | OutOfFuel.

(** Modelled from the spec: "same structural preconditions as the Solver
    apply to the supplied nodes/edges, validated identically up front", the
    checks of the Solver that look at the nodes and the edges, in its
    order. *)
Definition validate_network (nodes : list SimulationNode)
    (edges : list SimulationEdge) : outcome unit :=
  throw_if (bool_decide (length nodes = 0%nat)) msg_no_nodes;;
  forEach check_node nodes;;
  forEach check_conductance edges;;
  forEach (check_endpoints (set_indices nodes 0 ∅)) edges.

Section estimator.

(** The parts that section 4.2 leaves to the implementer: the time range
    implied by the measurements, the scalar error of a simulated trace
    against them, and the candidate that an iteration proposes. *)
Variable implied_settings : list MeasurementData → SimulationSettings.
Variable objective : list MeasurementData → SimulationResult → number.
Variable perturb :
  nat → list SimulationNode * list SimulationEdge →
  list SimulationNode * list SimulationEdge.

(** Modelled from the spec: the objective of a candidate, "run the Thermal
    Solver forward using settings's implied time range, then compute a
    scalar error". *)
Definition evaluate (fuel : nat) (data : list MeasurementData)
    (network : list SimulationNode * list SimulationEdge) : outcome number :=
  r ← simulateThermalNetwork fuel network.1 network.2 (implied_settings data);
  mret (objective data r).

(** Modelled from the spec: the report, the parameters of the network found
    with the convergence summary. *)
Definition report (network : list SimulationNode * list SimulationEdge)
    (evaluations : nat) (done : bool) (error : number)
    : ParameterEstimationResult :=
  {| estimatedHeatCapacities :=
       list_to_map ((λ node, (node_id node, heatCapacity node)) <$> network.1);
     estimatedConductances :=
       list_to_map ((λ edge, (edge_id edge, conductance edge)) <$> network.2);
     convergenceInfo :=
       {| iterations := evaluations; converged := done; finalError := error |} |}.

(** Modelled from the spec: the search procedure of section 4.2, bounded by
    [maxIterations]; an iteration perturbs the current parameters and
    evaluates the candidate by a fresh simulation, a candidate on which the
    Solver fails is rejected, one that does not increase the error is
    accepted; the run is converged the first time the error is at most the
    tolerance. *)
Fixpoint search (fuel : nat) (data : list MeasurementData) (tol_opt : number)
    (remaining iteration evaluations : nat)
    (current : list SimulationNode * list SimulationEdge) (error : number)
    : estimation_outcome :=
  match remaining with
  | O => Estimated (report current evaluations (nle error tol_opt) error)
  | S remaining' =>
      if nle error tol_opt then Estimated (report current evaluations true error)
      else
        let candidate := perturb iteration current in
        match evaluate fuel data candidate with
        | Return error' =>
            if nle error' error
            then search fuel data tol_opt remaining' (S iteration) (S evaluations)
                   candidate error'
            else search fuel data tol_opt remaining' (S iteration) (S evaluations)
                   current error
        | Throw _ =>
            search fuel data tol_opt remaining' (S iteration) (S evaluations)
              current error
        | Timeout => OutOfFuel
        end
  end.

(** Modelled from the spec: [estimate(nodes, edges, settings)] of section
    4.2: the network is validated up front, empty measurement data fail
    fast, an error of the initial forward simulation is surfaced unchanged,
    and the search runs from the parameters supplied. *)
Definition estimateParameters (fuel : nat) (nodes : list SimulationNode)
    (edges : list SimulationEdge) (settings : ParameterEstimationSettings)
    : estimation_outcome :=
  match validate_network nodes edges with
  | Throw e => Failed (SolverError e)
  | Timeout => OutOfFuel
  | Return _ =>
      match measurementData settings with
      | [] => Failed EmptyMeasurements
      | data =>
          match evaluate fuel data (nodes, edges) with
          | Throw e => Failed (SolverError e)
          | Timeout => OutOfFuel
          | Return error =>
              search fuel data (opt_tolerance (optimizationSettings settings))
                (maxIterations (optimizationSettings settings)) 0 1
                (nodes, edges) error
          end
      end
  end.








End estimator.

(** Modelled from the spec: the span of "the span and resolution of the
    combined measurement data", from the first instant measured to the
    last. *)
Definition span (data : list MeasurementData) : number :=
  let instants := data ≫= m_times in
  (default zero (last instants) - default zero (head instants))%num.

(** A time range that the measurements imply: their span, at a resolution
    of 1. *)
Definition span_settings (data : list MeasurementData) : SimulationSettings :=
  {| timeStep := of_Z 1; totalTime := span data |}.

(** The square of the difference between the last temperature simulated for
    the first node and the last one measured for it. *)
Definition final_error (data : list MeasurementData) (r : SimulationResult)
    : number :=
  match data with
  | [] => zero
  | m :: _ =>
      let simulated := default NaN (series r !! 0%nat ≫= λ s, last (temperatures s)) in
      let measured := default NaN (last (m_temperatures m)) in
      ((simulated - measured) * (simulated - measured))%num
  end.

(** A perturbation: one more unit of conductance on every edge. *)
Definition more_conductance (iteration : nat)
    (network : list SimulationNode * list SimulationEdge)
    : list SimulationNode * list SimulationEdge :=
  (network.1,
   (λ edge, {| edge_id := edge_id edge; source := source edge;
               target := target edge;
               conductance := (conductance edge + of_Z 1)%num |}) <$> network.2).

Definition optimization_50 : OptimizationSettings :=
  {| maxIterations := 50; opt_tolerance := of_Q (1 # 100) |}.


(** Node A measured every second for 5 seconds, as an edge of conductance 7
    to node B makes it cool. *)
Definition measured_cooling : list MeasurementData :=
  [{| m_nodeId := "a";
      m_times := [of_Z 0; of_Z 1; of_Z 2; of_Z 3; of_Z 4; of_Z 5];
      m_temperatures :=
        [of_Z 100; of_Q (888 # 10); of_Q (79168 # 1000); of_Q (7088448 # 100000);
         of_Q (637606528 # 10000000); of_Q (57634161408 # 1000000000)] |}].




(** On the measurements of the cooling the search makes two steps, from a
    conductance of 5 to one of 7, where the error is 0. *)
Lemma estimate_search_example :
  ∃ r, estimateParameters span_settings final_error more_conductance 5
         [node_A; node_B] [edge_AB (of_Z 5)]
         {| measurementData := measured_cooling;
            optimizationSettings := optimization_50 |}
       = Estimated r ∧
       iterations (convergenceInfo r) = 3%nat ∧
       converged (convergenceInfo r) = true ∧
       finalError (convergenceInfo r) = zero ∧
       estimatedConductances r !! "e" = Some (of_Z 7).
Proof.
  eexists. split; [vm_compute; reflexivity|].
  split; [reflexivity|]. split; [reflexivity|].
  split; [apply number_eqb_eq; vm_compute; reflexivity|].
  vm_compute. reflexivity.
Qed.

(** * Further properties of [simulateThermalNetwork] *)

Section more_validation.

Lemma node_error_unique node e e' : node_error node e → node_error node e' → e = e'.
Proof.
  unfold node_error. intros H H'.
  destruct H as [[? ->]|[(? & ? & ->)|(? & ? & ? & ? & ->)]],
           H' as [[? ->]|[(? & ? & ->)|(? & ? & ? & ? & ->)]]; done.
Qed.

(** The first element that fails a property is determined. *)
Lemma first_failure_unique {A} (P : A → Prop) (b1 b2 a1 a2 : list A) (x1 x2 : A) :
  b1 ++ x1 :: a1 = b2 ++ x2 :: a2 →
  Forall P b1 → ¬ P x1 → Forall P b2 → ¬ P x2 → x1 = x2.
Proof.
  revert b2. induction b1 as [|y b1 IH]; intros [|z b2] Heq Hb1 Hx1 Hb2 Hx2;
    simpl in Heq.
  - congruence.
  - injection Heq as -> _. apply Forall_cons in Hb2 as [? _]. done.
  - injection Heq as -> _. apply Forall_cons in Hb1 as [? _]. done.
  - injection Heq as -> Heq. apply Forall_cons in Hb1 as [_ ?], Hb2 as [_ ?].
    by eapply IH.
Qed.

(** The error of a violated precondition does not depend on the edges. *)
Lemma reports_unique p nodes edges edges' e e' :
  reports p nodes edges e → reports p nodes edges' e' → e = e'.
Proof.
  destruct p; simpl; try congruence.
  - intros (b1 & n1 & a1 & Heq1 & Hb1 & Hn1 & He1) (b2 & n2 & a2 & Heq2 & Hb2 & Hn2 & He2).
    assert (n1 = n2) as <-.
    { eapply (first_failure_unique node_ok b1 b2 a1 a2); [congruence|done..]. }
    by eapply node_error_unique.
  - intros [-> _] [-> _]. done.
  - intros [-> _] [-> _]. done.
Qed.

(** Two edge lists that pass the same checks and give every node the same
    net heat flow give the same outcome, result or error. *)
Lemma simulate_congr fuel nodes edges edges' settings :
  (Forall conductance_ok edges ↔ Forall conductance_ok edges') →
  (Forall (endpoints_ok nodes) edges ↔ Forall (endpoints_ok nodes) edges') →
  (∀ T i, net_flow (set_indices nodes 0 ∅) edges T i =
          net_flow (set_indices nodes 0 ∅) edges' T i) →
  simulateThermalNetwork fuel nodes edges settings =
  simulateThermalNetwork fuel nodes edges' settings.
Proof.
  intros Hcond Hend Hflow.
  assert (∀ p, holds p nodes edges settings ↔ holds p nodes edges' settings) as Hholds.
  { intros p. by destruct p. }
  destruct (outcome_cases fuel nodes edges settings)
    as [[Hv Hrun]|(p & e & Hq & Hp & He & Hrep)].
  - apply simulate_ext; [done| |done]. intros p. by apply Hholds.
  - destruct (first_violation_reported fuel nodes edges' settings p)
      as (e' & He' & Hrep').
    { intros q Hlt. by apply Hholds, Hq. }
    { by rewrite <-Hholds. }
    rewrite He, He'. f_equal. by eapply reports_unique.
Qed.

End more_validation.

(** Every error of a call is a [SimulationError]: the accesses
    [adjacency[nodeIndex.get(..)!]] of lines 90-94 never meet [undefined],
    since the endpoints have been checked against the same map. *)
Theorem no_TypeError fuel nodes edges settings :
  simulateThermalNetwork fuel nodes edges settings ≠ Throw TypeError.
Proof.
  intros H.
  destruct (outcome_cases fuel nodes edges settings)
    as [[Hv Hrun]|(p & e & _ & _ & He & Hrep)].
  - rewrite Hrun in H. by case_decide.
  - rewrite He in H. injection H as ->.
    destruct p; simpl in Hrep; try done.
    + destruct Hrep as (_ & node & _ & _ & _ & _ & Herr).
      by destruct Herr as [[_ [=]]|[(_ & _ & [=])|(_ & _ & _ & _ & [=])]].
    + by destruct Hrep.
    + by destruct Hrep.
Qed.

(** The outcome of a call, result or error, does not depend on the order of
    the edges (in exact arithmetic). *)
Theorem edge_order_irrelevant fuel nodes edges edges' settings :
  edges ≡ₚ edges' →
  simulateThermalNetwork fuel nodes edges settings =
  simulateThermalNetwork fuel nodes edges' settings.
Proof.
  intros Hperm. apply simulate_congr.
  - by rewrite Hperm.
  - by rewrite Hperm.
  - intros T i. unfold net_flow. by rewrite Hperm.
Qed.

Lemma edge_order_irrelevant_witness :
  simulateThermalNetwork 5 [node_A; node_B] [edge_AB (of_Z 2); edge_AA (of_Z 3)]
    settings_1_5 =
  simulateThermalNetwork 5 [node_A; node_B] [edge_AA (of_Z 3); edge_AB (of_Z 2)]
    settings_1_5.
Proof.
  apply (edge_order_irrelevant 5 [node_A; node_B]
           [edge_AB (of_Z 2); edge_AA (of_Z 3)] [edge_AA (of_Z 3); edge_AB (of_Z 2)]).
  apply perm_swap.
Defined.

(** The edge with its endpoints exchanged. *)
Definition reverse_edge (edge : SimulationEdge) : SimulationEdge :=
  {| edge_id := edge_id edge; source := target edge; target := source edge;
     conductance := conductance edge |}.

Lemma edge_flow_reverse nodeIndex T i edge :
  edge_flow nodeIndex T i (reverse_edge edge) = edge_flow nodeIndex T i edge.
Proof.
  unfold edge_flow, reverse_edge. simpl.
  destruct (nodeIndex !! source edge) as [s|], (nodeIndex !! target edge) as [t|];
    try done.
  apply Qcplus_comm.
Qed.

(** Edges are undirected: exchanging the source and the target of an edge
    leaves the outcome of a call as it is (in exact arithmetic). *)
Theorem edge_direction_irrelevant fuel nodes edges1 edge edges2 settings :
  simulateThermalNetwork fuel nodes (edges1 ++ reverse_edge edge :: edges2) settings =
  simulateThermalNetwork fuel nodes (edges1 ++ edge :: edges2) settings.
Proof.
  apply simulate_congr.
  - rewrite !Forall_app, !Forall_cons. done.
  - rewrite !Forall_app, !Forall_cons. unfold endpoints_ok at 2 5. simpl. tauto.
  - intros T i. unfold net_flow.
    by rewrite !fmap_app, !fmap_cons, edge_flow_reverse.
Qed.

(** * Nodes that exchange no heat *)

Section still_nodes.

(** The map keeps, for an id, the index of the last node with that id. *)
Lemma set_indices_last nodes start (m : gmap string nat) key i :
  set_indices nodes start m !! key = Some i →
  ∀ j node, (i < start + j)%nat → nodes !! j = Some node → node_id node ≠ key.
Proof.
  revert start m. induction nodes as [|first rest IH]; intros start m Hi j node Hj Hnode;
    [done|].
  simpl in Hi. destruct j as [|j]; simpl in Hnode.
  - injection Hnode as ->. intros Hkey.
    apply set_indices_Some in Hi as [Hi|(j' & node' & -> & _)]; [|lia].
    rewrite Hkey, lookup_insert_eq in Hi. injection Hi as <-. lia.
  - apply (IH _ _ Hi j node); [lia|done].
Qed.

Lemma nodeIndex_Some nodes key i :
  set_indices nodes 0 ∅ !! key = Some i →
  ∃ node, nodes !! i = Some node ∧ node_id node = key ∧
          ∀ j later, (i < j)%nat → nodes !! j = Some later → node_id later ≠ key.
Proof.
  intros Hi.
  pose proof (set_indices_last _ _ _ _ _ Hi) as Hlast.
  apply set_indices_Some in Hi as [Hi|(j & node & -> & Hnode & Hid)]; [done|].
  exists node. split; [done|]. split; [done|].
  intros j' later Hlt. by apply Hlast.
Qed.

Context (nodes : list SimulationNode) (edges : list SimulationEdge)
        (settings : SimulationSettings).
Context (Hvalid : valid nodes edges settings).

Let nodeIndex := set_indices nodes 0 ∅.

Lemma sample_Finite N i k :
  (k ≤ N)%nat → (i < length nodes)%nat →
  sample (result_at nodes edges settings N) i k =
  Finite (qtemps nodes edges settings k !!! i).
Proof.
  intros Hk Hi. rewrite sample_result_at by done.
  rewrite temps_at_Finite by done. apply lookup_total_Finite.
  by rewrite length_qtemps.
Qed.

Lemma lookup_total_qstep T h i node :
  nodes !! i = Some node →
  qstep nodes edges T h !!! i = qnext nodeIndex edges T h i node.
Proof.
  intros Hnode. apply list_lookup_total_correct. unfold qstep.
  by rewrite list_lookup_imap, Hnode.
Qed.

Lemma lookup_total_qtemps_0 i node :
  nodes !! i = Some node →
  qtemps nodes edges settings 0 !!! i =
  qval (if isFixed node then fixedTemp node else initialTemp node).
Proof.
  intros Hnode. apply list_lookup_total_correct. simpl. unfold initial_temps.
  by rewrite !list_lookup_fmap, Hnode.
Qed.

(** A free node with no net heat flow at any temperatures keeps its initial
    temperature. *)
Lemma qtemps_still i node :
  nodes !! i = Some node → isFixed node = false →
  (∀ T, net_flow nodeIndex edges T i = 0) →
  ∀ k, qtemps nodes edges settings k !!! i = qval (initialTemp node).
Proof.
  intros Hnode Hfree Hflow k. induction k as [|k IH].
  - rewrite (lookup_total_qtemps_0 i node) by done. by rewrite Hfree.
  - cbn [qtemps]. rewrite (lookup_total_qstep _ _ i node) by done.
    unfold qnext. rewrite Hfree, Hflow, IH. unfold Qcdiv. ring.
Qed.

End still_nodes.

(** Zero-conductance isolation, in exact arithmetic.  On an accepted input,
    a free node all of whose edges (those with its id as source or target)
    have conductance 0, and so also a node without edges, has its initial
    temperature at every sample. *)
Theorem zero_conductance_isolation fuel nodes edges settings r i node :
  simulateThermalNetwork fuel nodes edges settings = Return r →
  nodes !! i = Some node → isFixed node = false →
  (∀ edge, edge ∈ edges →
     source edge = node_id node ∨ target edge = node_id node →
     conductance edge = zero) →
  ∀ k, (k < length (times r))%nat → sample r i k = initialTemp node.
Proof.
  intros [Hv ->]%Return_valid Hnode Hfree Hzero k Hk.
  cbn [times result_at] in Hk. rewrite length_times_at in Hk.
  rewrite (sample_Finite _ _ _ Hv) by (lia || by eapply lookup_lt_Some).
  rewrite (qtemps_still nodes edges settings i node); [| done..|].
  - pose proof (Hv P_node_values) as Hok. simpl in Hok. rewrite Forall_forall in Hok.
    destruct (Hok node) as (_ & HT & _); [by eapply list_elem_of_lookup_2|].
    symmetry. by apply finite_qval.
  - intros T. unfold net_flow. apply Qsum_zero. intros edge Hedge.
    unfold edge_flow.
    destruct (set_indices nodes 0 ∅ !! source edge) as [s|] eqn:Hs; [|done].
    destruct (set_indices nodes 0 ∅ !! target edge) as [t|] eqn:Ht; [|done].
    assert (s = i → conductance edge = zero) as Hsi.
    { intros ->. apply Hzero; [done|]. left.
      apply nodeIndex_Some in Hs as (node' & Hnode' & Hid & _). congruence. }
    assert (t = i → conductance edge = zero) as Hti.
    { intros ->. apply Hzero; [done|]. right.
      apply nodeIndex_Some in Ht as (node' & Hnode' & Hid & _). congruence. }
    repeat case_decide; rewrite ?Hsi, ?Hti by done; simpl; ring.
Qed.

Lemma zero_conductance_isolation_witness :
  sample (result_at [node_A; node_B] [edge_AB zero] settings_1_5 5) 0 5
  = initialTemp node_A.
Proof.
  apply (zero_conductance_isolation 5 [node_A; node_B] [edge_AB zero] settings_1_5
           (result_at [node_A; node_B] [edge_AB zero] settings_1_5 5) 0 node_A).
  - vm_compute. reflexivity.
  - reflexivity.
  - reflexivity.
  - intros edge Hedge _. apply list_elem_of_singleton in Hedge as ->. reflexivity.
  - vm_compute. lia.
Defined.

(** Duplicate ids.  When a later node has the same id as a free node [i],
    node [i] has its initial temperature at every sample of a result:
    [nodeIndex.set] overwrites, so no edge is attached to node [i]. *)
Theorem shadowed_node_still fuel nodes edges settings r i j node later :
  simulateThermalNetwork fuel nodes edges settings = Return r →
  nodes !! i = Some node → isFixed node = false →
  (i < j)%nat → nodes !! j = Some later → node_id later = node_id node →
  ∀ k, (k < length (times r))%nat → sample r i k = initialTemp node.
Proof.
  intros [Hv ->]%Return_valid Hnode Hfree Hij Hlater Hid k Hk.
  cbn [times result_at] in Hk. rewrite length_times_at in Hk.
  rewrite (sample_Finite _ _ _ Hv) by (lia || by eapply lookup_lt_Some).
  rewrite (qtemps_still nodes edges settings i node); [| done..|].
  - pose proof (Hv P_node_values) as Hok. simpl in Hok. rewrite Forall_forall in Hok.
    destruct (Hok node) as (_ & HT & _); [by eapply list_elem_of_lookup_2|].
    symmetry. by apply finite_qval.
  - assert (∀ key, set_indices nodes 0 ∅ !! key ≠ Some i) as Hnot.
    { intros key (node' & Hnode' & Hkey & Hlast)%nodeIndex_Some.
      apply (Hlast j later Hij Hlater). congruence. }
    intros T. unfold net_flow. apply Qsum_zero. intros edge Hedge.
    unfold edge_flow.
    destruct (set_indices nodes 0 ∅ !! source edge) as [s|] eqn:Hs; [|done].
    destruct (set_indices nodes 0 ∅ !! target edge) as [t|] eqn:Ht; [|done].
    rewrite !decide_False; [ring| |]; intros ->; by eapply Hnot.
Qed.

(** Two nodes under the id a, with an edge from a to b. *)
Definition node_A2 : SimulationNode :=
  {| node_id := "a"; node_name := "A2"; initialTemp := of_Z 50;
     heatCapacity := of_Z 10; isFixed := false; fixedTemp := of_Z 0 |}.

Lemma shadowed_node_still_witness :
  sample (result_at [node_A; node_A2; node_B] [edge_AB (of_Z 5)] settings_1_5 5) 0 5
  = initialTemp node_A.
Proof.
  apply (shadowed_node_still 5 [node_A; node_A2; node_B] [edge_AB (of_Z 5)]
           settings_1_5
           (result_at [node_A; node_A2; node_B] [edge_AB (of_Z 5)] settings_1_5 5)
           0 1 node_A node_A2).
  - vm_compute. reflexivity.
  - reflexivity.
  - reflexivity.
  - lia.
  - reflexivity.
  - reflexivity.
  - vm_compute. lia.
Defined.

(** * Bounds on the temperatures *)

(** The sum of the conductances in the adjacency list of node [i]. *)
Definition attached_conductance (nodes : list SimulationNode)
    (edges : list SimulationEdge) (i : nat) : Qc :=
  Qsum ((λ nb, qval (nb_conductance nb)) <$> neighbors_of (set_indices nodes 0 ∅) edges i).

(** The step is small enough for every free node: timeStep times the
    conductance attached to the node is at most its heat capacity. *)
Definition stable (nodes : list SimulationNode) (edges : list SimulationEdge)
    (settings : SimulationSettings) : Prop :=
  ∀ i node, nodes !! i = Some node → isFixed node = false →
    qval (timeStep settings) * attached_conductance nodes edges i
    ≤ qval (heatCapacity node).

(** A finite number between [lo] and [hi]. *)
Definition within (lo hi : Qc) (x : number) : Prop :=
  match x with Finite q => lo ≤ q ∧ q ≤ hi | _ => False end.

Section bounds.

Lemma Qsum_le {A} (f g : A → Qc) (l : list A) :
  (∀ x, x ∈ l → f x ≤ g x) → Qsum (f <$> l) ≤ Qsum (g <$> l).
Proof.
  induction l as [|x l IH]; intros Hfg.
  - apply Qcle_refl.
  - rewrite !fmap_cons, !Qsum_cons. apply Qcplus_le_compat.
    + apply Hfg. by left.
    + apply IH. intros y Hy. apply Hfg. by right.
Qed.

(** One Euler step of a node stays between the bounds of the temperatures
    when the step is small enough. *)
Lemma euler_bound (t F G C h a lo hi : Qc) :
  0 < C → 0 ≤ h → h ≤ a → 0 ≤ G → a * G ≤ C → lo ≤ t → t ≤ hi →
  G * (lo - t) ≤ F → F ≤ G * (hi - t) →
  lo ≤ t + F / C * h ∧ t + F / C * h ≤ hi.
Proof.
  intros HC Hh Hha HG Hstable Hlo Hhi HFlo HFhi.
  assert (h * G ≤ a * G) as HhG by (by apply Qcmult_le_compat_r).
  assert (F / C * h * C = F * h) as HX.
  { field. intros ->. by apply Qclt_not_eq in HC. }
  remember (F / C * h) as X eqn:EX. clear EX.
  assert (F * h ≤ G * (hi - t) * h) as H1 by (by apply Qcmult_le_compat_r).
  assert (G * (lo - t) * h ≤ F * h) as H2 by (by apply Qcmult_le_compat_r).
  assert (h * G * (hi - t) ≤ C * (hi - t)) as H3.
  { apply Qcmult_le_compat_r; [by etransitivity|]. clear -Hhi. qc_lra. }
  assert (h * G * (t - lo) ≤ C * (t - lo)) as H4.
  { apply Qcmult_le_compat_r; [by etransitivity|]. clear -Hlo. qc_lra. }
  assert ((lo - t) * C ≤ X * C) as H5.
  { clear -HX H2 H4. qc_lra. }
  assert (X * C ≤ (hi - t) * C) as H6.
  { clear -HX H1 H3. qc_lra. }
  apply Qcmult_lt_0_le_reg_r in H5, H6; [|done..].
  clear -H5 H6. split; qc_lra.
Qed.

Context (nodes : list SimulationNode) (edges : list SimulationEdge)
        (settings : SimulationSettings).
Context (Hvalid : valid nodes edges settings).

Let nodeIndex := set_indices nodes 0 ∅.

Lemma initial_within lo hi i node :
  Forall (within lo hi) (initial_temps nodes) → nodes !! i = Some node →
  lo ≤ qval (if isFixed node then fixedTemp node else initialTemp node) ∧
  qval (if isFixed node then fixedTemp node else initialTemp node) ≤ hi.
Proof.
  intros Hinit Hnode. rewrite Forall_forall in Hinit.
  assert ((if isFixed node then fixedTemp node else initialTemp node)
          ∈ initial_temps nodes) as Hin.
  { apply list_elem_of_lookup. exists i. unfold initial_temps.
    by rewrite list_lookup_fmap, Hnode. }
  apply Hinit in Hin. unfold within in Hin.
  by destruct (if isFixed node then fixedTemp node else initialTemp node).
Qed.

Lemma neighbor_nonneg i nb :
  nb ∈ neighbors_of nodeIndex edges i → 0 ≤ qval (nb_conductance nb).
Proof.
  unfold neighbors_of. intros (edge & Hnb & Hedge)%list_elem_of_bind.
  pose proof (Hvalid P_conductances) as Hg. simpl in Hg.
  rewrite Forall_forall in Hg. specialize (Hg edge Hedge).
  assert (0 ≤ qval (conductance edge)) as Hq.
  { unfold conductance_ok in Hg. by destruct (conductance edge). }
  unfold edge_neighbors in Hnb.
  destruct (nodeIndex !! source edge) as [s|]; [|by apply elem_of_nil in Hnb].
  destruct (nodeIndex !! target edge) as [t|]; [|by apply elem_of_nil in Hnb].
  apply elem_of_app in Hnb as [Hnb|Hnb]; case_decide;
    try (by apply elem_of_nil in Hnb);
    apply list_elem_of_singleton in Hnb as ->; done.
Qed.

Lemma step_size_bounds k :
  0 ≤ qval (step_size settings k) ∧
  qval (step_size settings k) ≤ qval (timeStep settings).
Proof.
  destruct (valid_settings nodes edges settings Hvalid) as (a & b & -> & Ha & Hab).
  rewrite (step_size_closed a b Ha Hab). simpl.
  pose proof (qelapsed_le a b k) as Hle.
  case_decide; split; qc_lra.
Qed.

Lemma qstep_within (T : list Qc) (h lo hi : Qc) :
  stable nodes edges settings →
  length T = length nodes →
  0 ≤ h → h ≤ qval (timeStep settings) →
  Forall (within lo hi) (initial_temps nodes) →
  (∀ j, (j < length nodes)%nat → lo ≤ T !!! j ∧ T !!! j ≤ hi) →
  ∀ i, (i < length nodes)%nat →
    lo ≤ qstep nodes edges T h !!! i ∧ qstep nodes edges T h !!! i ≤ hi.
Proof.
  intros Hstable HT Hh Hha Hinit HTb i Hi.
  destruct (lookup_lt_is_Some_2 nodes i Hi) as [node Hnode].
  rewrite (lookup_total_qstep _ _ _ _ _ node) by done.
  unfold qnext. destruct (isFixed node) eqn:Hfix.
  - pose proof (initial_within lo hi i node Hinit Hnode) as Hb.
    by rewrite Hfix in Hb.
  - pose proof (Hvalid P_node_values) as Hok. simpl in Hok. rewrite Forall_forall in Hok.
    destruct (Hok node) as (HC & _ & _); [by eapply list_elem_of_lookup_2|].
    apply positive_qval in HC.
    destruct (HTb i Hi) as [Hlo Hhi].
    rewrite <-(Qsum_neighbors_of nodes edges T i).
    apply (euler_bound _ _ (attached_conductance nodes edges i) _ _
             (qval (timeStep settings))); try done.
    + unfold attached_conductance.
      replace 0 with
        (Qsum ((λ _ : Neighbor, 0) <$> neighbors_of (set_indices nodes 0 ∅) edges i)).
      * apply Qsum_le. intros nb Hnb. by apply (neighbor_nonneg i).
      * by apply Qsum_zero.
    + by apply Hstable.
    + unfold attached_conductance. rewrite <-Qsum_fmap_mult.
      apply Qsum_le. intros nb Hnb. cbv beta.
      destruct (neighbors_of_ok nodes edges settings Hvalid i nb Hnb) as [Hj _].
      destruct (HTb _ Hj) as [Hlo' _].
      apply Qcmult_le_mono_nonneg_l; [by apply (neighbor_nonneg i)|].
      clear -Hlo'. qc_lra.
    + unfold attached_conductance. rewrite <-Qsum_fmap_mult.
      apply Qsum_le. intros nb Hnb. cbv beta.
      destruct (neighbors_of_ok nodes edges settings Hvalid i nb Hnb) as [Hj _].
      destruct (HTb _ Hj) as [_ Hhi'].
      apply Qcmult_le_mono_nonneg_l; [by apply (neighbor_nonneg i)|].
      clear -Hhi'. qc_lra.
Qed.

Lemma qtemps_within lo hi :
  stable nodes edges settings →
  Forall (within lo hi) (initial_temps nodes) →
  ∀ k i, (i < length nodes)%nat →
    lo ≤ qtemps nodes edges settings k !!! i ∧ qtemps nodes edges settings k !!! i ≤ hi.
Proof.
  intros Hstable Hinit k. induction k as [|k IH]; intros i Hi.
  - destruct (lookup_lt_is_Some_2 nodes i Hi) as [node Hnode].
    rewrite (lookup_total_qtemps_0 _ _ _ _ node) by done.
    by apply (initial_within lo hi i).
  - cbn [qtemps]. destruct (step_size_bounds k) as [Hh Hha].
    apply qstep_within; try done. apply length_qtemps.
Qed.

End bounds.

(** Maximum principle.  On an accepted input with a step small enough for
    every free node (timeStep times the sum of the conductances in the
    adjacency list of the node is at most its heat capacity), no temperature
    ever leaves the range of the starting temperatures: when the starting
    temperature of every node (fixedTemp for a fixed node, initialTemp for a
    free one) is between [lo] and [hi], so is every sample of every series
    (in exact arithmetic). *)
Theorem maximum_principle fuel nodes edges settings r lo hi :
  simulateThermalNetwork fuel nodes edges settings = Return r →
  stable nodes edges settings →
  Forall (within lo hi) (initial_temps nodes) →
  ∀ i k, (i < length nodes)%nat → (k < length (times r))%nat →
    within lo hi (sample r i k).
Proof.
  intros [Hv ->]%Return_valid Hstable Hinit i k Hi Hk.
  cbn [times result_at] in Hk. rewrite length_times_at in Hk.
  rewrite (sample_Finite _ _ _ Hv) by (lia || done).
  by apply qtemps_within.
Qed.

Lemma maximum_principle_witness :
  within (Q2Qc (inject_Z 20)) (Q2Qc (inject_Z 100))
    (sample (result_at [node_A; node_B] [edge_AB (of_Z 5)] settings_1_5 5) 0 5).
Proof.
  apply (maximum_principle 5 [node_A; node_B] [edge_AB (of_Z 5)] settings_1_5
           (result_at [node_A; node_B] [edge_AB (of_Z 5)] settings_1_5 5)).
  - vm_compute. reflexivity.
  - intros i node Hnode Hfree. destruct i as [|[|i]]; simpl in Hnode.
    + injection Hnode as <-. apply (bool_decide_unpack _). vm_compute. exact I.
    + injection Hnode as <-. discriminate Hfree.
    + discriminate Hnode.
  - repeat constructor; apply (bool_decide_unpack _); vm_compute; exact I.
  - simpl. lia.
  - vm_compute. lia.
Defined.

Section uniform.

Context (nodes : list SimulationNode) (edges : list SimulationEdge)
        (settings : SimulationSettings).
Context (Hvalid : valid nodes edges settings).

(** At equal temperatures no heat flows. *)
Lemma net_flow_uniform (T : list Qc) (c : Qc) i :
  (∀ j, (j < length nodes)%nat → T !!! j = c) → (i < length nodes)%nat →
  net_flow (set_indices nodes 0 ∅) edges T i = 0.
Proof.
  intros HT Hi. unfold net_flow. apply Qsum_zero. intros edge Hedge.
  pose proof (valid_indexed nodes edges settings Hvalid) as Hidx.
  rewrite Forall_forall in Hidx.
  destruct (Hidx edge Hedge) as (s & t & Hs & Ht & Hsn & Htn).
  unfold edge_flow. rewrite Hs, Ht, !HT by done.
  repeat case_decide; ring.
Qed.

Lemma qtemps_uniform (c : Qc) :
  Forall (λ x, x = Finite c) (initial_temps nodes) →
  ∀ k j, (j < length nodes)%nat → qtemps nodes edges settings k !!! j = c.
Proof.
  intros Hinit. rewrite Forall_forall in Hinit.
  assert (∀ j node, nodes !! j = Some node →
            (if isFixed node then fixedTemp node else initialTemp node) = Finite c)
    as Hstart.
  { intros j node Hnode. apply Hinit. apply list_elem_of_lookup. exists j.
    unfold initial_temps. by rewrite list_lookup_fmap, Hnode. }
  intros k. induction k as [|k IH]; intros j Hj;
    destruct (lookup_lt_is_Some_2 nodes j Hj) as [node Hnode].
  - rewrite (lookup_total_qtemps_0 _ _ _ _ node) by done.
    by rewrite (Hstart j node).
  - cbn [qtemps]. rewrite (lookup_total_qstep _ _ _ _ _ node) by done.
    unfold qnext. pose proof (Hstart j node Hnode) as Hc.
    destruct (isFixed node); [by rewrite Hc|].
    rewrite (net_flow_uniform _ c), IH by done. unfold Qcdiv. ring.
Qed.

End uniform.

(** Equilibrium is kept.  On an accepted input in which all nodes start at
    the same temperature (fixedTemp for a fixed node, initialTemp for a free
    one), every sample of every series is that temperature, whatever the
    conductances and the step. *)
Theorem uniform_start_stays fuel nodes edges settings r c :
  simulateThermalNetwork fuel nodes edges settings = Return r →
  Forall (λ x, x = Finite c) (initial_temps nodes) →
  ∀ i k, (i < length nodes)%nat → (k < length (times r))%nat →
    sample r i k = Finite c.
Proof.
  intros [Hv ->]%Return_valid Hinit i k Hi Hk.
  cbn [times result_at] in Hk. rewrite length_times_at in Hk.
  rewrite (sample_Finite _ _ _ Hv) by (lia || done).
  f_equal. by apply qtemps_uniform.
Qed.

(** A node at 20 like B, free. *)
Definition node_D : SimulationNode :=
  {| node_id := "a"; node_name := "D"; initialTemp := of_Z 20;
     heatCapacity := of_Z 1; isFixed := false; fixedTemp := of_Z 0 |}.

Lemma uniform_start_stays_witness :
  sample (result_at [node_D; node_B] [edge_AB (of_Z 5)] settings_1_5 5) 0 5 = of_Z 20.
Proof.
  apply (uniform_start_stays 5 [node_D; node_B] [edge_AB (of_Z 5)] settings_1_5
           (result_at [node_D; node_B] [edge_AB (of_Z 5)] settings_1_5 5)).
  - vm_compute. reflexivity.
  - repeat constructor.
  - simpl. lia.
  - vm_compute. lia.
Defined.

(** * Order of the times *)

Section times_order.

Lemma round6_mono (p q : Qc) : p ≤ q → round6 p ≤ round6 q.
Proof.
  intros Hpq. unfold Qcle. rewrite !this_round6.
  assert (Qfloor (this p * inject_Z 1000000 + (1 # 2)) ≤
          Qfloor (this q * inject_Z 1000000 + (1 # 2)))%Z as Hfloor.
  { apply Qfloor_resp_le. unfold Qcle in Hpq.
    change (inject_Z 1000000) with (1000000 # 1)%Q. lra. }
  rewrite Zle_Qle in Hfloor. lra.
Qed.

(** Below 10^21 a rounded value is at most 10^21. *)
Lemma round6_below (q : Qc) :
  q ≤ Q2Qc (inject_Z (10 ^ 21)) → round6 q ≤ Q2Qc (inject_Z (10 ^ 21)).
Proof.
  intros Hq. apply round6_mono in Hq.
  replace (round6 (Q2Qc (inject_Z (10 ^ 21)))) with (Q2Qc (inject_Z (10 ^ 21))) in Hq;
    [done|].
  symmetry. replace (Q2Qc (inject_Z (10 ^ 21))) with (Q2Qc ((10 ^ 27) # 1000000)).
  - apply round6_grid.
  - apply Qc_is_canon. rewrite !this_Q2Qc. reflexivity.
Qed.

Lemma big_pos : 0 < Q2Qc (inject_Z (10 ^ 21)).
Proof. reflexivity. Qed.

Lemma toFixed6_mono (p q : Qc) :
  0 ≤ p → p ≤ q → nle (toFixed6 (Finite p)) (toFixed6 (Finite q)) = true.
Proof.
  intros Hp Hpq. assert (0 ≤ q) as Hq by (by etransitivity).
  simpl.
  destruct (decide (Q2Qc (inject_Z (10 ^ 21)) ≤ p)) as [Hbig|Hsmall].
  - rewrite decide_True by (by etransitivity). simpl. by apply bool_decide_eq_true.
  - apply Qcnot_le_lt in Hsmall.
    destruct (decide (p ≤ - Q2Qc (inject_Z (10 ^ 21)))) as [Hneg|_].
    { exfalso. pose proof big_pos as HB.
      remember (Q2Qc (inject_Z (10 ^ 21))) as B eqn:EB. clear -Hneg Hp HB. qc_lra. }
    destruct (decide (p < 0)) as [Hneg|_]; [by apply Qcle_not_lt in Hp|].
    destruct (decide (Q2Qc (inject_Z (10 ^ 21)) ≤ q)) as [Hbig|Hsmall'].
    + simpl. apply bool_decide_eq_true. etransitivity; [|exact Hbig].
      apply round6_below. by apply Qclt_le_weak.
    + destruct (decide (q ≤ - Q2Qc (inject_Z (10 ^ 21)))) as [Hneg|_].
      { exfalso. pose proof big_pos as HB.
        remember (Q2Qc (inject_Z (10 ^ 21))) as B eqn:EB. clear -Hneg Hq HB. qc_lra. }
      destruct (decide (q < 0)) as [Hneg|_]; [by apply Qcle_not_lt in Hq|].
      simpl. apply bool_decide_eq_true. by apply round6_mono.
Qed.

Context (a b : Qc) (Ha : 0 < a) (Hab : a ≤ b).

Lemma qelapsed_mono j k : (j ≤ k)%nat → qelapsed a b j ≤ qelapsed a b k.
Proof.
  intros Hjk. pose proof (Qc_of_nat_le j k Hjk) as Hle.
  assert (Qc_of_nat j * a ≤ Qc_of_nat k * a) as Hm.
  { apply Qcmult_le_compat_r; [done|by apply Qclt_le_weak]. }
  unfold qelapsed.
  destruct (decide (Qc_of_nat j * a ≤ b)) as [Hj|Hj],
           (decide (Qc_of_nat k * a ≤ b)) as [Hk|Hk].
  - done.
  - done.
  - destruct Hj. by etransitivity.
  - apply Qcle_refl.
Qed.

End times_order.

(** The times never decrease: of two entries of [times], the later one is at
    least the earlier one.  They may be equal, when the step is below the
    resolution of six decimals. *)
Theorem times_nondecreasing fuel nodes edges settings r j k tj tk :
  simulateThermalNetwork fuel nodes edges settings = Return r →
  (j ≤ k)%nat → times r !! j = Some tj → times r !! k = Some tk →
  nle tj tk = true.
Proof.
  intros [Hv ->]%Return_valid Hjk Hj Hk.
  destruct (valid_settings nodes edges settings Hv) as (a & b & -> & Ha & Hab).
  cbn [times result_at] in Hj, Hk.
  assert (k < S (steps_of {| timeStep := Finite a; totalTime := Finite b |}))%nat as Hlt.
  { apply lookup_lt_Some in Hk. by rewrite length_times_at in Hk. }
  rewrite lookup_times_at in Hj, Hk by lia.
  injection Hj as <-. injection Hk as <-.
  rewrite !(elapsed_at_closed a b Ha Hab).
  apply toFixed6_mono; [by apply qelapsed_nonneg|by apply qelapsed_mono].
Qed.

Lemma times_nondecreasing_witness :
  nle (of_Z 0) (of_Z 7) = true.
Proof.
  apply (times_nondecreasing 3 [node_A; node_B] [edge_AB (of_Z 5)]
           {| timeStep := of_Z 7; totalTime := of_Z 20 |}
           (result_at [node_A; node_B] [edge_AB (of_Z 5)]
              {| timeStep := of_Z 7; totalTime := of_Z 20 |} 3) 0 1).
  - vm_compute. reflexivity.
  - lia.
  - reflexivity.
  - cbn [times result_at]. rewrite lookup_times_at by (vm_compute; lia).
    f_equal. apply number_eqb_eq. vm_compute. reflexivity.
Defined.

(** * The index map and the adjacency lists *)

(** The map from ids to indices of lines 78-79, in full: an id is mapped to
    the index of the last node with that id, and an id of no node is not in
    the map. *)
Theorem nodeIndex_spec nodes key i :
  set_indices nodes 0 ∅ !! key = Some i ↔
  ∃ node, nodes !! i = Some node ∧ node_id node = key ∧
          ∀ j later, (i < j)%nat → nodes !! j = Some later → node_id later ≠ key.
Proof.
  split; [apply nodeIndex_Some|].
  intros (node & Hnode & Hid & Hlast).
  assert (is_Some (set_indices nodes 0 ∅ !! key)) as [i' Hi'].
  { apply set_indices_is_Some. right. unfold is_node_id.
    apply list_elem_of_fmap. exists node. split; [done|].
    by eapply list_elem_of_lookup_2. }
  destruct (nodeIndex_Some _ _ _ Hi') as (node' & Hnode' & Hid' & Hlast').
  destruct (Nat.lt_trichotomy i i') as [Hlt|[->|Hgt]]; [|done|].
  - by destruct (Hlast i' node' Hlt Hnode').
  - by destruct (Hlast' i node Hgt Hnode).
Qed.

(** With ids that are all different, every node is found at its own
    index. *)
Theorem nodeIndex_unique_ids nodes i node :
  NoDup (node_id <$> nodes) → nodes !! i = Some node →
  set_indices nodes 0 ∅ !! node_id node = Some i.
Proof.
  intros Hnodup Hnode.
  assert (is_Some (set_indices nodes 0 ∅ !! node_id node)) as [i' Hi'].
  { apply set_indices_is_Some. right. unfold is_node_id.
    apply list_elem_of_fmap. exists node. split; [done|].
    by eapply list_elem_of_lookup_2. }
  destruct (nodeIndex_Some _ _ _ Hi') as (node' & Hnode' & Hid' & _).
  rewrite Hi'. f_equal.
  apply (NoDup_lookup (node_id <$> nodes) i' i (node_id node)); [done| |].
  - by rewrite list_lookup_fmap, Hnode', <-Hid'.
  - by rewrite list_lookup_fmap, Hnode.
Qed.

Lemma nodeIndex_unique_ids_witness :
  set_indices [node_A; node_B] 0 ∅ !! "b" = Some 1%nat.
Proof.
  apply (nodeIndex_unique_ids [node_A; node_B] 1 node_B).
  - apply (bool_decide_unpack _). vm_compute. exact I.
  - reflexivity.
Defined.

Lemma elem_of_edge_neighbors nodeIndex i j g edge :
  {| neighborIndex := j; nb_conductance := g |} ∈ edge_neighbors nodeIndex i edge ↔
  conductance edge = g ∧
  ((nodeIndex !! source edge = Some i ∧ nodeIndex !! target edge = Some j) ∨
   (nodeIndex !! source edge = Some j ∧ nodeIndex !! target edge = Some i)).
Proof.
  unfold edge_neighbors.
  destruct (nodeIndex !! source edge) as [s|];
    [|rewrite elem_of_nil; intuition congruence].
  destruct (nodeIndex !! target edge) as [t|];
    [|rewrite elem_of_nil; intuition congruence].
  rewrite elem_of_app.
  repeat case_decide; rewrite ?list_elem_of_singleton, ?elem_of_nil;
    intuition congruence.
Qed.

(** The adjacency structure is symmetric: with every endpoint a node id, the
    structure built by lines 87-95 has an entry for neighbour [j] with
    conductance [g] in the list of node [i] exactly when it has an entry for
    neighbour [i] with conductance [g] in the list of node [j]. *)
Theorem adjacency_symmetric nodes edges i j g :
  Forall (endpoints_ok nodes) edges →
  ∃ adjacency,
    build_adjacency (set_indices nodes 0 ∅) edges ((λ _, []) <$> nodes)
    = Return adjacency ∧
    length adjacency = length nodes ∧
    ((i < length nodes)%nat → (j < length nodes)%nat →
     ({| neighborIndex := j; nb_conductance := g |} ∈ default [] (adjacency !! i) ↔
      {| neighborIndex := i; nb_conductance := g |} ∈ default [] (adjacency !! j))).
Proof.
  intros Hend. exists (adjacency_of nodes edges).
  split; [by apply build_adjacency_spec|]. split; [apply length_adjacency_of|].
  intros Hi Hj. rewrite !lookup_adjacency_of by done. simpl.
  unfold neighbors_of. rewrite !list_elem_of_bind.
  split; intros (edge & Hnb & Hedge); exists edge; (split; [|done]);
    apply elem_of_edge_neighbors in Hnb; apply elem_of_edge_neighbors; tauto.
Qed.

Lemma adjacency_symmetric_witness :
  ∃ adjacency,
    build_adjacency (set_indices [node_A; node_B] 0 ∅) [edge_AB (of_Z 5)]
      ((λ _, []) <$> [node_A; node_B]) = Return adjacency ∧
    length adjacency = 2%nat.
Proof.
  destruct (adjacency_symmetric [node_A; node_B] [edge_AB (of_Z 5)] 0 1 (of_Z 5))
    as (adjacency & Hbuild & Hlen & _).
  - repeat constructor; unfold is_node_id; apply (bool_decide_unpack _);
      vm_compute; exact I.
  - exists adjacency. split; [exact Hbuild|exact Hlen].
Defined.

(** * Change of the temperature scale *)

(** The node with its temperatures [t] replaced by [alpha * t + beta]. *)
Definition rescale_node (alpha beta : Qc) (node : SimulationNode) : SimulationNode :=
  {| node_id := node_id node; node_name := node_name node;
     initialTemp := (Finite alpha * initialTemp node + Finite beta)%num;
     heatCapacity := heatCapacity node;
     isFixed := isFixed node;
     fixedTemp := (Finite alpha * fixedTemp node + Finite beta)%num |}.

Section rescale.

Context (alpha beta : Qc).

Lemma set_indices_rescale nodes start (m : gmap string nat) :
  set_indices (rescale_node alpha beta <$> nodes) start m = set_indices nodes start m.
Proof.
  revert start m. induction nodes as [|node rest IH]; intros start m; [done|].
  rewrite fmap_cons. cbn [set_indices]. by rewrite IH.
Qed.

Lemma rescale_finite x : finite x → finite (Finite alpha * x + Finite beta)%num.
Proof. by destruct x. Qed.

Lemma rescale_qval x :
  finite x → qval (Finite alpha * x + Finite beta)%num = alpha * qval x + beta.
Proof. by destruct x. Qed.

Lemma node_ok_rescale node : node_ok node → node_ok (rescale_node alpha beta node).
Proof.
  intros (HC & HT & HF). repeat split; simpl; [done|by apply rescale_finite|].
  intros Hfix. by apply rescale_finite, HF.
Qed.

Context (nodes : list SimulationNode) (edges : list SimulationEdge)
        (settings : SimulationSettings).
Context (Hvalid : valid nodes edges settings).

Let nodes' := rescale_node alpha beta <$> nodes.

Lemma valid_rescale : valid nodes' edges settings.
Proof.
  intros p. pose proof (Hvalid p) as Hp. destruct p; simpl in *; try done.
  - unfold nodes'. by destruct nodes.
  - unfold nodes'. rewrite Forall_fmap. eapply Forall_impl; [exact Hp|].
    intros node. apply node_ok_rescale.
  - eapply Forall_impl; [exact Hp|]. intros edge.
    unfold endpoints_ok, is_node_id, nodes'. rewrite <-list_fmap_compose.
    by replace (node_id ∘ rescale_node alpha beta) with node_id.
Qed.

(** The heat flows are multiplied by [alpha]. *)
Lemma net_flow_rescale (T : list Qc) i :
  length T = length nodes →
  net_flow (set_indices nodes 0 ∅) edges ((λ t, alpha * t + beta) <$> T) i =
  alpha * net_flow (set_indices nodes 0 ∅) edges T i.
Proof.
  intros HT. unfold net_flow. rewrite Qcmult_comm, <-Qsum_fmap_mult.
  f_equal. apply list_fmap_ext. intros _ edge Hedge%list_elem_of_lookup_2.
  pose proof (valid_indexed nodes edges settings Hvalid) as Hidx.
  rewrite Forall_forall in Hidx.
  destruct (Hidx edge Hedge) as (s & t & Hs & Ht & Hsn & Htn).
  unfold edge_flow. rewrite Hs, Ht.
  assert (∀ j, (j < length nodes)%nat →
            ((λ t, alpha * t + beta) <$> T) !!! j = alpha * T !!! j + beta) as HTj.
  { intros j Hj. apply list_lookup_total_correct.
    rewrite list_lookup_fmap, (list_lookup_lookup_total_lt T j) by lia. done. }
  repeat case_decide; subst; rewrite ?HTj by done; ring.
Qed.

Lemma qtemps_rescale k :
  qtemps nodes' edges settings k =
  (λ t, alpha * t + beta) <$> qtemps nodes edges settings k.
Proof.
  induction k as [|k IH].
  - simpl. unfold initial_temps, nodes'. rewrite <-!list_fmap_compose.
    apply list_fmap_ext. intros i node Hnode%list_elem_of_lookup_2. simpl.
    pose proof (Hvalid P_node_values) as Hok. simpl in Hok. rewrite Forall_forall in Hok.
    destruct (Hok node Hnode) as (_ & HT & HF).
    destruct (isFixed node); apply rescale_qval; auto.
  - cbn [qtemps]. rewrite IH. unfold qstep, nodes'.
    rewrite imap_fmap, fmap_imap. apply imap_ext. intros i node Hnode. simpl.
    unfold qnext. simpl. rewrite set_indices_rescale.
    pose proof (Hvalid P_node_values) as Hok. simpl in Hok. rewrite Forall_forall in Hok.
    destruct (Hok node) as (_ & _ & HF); [by eapply list_elem_of_lookup_2|].
    destruct (isFixed node) eqn:Hfix; [apply rescale_qval; auto|].
    rewrite net_flow_rescale by apply length_qtemps.
    assert (((λ t, alpha * t + beta) <$> qtemps nodes edges settings k) !!! i =
            alpha * qtemps nodes edges settings k !!! i + beta) as ->.
    { apply list_lookup_total_correct.
      rewrite list_lookup_fmap, (list_lookup_lookup_total_lt _ i); [done|].
      rewrite length_qtemps. by eapply lookup_lt_Some. }
    unfold Qcdiv. ring.
Qed.

End rescale.

(** The solver is affine in the temperatures.  Replacing every initialTemp
    and fixedTemp [t] of an accepted network by [alpha * t + beta] (another
    unit of temperature) gives an accepted network, the same times, and
    series in which every sample [t] is replaced by [alpha * t + beta] (in
    exact arithmetic). *)
Theorem rescale_temperatures fuel nodes edges settings r alpha beta :
  simulateThermalNetwork fuel nodes edges settings = Return r →
  ∃ r',
    simulateThermalNetwork fuel (rescale_node alpha beta <$> nodes) edges settings
    = Return r' ∧
    times r' = times r ∧
    ∀ i k, (i < length nodes)%nat → (k < length (times r))%nat →
      sample r' i k = (Finite alpha * sample r i k + Finite beta)%num.
Proof.
  intros Hr. destruct (Return_valid _ _ _ _ _ Hr) as [Hv ->].
  pose proof (valid_rescale alpha beta nodes edges settings Hv) as Hv'.
  rewrite (simulate_valid _ _ _ Hv) in Hr.
  rewrite (simulate_valid _ _ _ Hv').
  case_decide; [|done]. eexists. split; [done|]. split; [done|].
  intros i k Hi Hk. cbn [times result_at] in Hk. rewrite length_times_at in Hk.
  rewrite (sample_Finite _ _ _ Hv), (sample_Finite _ _ _ Hv')
    by (lia || done || by rewrite length_fmap).
  rewrite qtemps_rescale by done. simpl. f_equal.
  apply list_lookup_total_correct.
  rewrite list_lookup_fmap, (list_lookup_lookup_total_lt _ i); [done|].
  by rewrite length_qtemps.
Qed.

(** From degrees Celsius to degrees Fahrenheit. *)
Lemma rescale_temperatures_witness :
  ∃ r',
    simulateThermalNetwork 5
      (rescale_node (Q2Qc (9 # 5)) (Q2Qc (inject_Z 32)) <$> [node_A; node_B])
      [edge_AB (of_Z 5)] settings_1_5 = Return r' ∧
    times r' = times (result_at [node_A; node_B] [edge_AB (of_Z 5)] settings_1_5 5).
Proof.
  destruct (rescale_temperatures 5 [node_A; node_B] [edge_AB (of_Z 5)] settings_1_5
              (result_at [node_A; node_B] [edge_AB (of_Z 5)] settings_1_5 5)
              (Q2Qc (9 # 5)) (Q2Qc (inject_Z 32)))
    as (r' & Hr' & Htimes & _).
  - vm_compute. reflexivity.
  - exists r'. split; [exact Hr'|exact Htimes].
Defined.


(** * Binary64

    The arithmetic of the solver so far is exact.  JavaScript computes in
    binary64: the result of [+], [-], [*] and [/] on finite operands is the
    exact result rounded to the nearest double, the one with an even
    significand on a tie, and an infinity when the rounded value is beyond
    the largest double.  [round64] is this rounding on [number]; the sign of
    zero is still left out. *)

(** [2^e] for an integer [e]. *)
Definition pow2 (e : Z) : Q :=
  if (0 <=? e)%Z then inject_Z (2 ^ e) else (1 / inject_Z (2 ^ (- e)))%Q.

(** The exponent of a positive rational: the [e] with
    [2^e <= q < 2^(e+1)]. *)
Definition exponent (q : Q) : Z :=
  let e := (Z.log2 (Qnum q) - Z.log2 (Zpos (Qden q)))%Z in
  if Qle_bool (pow2 e) q then e else (e - 1)%Z.

(** The integer nearest to a rational, the even one on a tie. *)
Definition nearest_even (q : Q) : Z :=
  let f := Qfloor q in
  match (q - inject_Z f ?= 1 # 2)%Q with
  | Lt => f
  | Gt => (f + 1)%Z
  | Eq => if Z.even f then f else (f + 1)%Z
  end.

(** The double nearest to a positive rational, [None] beyond the largest
    double.  A double has 53 significant bits, and the exponent of its unit
    in the last place is at least -1074. *)
Definition round_positive (q : Q) : option Q :=
  let e := Z.max (exponent q) (-1022) in
  let quantum := pow2 (e - 52) in
  let r := (inject_Z (nearest_even (q / quantum)) * quantum)%Q in
  if Qle_bool (pow2 1024) r then None else Some r.

Definition round64 (x : number) : number :=
  match x with
  | Finite q =>
      match (this q ?= 0)%Q with
      | Eq => x
      | Gt =>
          match round_positive (this q) with
          | Some r => Finite (Q2Qc r)
          | None => PosInf
          end
      | Lt =>
          match round_positive (- this q) with
          | Some r => Finite (- Q2Qc r)
          | None => NegInf
          end
      end
  | _ => x
  end.


(** The number that a decimal literal of the program or of a JSON file
    denotes. *)
Definition literal (q : Q) : number := round64 (of_Q q).

(** * The solver over an arithmetic *)

Module Rounded.

(** What rounds in [simulateThermalNetwork]: the four operations, the
    literal [1e-9] and [Number(x.toFixed(6))].  The comparisons, [Math.min]
    and [Number.isFinite] are exact on doubles. *)
Record Arithmetic := {
  fadd : number → number → number;
  fsub : number → number → number;
  fmul : number → number → number;
  fdiv : number → number → number;
  ftolerance : number;
  ftoFixed6 : number → number;
}.

(** The arithmetic without rounding, and the one of JavaScript. *)
Definition exact : Arithmetic :=
  {| fadd := nadd; fsub := nsub; fmul := nmul; fdiv := ndiv;
     ftolerance := tolerance; ftoFixed6 := toFixed6 |}.

Definition binary64 : Arithmetic :=
  {| fadd := λ x y, round64 (nadd x y);
     fsub := λ x y, round64 (nsub x y);
     fmul := λ x y, round64 (nmul x y);
     fdiv := λ x y, round64 (ndiv x y);
     ftolerance := round64 tolerance;
     ftoFixed6 := λ x, round64 (toFixed6 x) |}.

Section program.

Context (A : Arithmetic).

(** Lines 130-136. *)
Definition netHeatFlow (currentTemps : list number) (i : nat)
    (neighbors : list Neighbor) : number :=
  foldl (λ (acc : number) (nb : Neighbor),
           let delta := fsub A (currentTemps !!! neighborIndex nb) (currentTemps !!! i) in
           fadd A acc (fmul A (nb_conductance nb) delta))
        zero neighbors.

(** What one entry of [adjacency[i]] adds to [netHeatFlow]. *)
Definition flow_term (currentTemps : list number) (i : nat) (nb : Neighbor) : number :=
  fmul A (nb_conductance nb)
    (fsub A (currentTemps !!! neighborIndex nb) (currentTemps !!! i)).

(** Lines 123-139. *)
Definition update_node (nodes : list SimulationNode)
    (adjacency : list (list Neighbor)) (currentTemps : list number) (step : number)
    (i : nat) (nextTemps : list number) : list number :=
  match nodes !! i with
  | None => nextTemps
  | Some node =>
      if isFixed node then <[i := fixedTemp node]> nextTemps
      else
        let neighbors := default [] (adjacency !! i) in
        let temperatureDerivative :=
          fdiv A (netHeatFlow currentTemps i neighbors) (heatCapacity node) in
        <[i := fadd A (currentTemps !!! i) (fmul A temperatureDerivative step)]> nextTemps
  end.

(** Lines 117-147. *)
Definition loop_body (nodes : list SimulationNode) (adjacency : list (list Neighbor))
    (settings : SimulationSettings) (st : LoopState) : LoopState :=
  let step := nmin (timeStep settings) (fsub A (totalTime settings) (elapsed st)) in
  let elapsed := fadd A (elapsed st) step in
  let nextTemps := currentTemps st in
  let nextTemps :=
    for_range 0 (length nodes) (update_node nodes adjacency (currentTemps st) step)
      nextTemps in
  let '(currentTemps, series) :=
    for_range 0 (length nodes) (commit_node nextTemps) (currentTemps st, st_series st) in
  {| elapsed := elapsed;
     currentTemps := currentTemps;
     st_series := series;
     st_times := st_times st ++ [ftoFixed6 A elapsed] |}.

(** [while (elapsed + tolerance < totalTime)] *)
Definition loop_cond (settings : SimulationSettings) (st : LoopState) : bool :=
  nlt (fadd A (elapsed st) (ftolerance A)) (totalTime settings).

Definition simulateThermalNetwork (fuel : nat) (nodes : list SimulationNode)
    (edges : list SimulationEdge) (settings : SimulationSettings)
    : outcome SimulationResult :=
  throw_if (bool_decide (length nodes = 0%nat)) msg_no_nodes;;
  throw_if (negb (isFinite (timeStep settings)) || nle (timeStep settings) zero)
    msg_timeStep;;
  throw_if (negb (isFinite (totalTime settings)) || nle (totalTime settings) zero)
    msg_totalTime;;
  throw_if (nlt (totalTime settings) (timeStep settings)) msg_total_lt_step;;
  forEach check_node nodes;;
  forEach check_conductance edges;;
  let nodeIndex := set_indices nodes 0 ∅ in
  forEach (check_endpoints nodeIndex) edges;;
  adjacency ← build_adjacency nodeIndex edges ((λ _, []) <$> nodes);
  let series :=
    (λ node, {| nodeId := node_id node; name := node_name node; temperatures := [] |})
      <$> nodes in
  let currentTemps :=
    (λ node, if isFixed node then fixedTemp node else initialTemp node) <$> nodes in
  let series := imap (λ index s, push_temperature (currentTemps !!! index) s) series in
  st ← while_loop fuel (loop_cond settings) (loop_body nodes adjacency settings)
         {| elapsed := zero; currentTemps := currentTemps;
            st_series := series; st_times := [zero] |};
  mret {| times := st_times st; series := st_series st |}.

(** ** The samples of a run *)

Definition next_temp (adjacency : list (list Neighbor)) (T : list number)
    (step : number) (i : nat) (node : SimulationNode) : number :=
  if isFixed node then fixedTemp node
  else fadd A (T !!! i)
         (fmul A (fdiv A (netHeatFlow T i (default [] (adjacency !! i)))
                    (heatCapacity node)) step).

Definition euler_step (nodes : list SimulationNode) (adjacency : list (list Neighbor))
    (T : list number) (step : number) : list number :=
  imap (next_temp adjacency T step) nodes.

(** The variable [elapsed] after [k] turns of the loop. *)
Fixpoint elapsed_at (settings : SimulationSettings) (k : nat) : number :=
  match k with
  | O => zero
  | S k' =>
      fadd A (elapsed_at settings k')
        (nmin (timeStep settings) (fsub A (totalTime settings) (elapsed_at settings k')))
  end.

Definition step_size (settings : SimulationSettings) (k : nat) : number :=
  nmin (timeStep settings) (fsub A (totalTime settings) (elapsed_at settings k)).

(** The test of the loop on entry to turn [k]. *)
Definition goes_on (settings : SimulationSettings) (k : nat) : bool :=
  nlt (fadd A (elapsed_at settings k) (ftolerance A)) (totalTime settings).

(** The loop makes [N] turns: the test holds on entry to the turns before
    [N] and fails after [N] turns. *)
Definition stops (settings : SimulationSettings) (N : nat) : Prop :=
  (∀ k, (k < N)%nat → goes_on settings k = true) ∧ goes_on settings N = false.

Fixpoint temps_at (nodes : list SimulationNode) (adjacency : list (list Neighbor))
    (settings : SimulationSettings) (k : nat) : list number :=
  match k with
  | O => initial_temps nodes
  | S k' =>
      euler_step nodes adjacency (temps_at nodes adjacency settings k')
        (step_size settings k')
  end.

Definition series_at (nodes : list SimulationNode) (adjacency : list (list Neighbor))
    (settings : SimulationSettings) (k : nat) : list SimulationSeries :=
  imap (λ i node,
          {| nodeId := node_id node; name := node_name node;
             temperatures :=
               (λ j, temps_at nodes adjacency settings j !!! i) <$> seq 0 (S k) |})
       nodes.

Definition times_at (settings : SimulationSettings) (k : nat) : list number :=
  zero :: ((λ j, ftoFixed6 A (elapsed_at settings j)) <$> seq 1 k).

Definition state_at (nodes : list SimulationNode) (adjacency : list (list Neighbor))
    (settings : SimulationSettings) (k : nat) : LoopState :=
  {| elapsed := elapsed_at settings k;
     currentTemps := temps_at nodes adjacency settings k;
     st_series := series_at nodes adjacency settings k;
     st_times := times_at settings k |}.

Definition result_at (nodes : list SimulationNode) (edges : list SimulationEdge)
    (settings : SimulationSettings) (k : nat) : SimulationResult :=
  {| times := times_at settings k;
     series := series_at nodes (adjacency_of nodes edges) settings k |}.

Section turns.

Context (nodes : list SimulationNode) (adjacency : list (list Neighbor))
        (settings : SimulationSettings).

#[local] Arguments seq : simpl never.

Lemma turn_for_range_update T step count :
  ∀ start (L : list number) i,
  length L = length nodes → (start + count ≤ length nodes)%nat →
  for_range start count (update_node nodes adjacency T step) L !! i =
  if decide (start ≤ i < start + count)%nat
  then next_temp adjacency T step i <$> nodes !! i
  else L !! i.
Proof.
  induction count as [|count IH]; intros start L i HL Hle; simpl.
  - by rewrite decide_False by lia.
  - destruct (lookup_lt_is_Some_2 nodes start ltac:(lia)) as [node Hnode].
    rewrite IH; [|unfold update_node; rewrite Hnode;
                  destruct (isFixed node); by rewrite length_insert|lia].
    destruct (decide (i = start)) as [->|Hne].
    + rewrite decide_False by lia. rewrite decide_True by lia.
      unfold update_node. rewrite Hnode. unfold next_temp. simpl.
      destruct (isFixed node); by rewrite list_lookup_insert_eq by lia.
    + assert (update_node nodes adjacency T step start L !! i = L !! i) as ->.
      { unfold update_node. rewrite Hnode.
        destruct (isFixed node); by rewrite list_lookup_insert_ne. }
      destruct (decide (S start ≤ i < S start + count)%nat);
        [by rewrite decide_True by lia | by rewrite decide_False by lia].
Qed.

Lemma turn_for_range_update_all T step :
  length T = length nodes →
  for_range 0 (length nodes) (update_node nodes adjacency T step) T =
  euler_step nodes adjacency T step.
Proof.
  intros HT. apply list_eq. intros i.
  rewrite turn_for_range_update by (done || lia). unfold euler_step.
  rewrite list_lookup_imap.
  destruct (decide (0 ≤ i < 0 + length nodes)%nat) as [?|Hge]; [done|].
  rewrite (lookup_ge_None_2 nodes) by lia. simpl. apply lookup_ge_None_2. lia.
Qed.

Lemma turn_length_euler_step T step :
  length (euler_step nodes adjacency T step) = length nodes.
Proof. apply length_imap. Qed.

(** The body of the loop, in one piece. *)
Lemma turn_loop_body_spec (st : LoopState) :
  length (currentTemps st) = length nodes →
  length (st_series st) = length nodes →
  let step := nmin (timeStep settings) (fsub A (totalTime settings) (elapsed st)) in
  let next := euler_step nodes adjacency (currentTemps st) step in
  loop_body nodes adjacency settings st =
  {| elapsed := fadd A (elapsed st) step;
     currentTemps := next;
     st_series := imap (λ i s, push_temperature (next !!! i) s) (st_series st);
     st_times := st_times st ++ [ftoFixed6 A (fadd A (elapsed st) step)] |}.
Proof.
  intros HT Hser step next. unfold loop_body. fold step.
  rewrite turn_for_range_update_all by done. fold next.
  replace (length nodes) with (length next) by apply turn_length_euler_step.
  rewrite for_range_commit_all; [done| |];
    unfold next; rewrite turn_length_euler_step; done.
Qed.

Lemma turn_length_temps_at k : length (temps_at nodes adjacency settings k) = length nodes.
Proof.
  destruct k; [apply length_fmap | apply turn_length_euler_step].
Qed.

Lemma turn_length_series_at k : length (series_at nodes adjacency settings k) = length nodes.
Proof. apply length_imap. Qed.


Lemma turn_initial_state :
  {| elapsed := zero;
     currentTemps := initial_temps nodes;
     st_series :=
       imap (λ index s, push_temperature (initial_temps nodes !!! index) s)
         ((λ node, {| nodeId := node_id node; name := node_name node;
                      temperatures := [] |}) <$> nodes);
     st_times := [zero] |} = state_at nodes adjacency settings 0.
Proof.
  unfold state_at, series_at, times_at. simpl. f_equal.
  rewrite imap_fmap. by apply imap_ext.
Qed.

Lemma turn_loop_body_state_at k :
  loop_body nodes adjacency settings (state_at nodes adjacency settings k) =
  state_at nodes adjacency settings (S k).
Proof.
  rewrite turn_loop_body_spec; cbn [elapsed currentTemps st_series st_times state_at];
    [|apply turn_length_temps_at|apply turn_length_series_at].
  unfold state_at. f_equal.
  - apply list_eq. intros i. unfold series_at.
    rewrite !list_lookup_imap.
    destruct (nodes !! i) as [node|]; [|done].
    rewrite (seq_S (S k)), fmap_app. done.
  - unfold times_at. rewrite (seq_S k), fmap_app. done.
Qed.

Lemma turn_iter_loop_body k :
  Nat.iter k (loop_body nodes adjacency settings) (state_at nodes adjacency settings 0)
  = state_at nodes adjacency settings k.
Proof.
  induction k as [|k IH]; [done|]. simpl. rewrite IH. apply turn_loop_body_state_at.
Qed.

Lemma loop_cond_state_at k :
  loop_cond settings (state_at nodes adjacency settings k) = goes_on settings k.
Proof. reflexivity. Qed.

End turns.

End program.

End Rounded.

(** ** The exact arithmetic is the arithmetic of the first part *)

Lemma exact_simulateThermalNetwork fuel nodes edges settings :
  Rounded.simulateThermalNetwork Rounded.exact fuel nodes edges settings =
  simulateThermalNetwork fuel nodes edges settings.
Proof. reflexivity. Qed.


(** ** Runs in any arithmetic *)

(** A loop that returns has made as many turns as the test allowed. *)
Lemma while_loop_Return {St} (cond : St → bool) (body : St → St) fuel :
  ∀ (s s' : St),
  while_loop fuel cond body s = Return s' →
  ∃ N, (N ≤ fuel)%nat ∧ (∀ k, (k < N)%nat → cond (Nat.iter k body s) = true) ∧
       cond (Nat.iter N body s) = false ∧ s' = Nat.iter N body s.
Proof.
  induction fuel as [|fuel IH]; intros s s'; cbn [while_loop].
  - destruct (cond s) eqn:Hcond; [done|]. intros [= <-].
    exists 0%nat. split; [lia|]. split; [intros k Hk; lia|]. by split.
  - destruct (cond s) eqn:Hcond.
    + intros (N & HN & Htrue & Hfalse & ->)%IH. exists (S N).
      split; [lia|]. rewrite !Nat.iter_succ_r. split; [|by split].
      intros [|k] Hk; [done|]. rewrite Nat.iter_succ_r. apply Htrue. lia.
    + intros [= <-]. exists 0%nat. split; [lia|]. split; [intros k Hk; lia|].
      by split.
Qed.

(** The checks do not depend on the arithmetic: an error is the same in any
    arithmetic and for any fuel. *)
Lemma rounded_Throw (A B : Rounded.Arithmetic) fuel1 fuel2 nodes edges settings e :
  Rounded.simulateThermalNetwork A fuel1 nodes edges settings = Throw e →
  Rounded.simulateThermalNetwork B fuel2 nodes edges settings = Throw e.
Proof.
  unfold Rounded.simulateThermalNetwork. rewrite !throw_if_bind.
  repeat match goal with |- context [if ?c then _ else _] => destruct c end;
    try done.
  cbv zeta.
  destruct (forEach check_node nodes) as [[]|?|]; simpl; try done.
  destruct (forEach check_conductance edges) as [[]|?|]; simpl; try done.
  destruct (forEach _ edges) as [[]|?|]; simpl; try done.
  destruct (build_adjacency _ _ _) as [adj|?|]; simpl; try done.
  destruct (while_loop fuel1 _ _ _) eqn:E1; simpl; try done.
  intros [= <-]. by apply while_loop_no_Throw in E1.
Qed.

Section rounded_runs.

Context (A : Rounded.Arithmetic).

Lemma rounded_validation_passes fuel nodes edges settings :
  valid nodes edges settings →
  Rounded.simulateThermalNetwork A fuel nodes edges settings =
  (st ← while_loop fuel (Rounded.loop_cond A settings)
          (Rounded.loop_body A nodes (adjacency_of nodes edges) settings)
          (Rounded.state_at A nodes (adjacency_of nodes edges) settings 0);
   mret {| times := st_times st; series := st_series st |}).
Proof.
  intros Hvalid.
  destruct (valid_settings nodes edges settings Hvalid) as (a & b & Hset & Ha & Hab).
  unfold Rounded.simulateThermalNetwork. rewrite !throw_if_bind.
  rewrite nonempty_check by apply (Hvalid P_nodes).
  rewrite (proj2 (positive_check _) (Hvalid P_timeStep)).
  rewrite (proj2 (positive_check _) (Hvalid P_totalTime)).
  replace (nlt (totalTime settings) (timeStep settings)) with false; last first.
  { rewrite Hset. simpl. symmetry. apply bool_decide_eq_false. by apply Qcle_not_lt. }
  rewrite (forEach_ok check_node nodes); last first.
  { eapply Forall_impl; [apply (Hvalid P_node_values)|]. apply check_node_ok. }
  rewrite (forEach_ok check_conductance edges); last first.
  { eapply Forall_impl; [apply (Hvalid P_conductances)|]. apply check_conductance_ok. }
  cbv zeta. rewrite (forEach_ok (check_endpoints _) edges); last first.
  { eapply Forall_impl; [apply (Hvalid P_endpoints)|]. apply check_endpoints_ok. }
  rewrite !bind_Return.
  rewrite build_adjacency_spec by apply (Hvalid P_endpoints).
  rewrite bind_Return. fold (initial_temps nodes).
  by rewrite (Rounded.turn_initial_state A nodes (adjacency_of nodes edges) settings).
Qed.

(** A call that does not raise is a call on an accepted input. *)
Lemma rounded_not_Throw fuel nodes edges settings :
  (∀ e, Rounded.simulateThermalNetwork A fuel nodes edges settings ≠ Throw e) →
  valid nodes edges settings.
Proof.
  intros Hno.
  destruct (valid_or_first_violation nodes edges settings) as [Hv|(p & Hq & Hp)];
    [done|].
  destruct (first_violation_reported fuel nodes edges settings p Hq Hp)
    as (e & He & _).
  destruct (Hno e).
  by apply (rounded_Throw Rounded.exact A fuel fuel).
Qed.


(** A call that returns: the input is accepted and the result is the one of
    the turns that the test allowed. *)
Lemma rounded_run_Return fuel nodes edges settings r :
  Rounded.simulateThermalNetwork A fuel nodes edges settings = Return r →
  valid nodes edges settings ∧
  ∃ N, (N ≤ fuel)%nat ∧ Rounded.stops A settings N ∧
       r = Rounded.result_at A nodes edges settings N.
Proof.
  intros Hr.
  assert (valid nodes edges settings) as Hvalid.
  { apply (rounded_not_Throw fuel). intros e. by rewrite Hr. }
  split; [done|]. rewrite rounded_validation_passes in Hr by done.
  destruct (while_loop fuel _ _ _) as [st| |] eqn:Hloop; [|done..].
  apply while_loop_Return in Hloop as (N & HN & Htrue & Hfalse & ->).
  injection Hr as <-. exists N. split; [done|].
  rewrite Rounded.turn_iter_loop_body in Hfalse |- *. split; [|done].
  split; [|done]. intros k Hk. specialize (Htrue k Hk).
  by rewrite Rounded.turn_iter_loop_body in Htrue.
Qed.

End rounded_runs.

(** [f] on the result of a call that returns. *)
#[global] Instance outcome_fmap : FMap outcome := λ A B f m, x ← m; mret (f x).

(** ** The turns of the loop *)


(** The loop stops at one place only. *)
Lemma stops_unique A settings N N' :
  Rounded.stops A settings N → Rounded.stops A settings N' → N = N'.
Proof.
  intros [Htrue Hfalse] [Htrue' Hfalse'].
  destruct (Nat.lt_trichotomy N N') as [Hlt|[?|Hlt]]; [|done|].
  - specialize (Htrue' N Hlt). congruence.
  - specialize (Htrue N' Hlt). congruence.
Qed.


(** The times of a run depend on the settings only. *)
Lemma rounded_loop_times A nodes adjacency nodes' adjacency' settings fuel :
  ∀ k,
  st_times <$> while_loop fuel (Rounded.loop_cond A settings)
                 (Rounded.loop_body A nodes adjacency settings)
                 (Rounded.state_at A nodes adjacency settings k) =
  st_times <$> while_loop fuel (Rounded.loop_cond A settings)
                 (Rounded.loop_body A nodes' adjacency' settings)
                 (Rounded.state_at A nodes' adjacency' settings k).
Proof.
  induction fuel as [|fuel IH]; intros k; cbn [while_loop];
    rewrite !Rounded.loop_cond_state_at; destruct (Rounded.goes_on A settings k);
    try done.
  rewrite !Rounded.turn_loop_body_state_at. apply IH.
Qed.

Lemma rounded_times A fuel nodes edges nodes' edges' settings :
  valid nodes edges settings → valid nodes' edges' settings →
  times <$> Rounded.simulateThermalNetwork A fuel nodes edges settings =
  times <$> Rounded.simulateThermalNetwork A fuel nodes' edges' settings.
Proof.
  intros Hvalid Hvalid'. rewrite !rounded_validation_passes by done.
  pose proof (rounded_loop_times A nodes (adjacency_of nodes edges) nodes'
                (adjacency_of nodes' edges') settings fuel 0) as Hloop.
  destruct (while_loop fuel _ (Rounded.loop_body A nodes _ _) _) as [st| |];
    destruct (while_loop fuel _ (Rounded.loop_body A nodes' _ _) _) as [st'| |];
    try done.
  all: injection Hloop as Hloop; cbn; by rewrite Hloop.
Qed.

(** ** Rounding and signs *)










(** ** Cross-check against the kernel's binary64

    Rocq's primitive floats are IEEE 754 binary64.  On the pairs below,
    among them the operands of the examples of this file, [round64] after
    the exact operation gives the value that the float operation gives. *)

Module FloatCheck.

Import Floats.PrimFloat Floats.SpecFloat Floats.FloatOps.

(** The value of a float. *)
Definition of_float (f : float) : number :=
  match Prim2SF f with
  | S754_zero _ => of_Z 0
  | S754_infinity false => PosInf
  | S754_infinity true => NegInf
  | S754_nan => NaN
  | S754_finite s m e =>
      let v := Q2Qc (inject_Z (Zpos m) * pow2 e) in
      Finite (if s then - v else v)
  end.

Definition agree (op : number → number → number) (fop : float → float → float)
    (a b : float) : bool :=
  number_eqb (of_float (fop a b)) (round64 (op (of_float a) (of_float b))).

Definition agree_all (a b : float) : bool :=
  agree nadd add a b && agree nsub sub a b && agree nmul mul a b &&
  agree ndiv div a b && agree nadd add b a && agree nsub sub b a &&
  agree nmul mul b a && agree ndiv div b a.

(** 0.1, 0.2, 1e-9, the smallest positive double, the smallest normal one
    and the largest double. *)
Definition tenth : float := 0x1.999999999999ap-4%float.
Definition fifth : float := 0x1.999999999999ap-3%float.
Definition nano : float := 0x1.12e0be826d695p-30%float.
Definition tiny : float := 0x1p-1074%float.
Definition small : float := 0x1p-1022%float.
Definition huge : float := 0x1.fffffffffffffp1023%float.

Definition pairs : list (float * float) :=
  [(3, tenth); (6, tenth); (9, tenth); (mul 3 tenth, mul 6 tenth);
   (tenth, fifth); (1, 3); (7, tenth); (7, 20); (0x1p23, nano);
   (0x1p23, 0x1p-29); (0x1p1023, 0x1p1023); (0x1p1023, 1); (0x1p1023, 2);
   (huge, 0x1p970); (huge, 0x1p969); (huge, huge); (tiny, 0x1p-1); (tiny, 3);
   (tiny, 0x1.8p-1); (small, 0x1p-1); (small, tenth); (small, tiny);
   (0x1p53, 1); (0x1.0000000000001p53, 3); (0x1p-1000, 0x1p-60);
   (opp tenth, 0x1.6666666666666p-1); (opp nano, 0x1.12e0be826d695p-32);
   (0x1.d6f3454p26, opp 0x1.0c6f7a0b5ed8dp-20)]%float.

Lemma tenth_literal : of_float tenth = literal (1 # 10).
Proof. apply number_eqb_eq. vm_compute. reflexivity. Qed.

Lemma nano_tolerance : of_float nano = Rounded.ftolerance Rounded.binary64.
Proof. apply number_eqb_eq. vm_compute. reflexivity. Qed.

Lemma round64_agrees :
  forallb (λ '(a, b), agree_all a b) pairs = true.
Proof. vm_compute. reflexivity. Qed.

(** The sums of the example of the parallel edges below: 3 * 0.1 + 6 * 0.1
    against 9 * 0.1. *)
Lemma float_parallel_edges :
  of_float (add (mul 3 tenth) (mul 6 tenth))
  = of_Q (8106479329266894 # 9007199254740992) ∧
  of_float (mul 9 tenth) = literal (9 # 10).
Proof. split; apply number_eqb_eq; vm_compute; reflexivity. Qed.

(** The test of the loop at 2^23 for a total of 2^23 + 2^-29. *)
Lemma float_loop_test : ltb (add 0x1p23 nano) (add 0x1p23 0x1p-29) = false.
Proof. vm_compute. reflexivity. Qed.

(** The second step of the example of the energy below, from -2^1023 and
    2^1023 with a conductance of 2^1023. *)
Lemma float_overflow :
  of_float (add (opp 0x1p1023) (mul 0x1p1023 (sub 0x1p1023 (opp 0x1p1023))))
  = PosInf ∧
  of_float (add 0x1p1023 (mul 0x1p1023 (sub (opp 0x1p1023) 0x1p1023))) = NegInf.
Proof. split; vm_compute; reflexivity. Qed.

End FloatCheck.

(** * The claims that depend on the arithmetic *)

(** ** The times *)




(** ** The number of turns *)





(** ** The two examples of rounded times and of the tolerance, in binary64 *)

(** The example of the times that do not advance, with the step and the
    total as the doubles nearest to 0.0000004 and 0.000001: the times are
    again 0, 0, 0.000001 and 0.000001. *)
Lemma times_advance_binary64 :
  times <$> Rounded.simulateThermalNetwork Rounded.binary64 3 [node_A; node_B]
              [edge_AB (of_Z 5)]
              {| timeStep := literal (4 # 10000000); totalTime := literal (1 # 1000000) |}
  = Return [zero; zero; literal (1 # 1000000); literal (1 # 1000000)].
Proof.
  assert (numbers_eqb
            (default [] (match Rounded.simulateThermalNetwork Rounded.binary64 3
                                 [node_A; node_B] [edge_AB (of_Z 5)]
                                 {| timeStep := literal (4 # 10000000);
                                    totalTime := literal (1 # 1000000) |}
                         with Return r => Some (times r) | _ => None end))
            [zero; zero; literal (1 # 1000000); literal (1 # 1000000)] = true) as H
    by (vm_compute; reflexivity).
  destruct (Rounded.simulateThermalNetwork _ _ _ _ _) as [r| |] eqn:E;
    [|vm_compute in H; discriminate..].
  cbn. f_equal. by apply numbers_eqb_eq.
Qed.

(** The example of the tolerance, with the total as the double nearest to
    2.0000000005: two turns and three samples in binary64 too. *)
Lemma iteration_count_binary64 :
  Rounded.stops Rounded.binary64
    {| timeStep := of_Z 1; totalTime := literal (20000000005 # 10000000000) |} 2.
Proof.
  split.
  - intros k Hk. destruct k as [|[|k]]; [vm_compute; reflexivity..|lia].
  - vm_compute. reflexivity.
Qed.

(** ** Parallel edges *)

(** A free node at 0 with heat capacity 1 next to a node held at 0.1, the
    double nearest to one tenth. *)
Definition node_free_0 : SimulationNode :=
  {| node_id := "a"; node_name := "A"; initialTemp := of_Z 0;
     heatCapacity := of_Z 1; isFixed := false; fixedTemp := of_Z 0 |}.
Definition node_fixed_tenth : SimulationNode :=
  {| node_id := "b"; node_name := "B"; initialTemp := of_Z 0;
     heatCapacity := of_Z 1; isFixed := true; fixedTemp := literal (1 # 10) |}.
Definition settings_1_1 : SimulationSettings :=
  {| timeStep := of_Z 1; totalTime := of_Z 1 |}.




(** ** Energy *)



Lemma netHeatFlow_flow_term A T i neighbors :
  Rounded.netHeatFlow A T i neighbors =
  foldl (λ acc nb, Rounded.fadd A acc (Rounded.flow_term A T i nb)) zero neighbors.
Proof. reflexivity. Qed.




(** ** The order of the edges *)

Lemma valid_Permutation nodes edges edges' settings :
  edges ≡ₚ edges' → valid nodes edges settings → valid nodes edges' settings.
Proof.
  intros Hperm Hv. pose proof (Hv P_conductances) as Hcond.
  pose proof (Hv P_endpoints) as Hend. simpl in Hcond, Hend.
  apply (valid_edges nodes edges); [done| |]; by rewrite <- Hperm.
Qed.

(** In the arithmetic of the program, binary64 included, the order of the
    edges changes neither the error that a call raises nor the times of its
    result. *)
Theorem edge_order_times A fuel nodes edges edges' settings :
  edges ≡ₚ edges' →
  times <$> Rounded.simulateThermalNetwork A fuel nodes edges settings =
  times <$> Rounded.simulateThermalNetwork A fuel nodes edges' settings.
Proof.
  intros Hperm.
  destruct (Rounded.simulateThermalNetwork A fuel nodes edges settings)
    as [r|e|] eqn:Hrun.
  - destruct (rounded_run_Return A fuel nodes edges settings r Hrun) as [Hvalid _].
    rewrite <- Hrun. apply rounded_times; [done|].
    by apply (valid_Permutation nodes edges).
  - apply (rounded_Throw A Rounded.exact fuel fuel) in Hrun.
    rewrite exact_simulateThermalNetwork in Hrun.
    rewrite (edge_order_irrelevant fuel nodes edges edges' settings Hperm) in Hrun.
    rewrite <- exact_simulateThermalNetwork in Hrun.
    apply (rounded_Throw Rounded.exact A fuel fuel) in Hrun. by rewrite Hrun.
  - destruct (Rounded.simulateThermalNetwork A fuel nodes edges' settings)
      as [r'|e'|] eqn:Hrun'; [| |done].
    + destruct (rounded_run_Return A fuel nodes edges' settings r' Hrun')
        as [Hvalid' _].
      rewrite <- Hrun, <- Hrun'. apply rounded_times; [|done].
      by apply (valid_Permutation nodes edges').
    + apply (rounded_Throw A Rounded.exact fuel fuel) in Hrun'.
      rewrite exact_simulateThermalNetwork in Hrun'.
      rewrite <- (edge_order_irrelevant fuel nodes edges edges' settings Hperm)
        in Hrun'.
      rewrite <- exact_simulateThermalNetwork in Hrun'.
      apply (rounded_Throw Rounded.exact A fuel fuel) in Hrun'. congruence.
Qed.

(** Two edges from A to B, of conductances 3 and 6, in the two orders. *)
Lemma edge_order_times_witness :
  times <$> Rounded.simulateThermalNetwork Rounded.binary64 1
              [node_free_0; node_fixed_tenth] [edge_AB (of_Z 3); edge_AB (of_Z 6)]
              settings_1_1 =
  times <$> Rounded.simulateThermalNetwork Rounded.binary64 1
              [node_free_0; node_fixed_tenth] [edge_AB (of_Z 6); edge_AB (of_Z 3)]
              settings_1_1.
Proof.
  apply (edge_order_times Rounded.binary64 1 [node_free_0; node_fixed_tenth]
           [edge_AB (of_Z 3); edge_AB (of_Z 6)] [edge_AB (of_Z 6); edge_AB (of_Z 3)]).
  apply perm_swap.
Defined.

(** * The editor: [App.tsx]

    The state of the component [ThermalApp] and the handlers that change the
    network.  Conventions.
    - The fields of a React Flow node or edge that this code neither reads
      nor writes are left out; the spread [...node] keeps the ones here.
    - [styleConfig] and [initialModel] are parsed from files that are not
      part of the sources; they are parameters.
    - [nodesRef.current] and [edgesRef.current] are the [nodes] and [edges]
      of the state: between two events the effects of lines 576-582 have
      run.
    - [jsonEditorValue] holds the model that [JSON.stringify] prints.
    - The result of [randomId] is an argument of the function that calls
      it.
    - The state of the parameter estimation (lines 563-570) and its
      handlers are left out, as are the handlers that pass on the changes
      of React Flow and the text of the JSON editor. *)

From stdpp Require Import pretty.

Module App.

Record XYPosition := { pos_x : number; pos_y : number }.

Record ThermalNodeData := {
  data_name : string;
  data_initialTemp : number;
  data_heatCapacity : number;
  data_isFixed : bool;
  data_fixedTemp : number;
  latestTemp : option number;
  label : string;
}.

Record ThermalEdgeData := { data_conductance : number }.

Record ModelNode := {
  mn_id : string;
  mn_name : string;
  mn_initialTemp : number;
  mn_heatCapacity : number;
  mn_isFixed : bool;
  mn_fixedTemp : number;
  mn_position : XYPosition;
}.

Record ModelEdge := {
  me_id : string;
  me_source : string;
  me_target : string;
  me_conductance : number;
}.

Record ModelFile := {
  model_nodes : list ModelNode;
  model_edges : list ModelEdge;
}.

Record StylePalette := {
  palette_background : string;
  palette_border : string;
  palette_text : string;
}.

Record NodeShape := {
  shape_padding : number;
  shape_borderRadius : number;
  shape_fontSize : number;
  shape_fontWeight : number;
  shape_boxShadow : string;
}.

(** [StyleConfig], without [cssVariables], which only [applyStyleConfig]
    reads. *)
Record StyleConfig := {
  node_default : StylePalette;
  node_fixed : StylePalette;
  node_shape : NodeShape;
  edge_stroke : string;
  edge_strokeWidth : number;
}.

Record NewEdgeConfig := {
  sourceId : string;
  targetId : string;
  cfg_conductance : number;
}.

(** The object that [createNodeStyle] returns. *)
Record NodeStyle := {
  background : string;
  border : string;
  color : string;
  borderRadius : number;
  padding : number;
  fontSize : number;
  fontWeight : number;
  boxShadow : string;
}.

(** [Position] of React Flow. *)
Inductive HandlePosition := PositionLeft | PositionTop | PositionRight | PositionBottom.

(** [Node<ThermalNodeData>] *)
Record FlowNode := {
  n_id : string;
  n_type : option string;
  n_position : XYPosition;
  n_data : ThermalNodeData;
  n_style : option NodeStyle;
  n_sourcePosition : option HandlePosition;
  n_targetPosition : option HandlePosition;
}.

(** The [markerEnd] and the [style] of an edge. *)
Record EdgeMarker := { marker_type : string; marker_color : string }.
Record EdgeStyle := { stroke : string; strokeWidth : number }.

(** [Edge<ThermalEdgeData>] *)
Record FlowEdge := {
  e_id : string;
  e_source : string;
  e_target : string;
  e_type : option string;
  e_data : option ThermalEdgeData;
  e_markerEnd : option EdgeMarker;
  e_style : option EdgeStyle;
}.

#[global] Instance XYPosition_eq_dec : EqDecision XYPosition.
Proof. solve_decision. Defined.

Section app.

Variable styleConfig : StyleConfig.
Variable initialModel : ModelFile.

Definition createNodeStyle (data : ThermalNodeData) : NodeStyle :=
  let palette := if data_isFixed data then node_fixed styleConfig
                 else node_default styleConfig in
  {| background := palette_background palette;
     border := "2px solid " +:+ palette_border palette;
     color := palette_text palette;
     borderRadius := shape_borderRadius (node_shape styleConfig);
     padding := shape_padding (node_shape styleConfig);
     fontSize := shape_fontSize (node_shape styleConfig);
     fontWeight := shape_fontWeight (node_shape styleConfig);
     boxShadow := shape_boxShadow (node_shape styleConfig) |}.

(** [{ ...data, label }] and the like. *)
Definition with_label (l : string) (data : ThermalNodeData) : ThermalNodeData :=
  {| data_name := data_name data; data_initialTemp := data_initialTemp data;
     data_heatCapacity := data_heatCapacity data; data_isFixed := data_isFixed data;
     data_fixedTemp := data_fixedTemp data; latestTemp := latestTemp data;
     label := l |}.

Definition with_latestTemp (t : option number) (data : ThermalNodeData)
    : ThermalNodeData :=
  {| data_name := data_name data; data_initialTemp := data_initialTemp data;
     data_heatCapacity := data_heatCapacity data; data_isFixed := data_isFixed data;
     data_fixedTemp := data_fixedTemp data; latestTemp := t;
     label := label data |}.

(** [{ ...node, data }] *)
Definition with_data (data : ThermalNodeData) (node : FlowNode) : FlowNode :=
  {| n_id := n_id node; n_type := n_type node; n_position := n_position node;
     n_data := data; n_style := n_style node;
     n_sourcePosition := n_sourcePosition node;
     n_targetPosition := n_targetPosition node |}.

Definition decorateNode (node : FlowNode) : FlowNode :=
  {| n_id := n_id node; n_type := n_type node; n_position := n_position node;
     n_data := with_label (data_name (n_data node)) (n_data node);
     n_style := Some (createNodeStyle (n_data node));
     n_sourcePosition := n_sourcePosition node;
     n_targetPosition := n_targetPosition node |}.

Definition buildNodesFromModel (modelNodes : list ModelNode) : list FlowNode :=
  (λ modelNode,
     decorateNode
       {| n_id := mn_id modelNode;
          n_type := Some "thermal";
          n_position := {| pos_x := pos_x (mn_position modelNode);
                           pos_y := pos_y (mn_position modelNode) |};
          n_data := {| data_name := mn_name modelNode;
                       data_initialTemp := mn_initialTemp modelNode;
                       data_heatCapacity := mn_heatCapacity modelNode;
                       data_isFixed := mn_isFixed modelNode;
                       data_fixedTemp := mn_fixedTemp modelNode;
                       latestTemp := None;
                       label := mn_name modelNode |};
          n_style := None;
          n_sourcePosition := Some PositionLeft;
          n_targetPosition := Some PositionRight |}) <$> modelNodes.

(** [createEdge]; [random] is what [randomId('edge')] gives when it is
    called, that is when [id] is [undefined]. *)
Definition createEdge (random : string) (source target : string)
    (conductance : number) (id : option string) : FlowEdge :=
  {| e_id := default random id;
     e_source := source;
     e_target := target;
     e_type := Some "thermal";
     e_data := Some {| data_conductance := conductance |};
     e_markerEnd := Some {| marker_type := "arrowclosed";
                            marker_color := edge_stroke styleConfig |};
     e_style := Some {| stroke := edge_stroke styleConfig;
                        strokeWidth := edge_strokeWidth styleConfig |} |}.

Definition buildEdgesFromModel (modelEdges : list ModelEdge) : list FlowEdge :=
  (λ modelEdge,
     createEdge EmptyString (me_source modelEdge) (me_target modelEdge)
       (me_conductance modelEdge) (Some (me_id modelEdge))) <$> modelEdges.

(** [edge.data?.conductance ?? 0] *)
Definition conductance_of (edge : FlowEdge) : number :=
  default zero (data_conductance <$> e_data edge).

Definition buildModelFromState (nodes : list FlowNode) (edges : list FlowEdge)
    : ModelFile :=
  {| model_nodes :=
       (λ node, {| mn_id := n_id node;
                   mn_name := data_name (n_data node);
                   mn_initialTemp := data_initialTemp (n_data node);
                   mn_heatCapacity := data_heatCapacity (n_data node);
                   mn_isFixed := data_isFixed (n_data node);
                   mn_fixedTemp := data_fixedTemp (n_data node);
                   mn_position := {| pos_x := pos_x (n_position node);
                                     pos_y := pos_y (n_position node) |} |})
         <$> nodes;
     model_edges :=
       (λ edge, {| me_id := e_id edge; me_source := e_source edge;
                   me_target := e_target edge;
                   me_conductance := conductance_of edge |}) <$> edges |}.

Definition clearNodeTemperature (node : FlowNode) : FlowNode :=
  match latestTemp (n_data node) with
  | None => node
  | Some _ => decorateNode (with_data (with_latestTemp None (n_data node)) node)
  end.

(** A string is truthy when it is not empty. *)
Definition truthy (s : string) : bool := bool_decide (s ≠ EmptyString).

Definition deriveEdgeDefaults (nodes : list FlowNode) (previous : option NewEdgeConfig)
    : NewEdgeConfig :=
  let ids := n_id <$> nodes in
  let conductance := default (of_Z 1) (cfg_conductance <$> previous) in
  match ids with
  | [] =>
      {| sourceId := EmptyString; targetId := EmptyString;
         cfg_conductance := conductance |}
  | [id0] => {| sourceId := id0; targetId := id0; cfg_conductance := conductance |}
  | id0 :: _ =>
      let source :=
        match previous with
        | Some p => if bool_decide (sourceId p ∈ ids) then sourceId p else id0
        | None => id0
        end in
      let candidateTargets := filter (λ id, id ≠ source) ids in
      let targetCandidate :=
        match previous with
        | Some p =>
            if bool_decide (targetId p ∈ ids) && bool_decide (targetId p ≠ source)
            then targetId p
            else default id0 (head candidateTargets)
        | None => default id0 (head candidateTargets)
        end in
      let target :=
        match head candidateTargets with
        | Some candidate =>
            if bool_decide (targetCandidate = source) && truthy candidate
            then candidate else targetCandidate
        | None => targetCandidate
        end in
      {| sourceId := source; targetId := target; cfg_conductance := conductance |}
  end.

(** ** The state of [ThermalApp] and its handlers *)

(** The state that the handlers below read and write.  [nodeIdCounter] is a
    whole number, and [String] of it its decimal digits. *)
Record AppState := {
  nodes : list FlowNode;
  edges : list FlowEdge;
  simulationSettings : SimulationSettings;
  simulationResult : option SimulationResult;
  errorMessage : string;
  jsonEditorValue : ModelFile;
  jsonEditorError : string;
  newEdgeConfig : NewEdgeConfig;
  nodeIdCounter : N;
}.

(** *** [computeNextNodeCounter]

    The pattern [/node-(\d+)/u] is matched on bytes: its characters are
    ASCII, and an ASCII byte of a UTF-8 string is an ASCII character.  The
    integers are exact, as binary64 has them below 2^53. *)

(** [\d] under the flag [u]: a digit of ASCII. *)
Definition is_digit (c : Ascii.ascii) : bool :=
  (48 <=? Ascii.N_of_ascii c)%N && (Ascii.N_of_ascii c <=? 57)%N.

(** What [\d+] takes at the start of [s]: the longest run of digits. *)
Fixpoint digits (s : string) : string :=
  match s with
  | String c rest => if is_digit c then String c (digits rest) else EmptyString
  | EmptyString => EmptyString
  end.

(** [s] without [prefix], when it starts with it. *)
Fixpoint strip_prefix (prefix s : string) : option string :=
  match prefix, s with
  | EmptyString, _ => Some s
  | String a prefix', String b s' =>
      if Ascii.eqb a b then strip_prefix prefix' s' else None
  | String _ _, EmptyString => None
  end.

(** [pattern.exec(id)]: the group of the leftmost match, [None] for
    [null]. *)
Fixpoint exec (s : string) : option string :=
  match s with
  | EmptyString => None
  | String _ rest =>
      match digits <$> strip_prefix "node-" s with
      | Some (String d ds) => Some (String d ds)
      | _ => exec rest
      end
  end.

(** [Number.parseInt(s, 10)] on a run of digits; [Number.isFinite] holds of
    the integer that it gives. *)
Fixpoint parseInt_from (value : N) (s : string) : N :=
  match s with
  | String c rest => parseInt_from (value * 10 + (Ascii.N_of_ascii c - 48))%N rest
  | EmptyString => value
  end.

Definition parseInt (s : string) : N := parseInt_from 0 s.

Definition computeNextNodeCounter (nodes : list FlowNode) : N :=
  let max :=
    foldl (λ max node,
             match exec (n_id node) with
             | None => max
             | Some group => N.max max (parseInt group)
             end) 0%N nodes in
  (max + 1)%N.

(** [UI_TEXT.errorUnexpected] *)
Definition errorUnexpected : string :=
  "シミュレーション中に予期しないエラーが発生しました。".

(** What the handlers that change the network do to the state: [setNodes],
    [setEdges], [syncModel], [setSimulationResult(null)] and
    [setErrorMessage('')]. *)
Definition edited (nextNodes : list FlowNode) (nextEdges : list FlowEdge)
    (config : NewEdgeConfig) (counter : N) (st : AppState) : AppState :=
  {| nodes := nextNodes;
     edges := nextEdges;
     simulationSettings := simulationSettings st;
     simulationResult := None;
     errorMessage := EmptyString;
     jsonEditorValue := buildModelFromState nextNodes nextEdges;
     jsonEditorError := EmptyString;
     newEdgeConfig := config;
     nodeIdCounter := counter |}.

Definition handleAddNode (st : AppState) : AppState :=
  let suffix := nodeIdCounter st in
  let newNode :=
    decorateNode
      {| n_id := "node-" +:+ pretty suffix;
         n_type := Some "thermal";
         n_position :=
           {| pos_x := of_Z (Z.of_nat (length (nodes st)) * 160);
              pos_y := of_Z (80 + Z.of_nat (length (nodes st)) * 40) |};
         n_data := {| data_name := "Node " +:+ pretty suffix;
                      data_initialTemp := of_Z 20;
                      data_heatCapacity := of_Z 100;
                      data_isFixed := false;
                      data_fixedTemp := of_Z 20;
                      latestTemp := None;
                      label := "Node " +:+ pretty suffix |};
         n_style := None;
         n_sourcePosition := Some PositionLeft;
         n_targetPosition := Some PositionRight |} in
  let nextNodes := nodes st ++ [newNode] in
  edited nextNodes (edges st)
    (deriveEdgeDefaults nextNodes (Some (newEdgeConfig st))) (suffix + 1)%N st.

Definition handleRemoveNode (nodeId : string) (st : AppState) : AppState :=
  let nextNodes :=
    clearNodeTemperature <$> filter (λ node, n_id node ≠ nodeId) (nodes st) in
  let nextEdges :=
    filter (λ edge, e_source edge ≠ nodeId ∧ e_target edge ≠ nodeId) (edges st) in
  edited nextNodes nextEdges
    (deriveEdgeDefaults nextNodes (Some (newEdgeConfig st))) (nodeIdCounter st) st.

(** A key of [ThermalNodeData] with a value for it. *)
Inductive FieldChange :=
  | ChangeName (value : string)
  | ChangeInitialTemp (value : number)
  | ChangeHeatCapacity (value : number)
  | ChangeIsFixed (value : bool)
  | ChangeFixedTemp (value : number)
  | ChangeLatestTemp (value : option number)
  | ChangeLabel (value : string).

(** [{ ...node.data, [key]: value }], with [latestTemp] reset unless it is
    the key. *)
Definition changed_data (change : FieldChange) (data : ThermalNodeData)
    : ThermalNodeData :=
  {| data_name := match change with ChangeName v => v | _ => data_name data end;
     data_initialTemp :=
       match change with ChangeInitialTemp v => v | _ => data_initialTemp data end;
     data_heatCapacity :=
       match change with ChangeHeatCapacity v => v | _ => data_heatCapacity data end;
     data_isFixed := match change with ChangeIsFixed v => v | _ => data_isFixed data end;
     data_fixedTemp :=
       match change with ChangeFixedTemp v => v | _ => data_fixedTemp data end;
     latestTemp := match change with ChangeLatestTemp v => v | _ => None end;
     label := match change with ChangeLabel v => v | _ => label data end |}.

(** [handleNodeFieldChange]: it leaves [newEdgeConfig] as it is. *)
Definition handleNodeFieldChange (nodeId : string) (change : FieldChange)
    (st : AppState) : AppState :=
  let next :=
    (λ node, if bool_decide (n_id node ≠ nodeId) then node
             else decorateNode (with_data (changed_data change (n_data node)) node))
      <$> nodes st in
  edited next (edges st) (newEdgeConfig st) (nodeIdCounter st) st.

(** [{ ...edge, data: { conductance: value } }] *)
Definition with_conductance (value : number) (edge : FlowEdge) : FlowEdge :=
  {| e_id := e_id edge; e_source := e_source edge; e_target := e_target edge;
     e_type := e_type edge; e_data := Some {| data_conductance := value |};
     e_markerEnd := e_markerEnd edge; e_style := e_style edge |}.

Definition handleEdgeConductanceChange (edgeId : string) (value : number)
    (st : AppState) : AppState :=
  let nextEdges :=
    (λ edge, if bool_decide (e_id edge = edgeId) then with_conductance value edge
             else edge) <$> edges st in
  let nextNodes := clearNodeTemperature <$> nodes st in
  edited nextNodes nextEdges (newEdgeConfig st) (nodeIdCounter st) st.

Definition handleRemoveEdge (edgeId : string) (st : AppState) : AppState :=
  let nextEdges := filter (λ edge, e_id edge ≠ edgeId) (edges st) in
  let nextNodes := clearNodeTemperature <$> nodes st in
  edited nextNodes nextEdges (newEdgeConfig st) (nodeIdCounter st) st.

(** [edges.some(edge => edge.source === source && edge.target === target)] *)
Definition connected (source target : string) (edges : list FlowEdge) : bool :=
  bool_decide (Exists (λ edge, e_source edge = source ∧ e_target edge = target) edges).

(** [{ ...prev, conductance: 1 }] and the like. *)
Definition with_cfg_conductance (value : number) (config : NewEdgeConfig)
    : NewEdgeConfig :=
  {| sourceId := sourceId config; targetId := targetId config;
     cfg_conductance := value |}.

Definition handleAddEdge (random : string) (st : AppState) : AppState :=
  let config := newEdgeConfig st in
  if negb (truthy (sourceId config)) || negb (truthy (targetId config))
     || bool_decide (sourceId config = targetId config)
  then st
  else if connected (sourceId config) (targetId config) (edges st) then st
  else
    let nextEdges :=
      edges st ++ [createEdge random (sourceId config) (targetId config)
                     (cfg_conductance config) None] in
    let nextNodes := clearNodeTemperature <$> nodes st in
    edited nextNodes nextEdges (with_cfg_conductance (of_Z 1) config)
      (nodeIdCounter st) st.

(** [Connection] of React Flow, the two fields that are read; [null] is
    [None]. *)
Record Connection := {
  conn_source : option string;
  conn_target : option string;
}.

Definition handleConnect (random : string) (connection : Connection)
    (st : AppState) : AppState :=
  match conn_source connection, conn_target connection with
  | Some source, Some target =>
      if negb (truthy source) || negb (truthy target) || bool_decide (source = target)
      then st
      else if connected source target (edges st) then st
      else
        let nextEdges := edges st ++ [createEdge random source target (of_Z 1) None] in
        let nextNodes := clearNodeTemperature <$> nodes st in
        edited nextNodes nextEdges
          (deriveEdgeDefaults nextNodes
             (Some {| sourceId := source; targetId := target;
                      cfg_conductance := cfg_conductance (newEdgeConfig st) |}))
          (nodeIdCounter st) st
  | _, _ => st
  end.

(** The [onChange] of the two selects and of the conductance input of the
    edge form (lines 1271-1317), from the value chosen or parsed. *)
Definition selectSource (value : string) (st : AppState) : AppState :=
  {| nodes := nodes st; edges := edges st;
     simulationSettings := simulationSettings st;
     simulationResult := simulationResult st; errorMessage := errorMessage st;
     jsonEditorValue := jsonEditorValue st; jsonEditorError := jsonEditorError st;
     newEdgeConfig :=
       {| sourceId := value; targetId := targetId (newEdgeConfig st);
          cfg_conductance := cfg_conductance (newEdgeConfig st) |};
     nodeIdCounter := nodeIdCounter st |}.

Definition selectTarget (value : string) (st : AppState) : AppState :=
  {| nodes := nodes st; edges := edges st;
     simulationSettings := simulationSettings st;
     simulationResult := simulationResult st; errorMessage := errorMessage st;
     jsonEditorValue := jsonEditorValue st; jsonEditorError := jsonEditorError st;
     newEdgeConfig :=
       {| sourceId := sourceId (newEdgeConfig st); targetId := value;
          cfg_conductance := cfg_conductance (newEdgeConfig st) |};
     nodeIdCounter := nodeIdCounter st |}.

Definition inputConductance (parsed : number) (st : AppState) : AppState :=
  {| nodes := nodes st; edges := edges st;
     simulationSettings := simulationSettings st;
     simulationResult := simulationResult st; errorMessage := errorMessage st;
     jsonEditorValue := jsonEditorValue st; jsonEditorError := jsonEditorError st;
     newEdgeConfig := with_cfg_conductance parsed (newEdgeConfig st);
     nodeIdCounter := nodeIdCounter st |}.

(** A key of [SimulationSettings]. *)
Inductive SettingKey := KeyTimeStep | KeyTotalTime.

Definition handleSimulationSettingChange (key : SettingKey) (value : number)
    (st : AppState) : AppState :=
  {| nodes := nodes st; edges := edges st;
     simulationSettings :=
       match key with
       | KeyTimeStep =>
           {| timeStep := value; totalTime := totalTime (simulationSettings st) |}
       | KeyTotalTime =>
           {| timeStep := timeStep (simulationSettings st); totalTime := value |}
       end;
     simulationResult := simulationResult st; errorMessage := errorMessage st;
     jsonEditorValue := jsonEditorValue st; jsonEditorError := jsonEditorError st;
     newEdgeConfig := newEdgeConfig st;
     nodeIdCounter := nodeIdCounter st |}.

(** The arguments that [runSimulation] passes to the solver. *)
Definition modelNodes (nodes : list FlowNode) : list SimulationNode :=
  (λ node, {| node_id := n_id node;
              node_name := data_name (n_data node);
              initialTemp := data_initialTemp (n_data node);
              heatCapacity := data_heatCapacity (n_data node);
              isFixed := data_isFixed (n_data node);
              fixedTemp := data_fixedTemp (n_data node) |}) <$> nodes.

Definition modelEdges (edges : list FlowEdge) : list SimulationEdge :=
  (λ edge, {| edge_id := e_id edge; source := e_source edge;
              target := e_target edge; conductance := conductance_of edge |})
    <$> edges.

(** Lines 852-863: the node with the last temperature of its series. *)
Definition show_latest (result : SimulationResult) (node : FlowNode) : FlowNode :=
  match list_find (λ entry, nodeId entry = n_id node) (series result) with
  | None => clearNodeTemperature node
  | Some (_, entry) =>
      decorateNode
        (with_data (with_latestTemp (last (temperatures entry)) (n_data node)) node)
  end.

(** [runSimulation]; [None] when the fuel of the solver runs out. *)
Definition runSimulation (fuel : nat) (st : AppState) : option AppState :=
  match simulateThermalNetwork fuel (modelNodes (nodes st)) (modelEdges (edges st))
          (simulationSettings st) with
  | Return result =>
      let nextNodes := show_latest result <$> nodes st in
      Some {| nodes := nextNodes; edges := edges st;
              simulationSettings := simulationSettings st;
              simulationResult := Some result;
              errorMessage := EmptyString;
              jsonEditorValue := buildModelFromState nextNodes (edges st);
              jsonEditorError := EmptyString;
              newEdgeConfig := newEdgeConfig st;
              nodeIdCounter := nodeIdCounter st |}
  | Throw error =>
      let nextNodes := clearNodeTemperature <$> nodes st in
      Some {| nodes := nextNodes; edges := edges st;
              simulationSettings := simulationSettings st;
              simulationResult := None;
              errorMessage :=
                match error with
                | SimulationError message => message
                | TypeError => errorUnexpected
                end;
              jsonEditorValue := buildModelFromState nextNodes (edges st);
              jsonEditorError := EmptyString;
              newEdgeConfig := newEdgeConfig st;
              nodeIdCounter := nodeIdCounter st |}
  | Timeout => None
  end.

Definition resetToInitialModel (st : AppState) : AppState :=
  let defaultNodes := buildNodesFromModel (model_nodes initialModel) in
  let defaultEdges := buildEdgesFromModel (model_edges initialModel) in
  edited defaultNodes defaultEdges (deriveEdgeDefaults defaultNodes None)
    (computeNextNodeCounter defaultNodes) st.

(** The state of the first render: the initial values of lines 547-573. *)
Definition initialState : AppState :=
  {| nodes := buildNodesFromModel (model_nodes initialModel);
     edges := buildEdgesFromModel (model_edges initialModel);
     simulationSettings := {| timeStep := of_Z 1; totalTime := of_Z 120 |};
     simulationResult := None;
     errorMessage := EmptyString;
     jsonEditorValue := initialModel;
     jsonEditorError := EmptyString;
     newEdgeConfig :=
       deriveEdgeDefaults (buildNodesFromModel (model_nodes initialModel)) None;
     nodeIdCounter :=
       computeNextNodeCounter (buildNodesFromModel (model_nodes initialModel)) |}.

(** ** Import and export of a model *)

(** Building the canvas from a model file and reading the model back gives
    the file's model: [buildModelFromState] undoes [buildNodesFromModel] and
    [buildEdgesFromModel]. *)
Theorem model_round_trip (model : ModelFile) :
  buildModelFromState (buildNodesFromModel (model_nodes model))
    (buildEdgesFromModel (model_edges model)) = model.
Proof.
  destruct model as [modelNodes modelEdges].
  unfold buildModelFromState, buildNodesFromModel, buildEdgesFromModel.
  cbn [model_nodes model_edges]. rewrite <-!list_fmap_compose. f_equal.
  - rewrite <-(list_fmap_id modelNodes) at 2. apply list_fmap_ext.
    intros _ [? ? ? ? ? ? [? ?]] _. reflexivity.
  - rewrite <-(list_fmap_id modelEdges) at 2. apply list_fmap_ext.
    intros _ [? ? ? ?] _. reflexivity.
Qed.

(** ** The defaults of the edge form *)

(** Lines 340-345: the source and the [targetCandidate] when there are two
    nodes or more. *)
Definition chosen_source (ids : list string) (previous : option NewEdgeConfig)
    (id0 : string) : string :=
  match previous with
  | Some p => if bool_decide (sourceId p ∈ ids) then sourceId p else id0
  | None => id0
  end.

Definition chosen_target (ids : list string) (previous : option NewEdgeConfig)
    (id0 : string) : string :=
  let source := chosen_source ids previous id0 in
  let candidateTargets := filter (λ id, id ≠ source) ids in
  match previous with
  | Some p =>
      if bool_decide (targetId p ∈ ids) && bool_decide (targetId p ≠ source)
      then targetId p
      else default id0 (head candidateTargets)
  | None => default id0 (head candidateTargets)
  end.

(** With two nodes or more, the target is [targetCandidate]: the test of
    line 347 never succeeds. *)
Lemma deriveEdgeDefaults_many nodes previous id0 id1 rest :
  n_id <$> nodes = id0 :: id1 :: rest →
  deriveEdgeDefaults nodes previous =
  {| sourceId := chosen_source (id0 :: id1 :: rest) previous id0;
     targetId := chosen_target (id0 :: id1 :: rest) previous id0;
     cfg_conductance := default (of_Z 1) (cfg_conductance <$> previous) |}.
Proof.
  intros Hids. unfold deriveEdgeDefaults, chosen_target. rewrite Hids.
  cbv zeta. fold (chosen_source (id0 :: id1 :: rest) previous id0).
  set (ids := id0 :: id1 :: rest). set (source := chosen_source ids previous id0).
  set (candidateTargets := filter (λ id, id ≠ source) ids).
  f_equal.
  destruct (head candidateTargets) as [candidate|] eqn:Hhead; [|done].
  assert (candidate ≠ source) as Hne.
  { apply head_Some_elem_of in Hhead.
    by apply list_elem_of_filter in Hhead as [? _]. }
  cbn [default].
  destruct previous as [p|].
  - destruct (bool_decide (targetId p ∈ ids) && bool_decide (targetId p ≠ source))
      eqn:Hvalid.
    + apply andb_true_iff in Hvalid as [_ Hvalid%bool_decide_eq_true].
      by rewrite bool_decide_eq_false_2.
    + by rewrite bool_decide_eq_false_2.
  - by rewrite bool_decide_eq_false_2.
Qed.

Lemma chosen_source_elem_of ids previous id0 :
  id0 ∈ ids → chosen_source ids previous id0 ∈ ids.
Proof.
  intros H0. unfold chosen_source. destruct previous as [p|]; [|done].
  by case_bool_decide.
Qed.

Lemma head_filter_elem_of (ids : list string) source id0 :
  id0 ∈ ids → default id0 (head (filter (λ id, id ≠ source) ids)) ∈ ids.
Proof.
  intros H0. destruct (head _) as [candidate|] eqn:Hhead; [|done].
  apply head_Some_elem_of in Hhead.
  by apply list_elem_of_filter in Hhead as [_ ?].
Qed.

Lemma chosen_target_elem_of ids previous id0 :
  id0 ∈ ids → chosen_target ids previous id0 ∈ ids.
Proof.
  intros H0. unfold chosen_target. cbv zeta.
  pose proof (head_filter_elem_of ids (chosen_source ids previous id0) id0 H0).
  destruct previous as [p|]; [|done].
  destruct (bool_decide (targetId p ∈ _) && _) eqn:Hvalid; [|done].
  by apply andb_true_iff in Hvalid as [Hvalid%bool_decide_eq_true _].
Qed.

(** The target is the source only if no id differs from the source. *)
Lemma chosen_target_source ids previous id0 :
  chosen_target ids previous id0 = chosen_source ids previous id0 →
  filter (λ id, id ≠ chosen_source ids previous id0) ids = [] ∧
  chosen_target ids previous id0 = id0.
Proof.
  unfold chosen_target. cbv zeta. set (source := chosen_source ids previous id0).
  intros Heq.
  assert (default id0 (head (filter (λ id, id ≠ source) ids)) = source →
          filter (λ id, id ≠ source) ids = []) as Hempty.
  { destruct (filter _ _) as [|candidate ?] eqn:Hfilter; [done|].
    cbn. intros ->.
    assert (source ∈ filter (λ id, id ≠ source) ids) as Hin by (rewrite Hfilter; left).
    by apply list_elem_of_filter in Hin as [? _]. }
  destruct previous as [p|].
  - destruct (bool_decide (targetId p ∈ _) && _) eqn:Hvalid.
    + by apply andb_true_iff in Hvalid as [_ Hvalid%bool_decide_eq_true].
    + split; [by apply Hempty|]. by rewrite (Hempty Heq).
  - split; [by apply Hempty|]. by rewrite (Hempty Heq).
Qed.

(** Without a node the form proposes nothing; with one or more it proposes
    nodes of the canvas. *)
Lemma deriveEdgeDefaults_cases nodes previous :
  (nodes = [] ∧ sourceId (deriveEdgeDefaults nodes previous) = EmptyString ∧
   targetId (deriveEdgeDefaults nodes previous) = EmptyString) ∨
  (sourceId (deriveEdgeDefaults nodes previous) ∈ n_id <$> nodes ∧
   targetId (deriveEdgeDefaults nodes previous) ∈ n_id <$> nodes).
Proof.
  destruct (n_id <$> nodes) as [|id0 [|id1 rest]] eqn:Hids.
  - left. by destruct nodes.
  - right. unfold deriveEdgeDefaults. rewrite Hids. cbn.
    split; by apply list_elem_of_singleton.
  - right. rewrite (deriveEdgeDefaults_many nodes previous id0 id1 rest Hids).
    cbn [sourceId targetId].
    assert (id0 ∈ id0 :: id1 :: rest) as H0 by left.
    split; [by apply chosen_source_elem_of|by apply chosen_target_elem_of].
Qed.

(** As soon as there is a node, the form proposes two nodes of the canvas,
    whatever was chosen before: a choice that names a node that is gone is
    replaced. *)
Theorem deriveEdgeDefaults_ids nodes previous :
  nodes ≠ [] →
  sourceId (deriveEdgeDefaults nodes previous) ∈ n_id <$> nodes ∧
  targetId (deriveEdgeDefaults nodes previous) ∈ n_id <$> nodes.
Proof.
  intros Hnodes.
  destruct (deriveEdgeDefaults_cases nodes previous) as [[Hempty _]|Hids].
  - by destruct Hnodes.
  - exact Hids.
Qed.

(** When two nodes have different ids, the form proposes two different
    nodes, so that the button that adds the edge is enabled. *)
Theorem deriveEdgeDefaults_distinct nodes previous a b :
  a ∈ n_id <$> nodes → b ∈ n_id <$> nodes → a ≠ b →
  sourceId (deriveEdgeDefaults nodes previous) ≠
  targetId (deriveEdgeDefaults nodes previous).
Proof.
  intros Ha Hb Hab.
  destruct (n_id <$> nodes) as [|id0 [|id1 rest]] eqn:Hids.
  - by apply elem_of_nil in Ha.
  - apply list_elem_of_singleton in Ha, Hb. congruence.
  - rewrite (deriveEdgeDefaults_many nodes previous id0 id1 rest Hids).
    cbn [sourceId targetId]. intros Heq. symmetry in Heq.
    apply chosen_target_source in Heq as [Hempty _].
    set (source := chosen_source _ _ _) in *.
    assert (∃ c, c ∈ id0 :: id1 :: rest ∧ c ≠ source) as (c & Hc & Hcs).
    { destruct (decide (a = source)) as [->|]; [by exists b|by exists a]. }
    assert (c ∈ filter (λ id, id ≠ source) (id0 :: id1 :: rest)) as Hin
      by by apply list_elem_of_filter.
    rewrite Hempty in Hin. by apply elem_of_nil in Hin.
Qed.

(** A choice of two different nodes of the canvas is kept. *)
Theorem deriveEdgeDefaults_keeps nodes config :
  sourceId config ∈ n_id <$> nodes → targetId config ∈ n_id <$> nodes →
  sourceId config ≠ targetId config →
  deriveEdgeDefaults nodes (Some config) = config.
Proof.
  intros Hs Ht Hst.
  destruct (n_id <$> nodes) as [|id0 [|id1 rest]] eqn:Hids.
  - by apply elem_of_nil in Hs.
  - apply list_elem_of_singleton in Hs, Ht. congruence.
  - rewrite (deriveEdgeDefaults_many nodes (Some config) id0 id1 rest Hids).
    unfold chosen_target, chosen_source. cbv zeta.
    rewrite (bool_decide_eq_true_2 _ Hs), (bool_decide_eq_true_2 _ Ht).
    rewrite bool_decide_eq_true_2 by done.
    by destruct config.
Qed.

(** Deriving the defaults again from what was derived changes nothing. *)
Theorem deriveEdgeDefaults_idempotent nodes previous :
  deriveEdgeDefaults nodes (Some (deriveEdgeDefaults nodes previous)) =
  deriveEdgeDefaults nodes previous.
Proof.
  destruct (n_id <$> nodes) as [|id0 [|id1 rest]] eqn:Hids.
  - unfold deriveEdgeDefaults. by rewrite Hids.
  - unfold deriveEdgeDefaults. by rewrite Hids.
  - rewrite (deriveEdgeDefaults_many nodes (Some _) id0 id1 rest Hids).
    rewrite (deriveEdgeDefaults_many nodes previous id0 id1 rest Hids).
    set (ids := id0 :: id1 :: rest).
    assert (id0 ∈ ids) as H0 by left.
    pose proof (chosen_source_elem_of ids previous id0 H0) as Hs.
    pose proof (chosen_target_elem_of ids previous id0 H0) as Ht.
    pose proof (chosen_target_source ids previous id0) as Hsame.
    set (s := chosen_source ids previous id0) in *.
    set (t := chosen_target ids previous id0) in *.
    unfold chosen_target, chosen_source. cbv zeta.
    cbn [sourceId targetId cfg_conductance fmap option_fmap option_map default].
    rewrite (bool_decide_eq_true_2 _ Hs), (bool_decide_eq_true_2 _ Ht).
    f_equal. destruct (decide (t = s)) as [Heq|Hne].
    + rewrite (bool_decide_eq_false_2 (t ≠ s)) by (intros H; by apply H).
      destruct (Hsame Heq) as [-> ->]. done.
    + by rewrite (bool_decide_eq_true_2 (t ≠ s)).
Qed.

(** ** Events *)

(** What the user can do to the network, with the arguments that the page
    passes to the handler. *)
Inductive Event :=
  | AddNode
  | RemoveNode (nodeId : string)
  | NodeFieldChange (nodeId : string) (change : FieldChange)
  | EdgeConductanceChange (edgeId : string) (value : number)
  | RemoveEdge (edgeId : string)
  | AddEdge (random : string)
  | Connect (random : string) (connection : Connection)
  | SelectSource (value : string)
  | SelectTarget (value : string)
  | InputConductance (parsed : number)
  | SimulationSettingChange (key : SettingKey) (value : number)
  | RunSimulation (fuel : nat)
  | ResetToInitialModel.

Definition handle (event : Event) (st : AppState) : option AppState :=
  match event with
  | AddNode => Some (handleAddNode st)
  | RemoveNode nodeId => Some (handleRemoveNode nodeId st)
  | NodeFieldChange nodeId change => Some (handleNodeFieldChange nodeId change st)
  | EdgeConductanceChange edgeId value =>
      Some (handleEdgeConductanceChange edgeId value st)
  | RemoveEdge edgeId => Some (handleRemoveEdge edgeId st)
  | AddEdge random => Some (handleAddEdge random st)
  | Connect random connection => Some (handleConnect random connection st)
  | SelectSource value => Some (selectSource value st)
  | SelectTarget value => Some (selectTarget value st)
  | InputConductance parsed => Some (inputConductance parsed st)
  | SimulationSettingChange key value =>
      Some (handleSimulationSettingChange key value st)
  | RunSimulation fuel => runSimulation fuel st
  | ResetToInitialModel => Some (resetToInitialModel st)
  end.

(** The ids of the nodes on the canvas. *)
Definition ids (st : AppState) : list string := n_id <$> nodes st.

(** What the page offers: a select lists the nodes of the canvas (lines
    1281-1285 and 1298-1302), the conductance typed in the form is passed
    on unless it is [NaN] (lines 1309-1316), and React Flow connects handles
    of nodes of the canvas. *)
Definition offered (event : Event) (st : AppState) : Prop :=
  match event with
  | SelectSource value | SelectTarget value => value ∈ ids st
  | InputConductance parsed => parsed ≠ NaN
  | Connect _ connection =>
      ∀ source target,
        conn_source connection = Some source →
        conn_target connection = Some target →
        source ∈ ids st ∧ target ∈ ids st
  | _ => True
  end.

(** The states that the events lead to from the first render. *)
Inductive reachable : AppState → Prop :=
  | reachable_initial : reachable initialState
  | reachable_step event st st' :
      reachable st → offered event st → handle event st = Some st' →
      reachable st'.

(** ** What the handlers keep *)

(** A node as [decorateNode] leaves it. *)
Definition decorated (node : FlowNode) : Prop :=
  label (n_data node) = data_name (n_data node) ∧
  n_style node = Some (createNodeStyle (n_data node)).

(** An edge between nodes of the canvas. *)
Definition attached (ids : list string) (edge : FlowEdge) : Prop :=
  e_source edge ∈ ids ∧ e_target edge ∈ ids.

(** An end of the edge form: no choice, or a node of the canvas. *)
Definition proposal_ok (ids : list string) (config : NewEdgeConfig) : Prop :=
  (sourceId config = EmptyString ∨ sourceId config ∈ ids) ∧
  (targetId config = EmptyString ∨ targetId config ∈ ids).

Definition no_dangling (st : AppState) : Prop :=
  Forall (attached (ids st)) (edges st) ∧ proposal_ok (ids st) (newEdgeConfig st).

(** The ordered pair of ends of an edge. *)
Definition ends (edge : FlowEdge) : string * string := (e_source edge, e_target edge).

(** No edge from a node to itself, and no two edges from the same node to
    the same node. *)
Definition simple (edges : list FlowEdge) : Prop :=
  Forall (λ edge, e_source edge ≠ e_target edge) edges ∧ NoDup (ends <$> edges).

Lemma Forall_filter_sub {A} (P Q : A → Prop) `{!∀ x, Decision (P x)} (l : list A) :
  Forall Q l → Forall Q (filter P l).
Proof.
  rewrite !Forall_forall. intros HQ x [_ Hx]%list_elem_of_filter. by apply HQ.
Qed.

Lemma decorateNode_decorated node : decorated (decorateNode node).
Proof. split; [done|]. cbn. f_equal. Qed.

Lemma clearNodeTemperature_decorated node :
  decorated node → decorated (clearNodeTemperature node).
Proof.
  intros H. unfold clearNodeTemperature.
  destruct (latestTemp (n_data node)); [apply decorateNode_decorated|done].
Qed.

Lemma show_latest_decorated result node :
  decorated node → decorated (show_latest result node).
Proof.
  intros H. unfold show_latest.
  destruct (list_find _ _) as [[? ?]|];
    [apply decorateNode_decorated|by apply clearNodeTemperature_decorated].
Qed.

Lemma buildNodesFromModel_decorated modelNodes :
  Forall decorated (buildNodesFromModel modelNodes).
Proof.
  unfold buildNodesFromModel. apply Forall_fmap, Forall_true.
  intros modelNode. apply decorateNode_decorated.
Qed.

Lemma handle_decorated event st st' :
  handle event st = Some st' →
  Forall decorated (nodes st) → Forall decorated (nodes st').
Proof.
  intros Hstep Hdec.
  assert (Forall decorated (clearNodeTemperature <$> nodes st)) as Hclear.
  { apply Forall_fmap. eapply Forall_impl; [done|].
    apply clearNodeTemperature_decorated. }
  destruct event; cbn in Hstep.
  all: try (injection Hstep as <-).
  - cbn. apply Forall_app. split; [done|]. apply Forall_singleton.
    apply decorateNode_decorated.
  - cbn. apply Forall_fmap. apply Forall_filter_sub.
    eapply Forall_impl; [done|]. apply clearNodeTemperature_decorated.
  - cbn. apply Forall_fmap. eapply Forall_impl; [done|].
    intros node Hnode. unfold compose. destruct (bool_decide (n_id node ≠ _)); [done|].
    apply decorateNode_decorated.
  - done.
  - done.
  - unfold handleAddEdge.
    repeat match goal with |- context [if ?c then _ else _] => destruct c end; done.
  - unfold handleConnect.
    destruct (conn_source connection), (conn_target connection); try done.
    repeat match goal with |- context [if ?c then _ else _] => destruct c end; done.
  - done.
  - done.
  - done.
  - done.
  - unfold runSimulation in Hstep.
    destruct (simulateThermalNetwork _ _ _ _); [| |done].
    + injection Hstep as <-. cbn. apply Forall_fmap.
      eapply Forall_impl; [done|]. apply show_latest_decorated.
    + by injection Hstep as <-.
  - cbn. apply buildNodesFromModel_decorated.
Qed.

(** The label of every node is its name and its style is the one of its
    kind, fixed or free, in every state that the events lead to. *)
Theorem nodes_stay_decorated st :
  reachable st → Forall decorated (nodes st).
Proof.
  induction 1 as [|event st st' _ IH _ Hstep].
  - apply buildNodesFromModel_decorated.
  - by eapply handle_decorated.
Qed.

(** *** The ids of the nodes *)

Lemma fmap_n_id (f : FlowNode → FlowNode) (l : list FlowNode) :
  (∀ node, n_id (f node) = n_id node) → n_id <$> (f <$> l) = n_id <$> l.
Proof.
  intros Hf. rewrite <-list_fmap_compose. apply list_fmap_ext.
  intros _ node _. apply Hf.
Qed.

Lemma n_id_clearNodeTemperature node : n_id (clearNodeTemperature node) = n_id node.
Proof. unfold clearNodeTemperature. by destruct (latestTemp _). Qed.

Lemma n_id_show_latest result node : n_id (show_latest result node) = n_id node.
Proof.
  unfold show_latest.
  destruct (list_find _ _) as [[? ?]|]; [done|apply n_id_clearNodeTemperature].
Qed.

Lemma ids_clear (l : list FlowNode) : n_id <$> (clearNodeTemperature <$> l) = n_id <$> l.
Proof. apply fmap_n_id, n_id_clearNodeTemperature. Qed.

Lemma ids_filter nodeId (l : list FlowNode) :
  n_id <$> filter (λ node, n_id node ≠ nodeId) l =
  filter (λ id, id ≠ nodeId) (n_id <$> l).
Proof.
  induction l as [|node l IH]; [done|].
  rewrite fmap_cons, !filter_cons. cbv beta.
  destruct (decide (n_id node ≠ nodeId)); [by rewrite fmap_cons, IH|done].
Qed.

Lemma ids_buildNodesFromModel modelNodes :
  n_id <$> buildNodesFromModel modelNodes = mn_id <$> modelNodes.
Proof.
  unfold buildNodesFromModel. rewrite <-list_fmap_compose. by apply list_fmap_ext.
Qed.

(** What an event does to the ids of the nodes: only adding and removing a
    node and the reset change them. *)
Lemma handle_ids event st st' :
  handle event st = Some st' →
  ids st' =
  match event with
  | AddNode => ids st ++ ["node-" +:+ pretty (nodeIdCounter st)]
  | RemoveNode nodeId => filter (λ id, id ≠ nodeId) (ids st)
  | ResetToInitialModel => mn_id <$> model_nodes initialModel
  | _ => ids st
  end.
Proof.
  intros Hstep. unfold ids. destruct event; cbn in Hstep.
  all: try (injection Hstep as <-).
  - cbn. by rewrite fmap_app.
  - cbn. by rewrite ids_clear, ids_filter.
  - cbn. apply fmap_n_id. intros node. by destruct (bool_decide _).
  - cbn. apply ids_clear.
  - cbn. apply ids_clear.
  - unfold handleAddEdge.
    repeat match goal with |- context [if ?c then _ else _] => destruct c end;
      try done.
    cbn. apply ids_clear.
  - unfold handleConnect.
    destruct (conn_source connection), (conn_target connection); try done.
    repeat match goal with |- context [if ?c then _ else _] => destruct c end;
      try done.
    cbn. apply ids_clear.
  - done.
  - done.
  - done.
  - done.
  - unfold runSimulation in Hstep.
    destruct (simulateThermalNetwork _ _ _ _); [| |done].
    + injection Hstep as <-. cbn. apply fmap_n_id, n_id_show_latest.
    + injection Hstep as <-. cbn. apply ids_clear.
  - cbn. apply ids_buildNodesFromModel.
Qed.

(** *** Edges between nodes of the canvas *)

Lemma deriveEdgeDefaults_proposal nodes previous :
  proposal_ok (n_id <$> nodes) (deriveEdgeDefaults nodes previous).
Proof.
  destruct (deriveEdgeDefaults_cases nodes previous) as [(_ & Hs & Ht)|[Hs Ht]].
  - split; by left.
  - split; by right.
Qed.

(** The model loaded at the start has no edge to a node that it lacks. *)
Definition model_attached (model : ModelFile) : Prop :=
  Forall (λ modelEdge,
            me_source modelEdge ∈ mn_id <$> model_nodes model ∧
            me_target modelEdge ∈ mn_id <$> model_nodes model)
         (model_edges model).

Lemma buildEdgesFromModel_attached model :
  model_attached model →
  Forall (attached (mn_id <$> model_nodes model))
         (buildEdgesFromModel (model_edges model)).
Proof.
  intros H. unfold buildEdgesFromModel. apply Forall_fmap.
  eapply Forall_impl; [apply H|]. by intros modelEdge.
Qed.

Lemma truthy_spec s : truthy s = true ↔ s ≠ EmptyString.
Proof. apply bool_decide_eq_true. Qed.

Lemma handle_no_dangling event st st' :
  model_attached initialModel →
  offered event st → handle event st = Some st' →
  no_dangling st → no_dangling st'.
Proof.
  intros Hmodel Hoffered Hstep [Hedges Hconfig].
  pose proof (handle_ids event st st' Hstep) as Hids.
  unfold no_dangling. rewrite Hids. clear Hids. unfold offered, ids in *.
  destruct event; cbn in Hstep.
  all: try (injection Hstep as <-).
  - (* AddNode *)
    split.
    + eapply Forall_impl; [done|]. intros edge [? ?].
      split; apply elem_of_app; by left.
    + cbn [newEdgeConfig handleAddNode edited].
      pose proof (deriveEdgeDefaults_proposal
                    (nodes (handleAddNode st)) (Some (newEdgeConfig st))) as H.
      cbn [nodes handleAddNode edited] in H. by rewrite fmap_app in H.
  - (* RemoveNode *)
    split.
    + cbn [edges handleRemoveNode edited]. apply Forall_forall.
      intros edge [[Hs Ht] Hedge]%list_elem_of_filter.
      rewrite Forall_forall in Hedges. destruct (Hedges edge Hedge).
      split; by apply list_elem_of_filter.
    + cbn [newEdgeConfig handleRemoveNode edited].
      rewrite <-ids_filter, <-ids_clear. apply deriveEdgeDefaults_proposal.
  - done.
  - (* EdgeConductanceChange *)
    split; [|done]. cbn [edges handleEdgeConductanceChange edited].
    apply Forall_fmap. eapply Forall_impl; [done|].
    intros edge Hedge. unfold compose. by destruct (bool_decide _).
  - (* RemoveEdge *)
    split; [|done]. cbn [edges handleRemoveEdge edited]. by apply Forall_filter_sub.
  - (* AddEdge *)
    unfold handleAddEdge.
    destruct (negb (truthy (sourceId (newEdgeConfig st))) || _ || _) eqn:Hguard;
      [done|].
    destruct (connected _ _ _); [done|].
    apply orb_false_iff in Hguard as [Hguard _].
    apply orb_false_iff in Hguard as [Hs Ht].
    apply negb_false_iff, truthy_spec in Hs, Ht.
    destruct Hconfig as [[?|Hsource] [?|Htarget]]; try done.
    split; [|by split; right].
    cbn [edges edited]. apply Forall_app. split; [done|].
    by apply Forall_singleton.
  - (* Connect *)
    unfold handleConnect. cbn in Hoffered.
    destruct (conn_source connection) as [source|]; [|done].
    destruct (conn_target connection) as [target|]; [|done].
    destruct (_ || _ || _); [done|].
    destruct (connected _ _ _); [done|].
    destruct (Hoffered source target eq_refl eq_refl) as [Hs Ht].
    split.
    + cbn [edges edited]. apply Forall_app. split; [done|].
      by apply Forall_singleton.
    + cbn [newEdgeConfig edited]. rewrite <-ids_clear.
      apply deriveEdgeDefaults_proposal.
  - (* SelectSource *)
    split; [done|]. destruct Hconfig as [_ Htarget]. split; [by right|done].
  - (* SelectTarget *)
    split; [done|]. destruct Hconfig as [Hsource _]. split; [done|by right].
  - done.
  - done.
  - (* RunSimulation *)
    unfold runSimulation in Hstep.
    destruct (simulateThermalNetwork _ _ _ _); [| |done]; by injection Hstep as <-.
  - (* ResetToInitialModel *)
    split.
    + by apply buildEdgesFromModel_attached.
    + cbn [newEdgeConfig resetToInitialModel edited].
      rewrite <-ids_buildNodesFromModel. apply deriveEdgeDefaults_proposal.
Qed.

Lemma initialState_no_dangling :
  model_attached initialModel → no_dangling initialState.
Proof.
  intros Hmodel. split.
  - unfold ids. cbn [nodes edges initialState]. rewrite ids_buildNodesFromModel.
    by apply buildEdgesFromModel_attached.
  - apply deriveEdgeDefaults_proposal.
Qed.

Lemma reachable_no_dangling st :
  model_attached initialModel → reachable st → no_dangling st.
Proof.
  intros Hmodel. induction 1 as [|event st st' _ IH Hoffered Hstep].
  - by apply initialState_no_dangling.
  - by eapply handle_no_dangling.
Qed.

(** *** No loop and no second edge *)

(** The model loaded at the start has no edge from a node to itself and no
    two edges from the same node to the same node. *)
Definition model_simple (model : ModelFile) : Prop :=
  Forall (λ modelEdge, me_source modelEdge ≠ me_target modelEdge) (model_edges model) ∧
  NoDup ((λ modelEdge, (me_source modelEdge, me_target modelEdge))
           <$> model_edges model).

Lemma connected_false source target (l : list FlowEdge) :
  connected source target l = false → (source, target) ∉ ends <$> l.
Proof.
  unfold connected. intros Hfalse%bool_decide_eq_false Hin.
  apply Hfalse. apply list_elem_of_fmap in Hin as (edge & Hends & Hedge).
  apply Exists_exists. exists edge. split; [done|].
  unfold ends in Hends. by injection Hends as -> ->.
Qed.

Lemma simple_snoc (l : list FlowEdge) edge :
  simple l → e_source edge ≠ e_target edge → ends edge ∉ ends <$> l →
  simple (l ++ [edge]).
Proof.
  intros [Hloop Hdup] Hedge Hnew. split.
  - apply Forall_app. split; [done|]. by apply Forall_singleton.
  - rewrite fmap_app. apply NoDup_app. split; [done|]. split.
    + intros pair Hin Hin'. apply list_elem_of_singleton in Hin'. by subst pair.
    + apply NoDup_singleton.
Qed.

Lemma simple_filter (P : FlowEdge → Prop) `{!∀ edge, Decision (P edge)}
    (l : list FlowEdge) :
  simple l → simple (filter P l).
Proof.
  intros [Hloop Hdup]. split; [by apply Forall_filter_sub|].
  eapply sublist_NoDup; [done|]. apply fmap_sublist, sublist_filter.
Qed.

Lemma simple_fmap (f : FlowEdge → FlowEdge) (l : list FlowEdge) :
  (∀ edge, ends (f edge) = ends edge) → simple l → simple (f <$> l).
Proof.
  intros Hf [Hloop Hdup]. split.
  - apply Forall_fmap. eapply Forall_impl; [done|]. intros edge Hedge.
    unfold compose. specialize (Hf edge). unfold ends in Hf. by injection Hf as -> ->.
  - rewrite <-list_fmap_compose.
    by rewrite (list_fmap_ext (ends ∘ f) ends l) by (intros; apply Hf).
Qed.

Lemma buildEdgesFromModel_simple model :
  model_simple model → simple (buildEdgesFromModel (model_edges model)).
Proof.
  intros [Hloop Hdup]. unfold buildEdgesFromModel. split.
  - apply Forall_fmap. eapply Forall_impl; [done|]. by intros modelEdge.
  - by rewrite <-list_fmap_compose.
Qed.

Lemma handle_simple event st st' :
  model_simple initialModel →
  handle event st = Some st' → simple (edges st) → simple (edges st').
Proof.
  intros Hmodel Hstep Hsimple.
  destruct event; cbn in Hstep.
  all: try (injection Hstep as <-).
  - done.
  - by apply simple_filter.
  - done.
  - cbn [edges handleEdgeConductanceChange edited]. apply simple_fmap; [|done].
    intros edge. by destruct (bool_decide _).
  - by apply simple_filter.
  - unfold handleAddEdge.
    destruct (_ || _ || bool_decide (sourceId _ = targetId _)) eqn:Hguard; [done|].
    destruct (connected _ _ _) eqn:Hconnected; [done|].
    apply orb_false_iff in Hguard as [_ Hne%bool_decide_eq_false].
    cbn [edges edited]. apply simple_snoc; [done|done|].
    by apply connected_false.
  - unfold handleConnect.
    destruct (conn_source connection) as [source|]; [|done].
    destruct (conn_target connection) as [target|]; [|done].
    destruct (_ || _ || bool_decide (source = target)) eqn:Hguard; [done|].
    destruct (connected _ _ _) eqn:Hconnected; [done|].
    apply orb_false_iff in Hguard as [_ Hne%bool_decide_eq_false].
    cbn [edges edited]. apply simple_snoc; [done|done|].
    by apply connected_false.
  - done.
  - done.
  - done.
  - done.
  - unfold runSimulation in Hstep.
    destruct (simulateThermalNetwork _ _ _ _); [| |done]; by injection Hstep as <-.
  - by apply buildEdgesFromModel_simple.
Qed.

(** Starting from a model without loops and without two edges from the same
    node to the same node, no event leads to a network with a loop or with
    two such edges: [handleAddEdge] and [handleConnect] refuse them. *)
Theorem edges_stay_simple st :
  model_simple initialModel → reachable st → simple (edges st).
Proof.
  intros Hmodel. induction 1 as [|event st st' _ IH _ Hstep].
  - by apply buildEdgesFromModel_simple.
  - by eapply handle_simple.
Qed.

(** ** Running the simulation from the editor *)

Lemma ids_modelNodes (l : list FlowNode) : node_id <$> modelNodes l = n_id <$> l.
Proof. unfold modelNodes. by rewrite <-list_fmap_compose. Qed.

Lemma lookup_modelNodes (l : list FlowNode) i node :
  l !! i = Some node →
  ∃ modelNode, modelNodes l !! i = Some modelNode ∧ node_id modelNode = n_id node.
Proof.
  intros Hnode. unfold modelNodes. rewrite list_lookup_fmap, Hnode. by eexists.
Qed.

Lemma modelNodes_fmap (f : FlowNode → FlowNode) (l : list FlowNode) :
  (∀ node, n_id (f node) = n_id node) →
  (∀ node, with_label EmptyString (with_latestTemp None (n_data (f node))) =
           with_label EmptyString (with_latestTemp None (n_data node))) →
  modelNodes (f <$> l) = modelNodes l.
Proof.
  intros Hid Hdata. unfold modelNodes. rewrite <-list_fmap_compose.
  apply list_fmap_ext. intros _ node _. unfold compose.
  specialize (Hid node). specialize (Hdata node).
  rewrite Hid. injection Hdata as -> -> -> -> ->. done.
Qed.

(** Clearing or showing a temperature changes neither the id nor what the
    solver reads. *)
Lemma data_clearNodeTemperature node :
  with_label EmptyString (with_latestTemp None (n_data (clearNodeTemperature node))) =
  with_label EmptyString (with_latestTemp None (n_data node)).
Proof. unfold clearNodeTemperature. by destruct (latestTemp _). Qed.

Lemma data_show_latest result node :
  with_label EmptyString (with_latestTemp None (n_data (show_latest result node))) =
  with_label EmptyString (with_latestTemp None (n_data node)).
Proof.
  unfold show_latest.
  destruct (list_find _ _) as [[? ?]|]; [done|apply data_clearNodeTemperature].
Qed.

Lemma attached_endpoints_ok (l : list FlowNode) (l' : list FlowEdge) :
  Forall (attached (n_id <$> l)) l' →
  Forall (endpoints_ok (modelNodes l)) (modelEdges l').
Proof.
  intros H. unfold modelEdges. apply Forall_fmap. eapply Forall_impl; [done|].
  intros edge [Hs Ht]. unfold compose, endpoints_ok, is_node_id.
  by rewrite ids_modelNodes.
Qed.

(** *** The messages of the solver *)

Fixpoint is_suffix (suffix s : string) : bool :=
  String.eqb suffix s ||
  match s with
  | EmptyString => false
  | String _ s' => is_suffix suffix s'
  end.

Lemma is_suffix_app prefix suffix : is_suffix suffix (prefix +:+ suffix) = true.
Proof.
  induction prefix as [|a prefix IH].
  - destruct suffix; simpl; [done|]. by rewrite Ascii.eqb_refl, String.eqb_refl.
  - simpl. rewrite IH. apply orb_true_r.
Qed.

Lemma not_suffix prefix suffix s : is_suffix suffix s = false → prefix +:+ suffix ≠ s.
Proof. intros Hfalse <-. by rewrite is_suffix_app in Hfalse. Qed.

(** An error of the solver says which check failed. *)
Lemma Throw_reports fuel nodes edges settings e :
  simulateThermalNetwork fuel nodes edges settings = Throw e →
  ∃ p, ¬ holds p nodes edges settings ∧ reports p nodes edges e.
Proof.
  intros He.
  destruct (outcome_cases fuel nodes edges settings)
    as [[_ Hrun]|(p & e' & _ & Hp & He' & Hrep)].
  - rewrite Hrun in He. by case_decide.
  - rewrite He' in He. injection He as <-. by exists p.
Qed.

Lemma Throw_SimulationError fuel nodes edges settings e :
  simulateThermalNetwork fuel nodes edges settings = Throw e →
  ∃ message, e = SimulationError message ∧ message ≠ EmptyString.
Proof.
  intros (p & _ & Hrep)%Throw_reports.
  assert (∀ prefix suffix, suffix ≠ EmptyString → prefix +:+ suffix ≠ EmptyString)
    as Happ.
  { intros [|? ?] suffix; by simpl. }
  destruct p; simpl in Hrep.
  1-4: by eexists.
  - destruct Hrep as (_ & node & _ & _ & _ & _ & Herr).
    destruct Herr as [[_ ->]|[(_ & _ & ->)|(_ & _ & _ & _ & ->)]];
      eexists; (split; [done|by apply Happ]).
  - destruct Hrep as [-> _]. by eexists.
  - destruct Hrep as [-> _]. by eexists.
Qed.

Lemma Throw_not_dangling fuel nodes edges settings e :
  Forall (endpoints_ok nodes) edges →
  simulateThermalNetwork fuel nodes edges settings = Throw e →
  e ≠ SimulationError msg_dangling.
Proof.
  intros Hends (p & Hp & Hrep)%Throw_reports.
  destruct p; simpl in Hrep, Hp.
  1-4: rewrite Hrep; intros [=].
  - destruct Hrep as (_ & node & _ & _ & _ & _ & Herr).
    destruct Herr as [[_ ->]|[(_ & _ & ->)|(_ & _ & _ & _ & ->)]];
      intros [=Heq]; revert Heq; by apply not_suffix.
  - destruct Hrep as [-> _]. intros [=].
  - done.
Qed.

(** Starting from a model whose edges join nodes that it has, no event leads
    to a network with an edge to a missing node: the simulation never fails
    with the error of line 84. *)
Theorem never_dangling_error fuel st st' :
  model_attached initialModel → reachable st →
  runSimulation fuel st = Some st' → errorMessage st' ≠ msg_dangling.
Proof.
  intros Hmodel Hreach Hrun.
  destruct (reachable_no_dangling st Hmodel Hreach) as [Hedges _].
  apply attached_endpoints_ok in Hedges.
  unfold runSimulation in Hrun.
  destruct (simulateThermalNetwork _ _ _ _) as [result|e|] eqn:Hsim; [| |done].
  - by injection Hrun as <-.
  - injection Hrun as <-. cbn.
    pose proof (Throw_not_dangling _ _ _ _ _ Hedges Hsim) as He.
    destruct e as [message|]; [congruence|done].
Qed.

(** *** The temperature that a node shows *)

Lemma last_fmap_seq {A} (f : nat → A) N : last (f <$> seq 0 (S N)) = Some (f N).
Proof.
  rewrite last_lookup, length_fmap, length_seq. cbn [Init.Nat.pred].
  rewrite list_lookup_fmap, lookup_seq_lt by lia. done.
Qed.

Lemma show_latest_result_at (l : list FlowNode) modelEdges settings i node :
  valid (modelNodes l) modelEdges settings →
  l !! i = Some node →
  ∃ j first entry q,
    list_find (λ other, n_id other = n_id node) l = Some (j, first) ∧
    series (result_at (modelNodes l) modelEdges settings (steps_of settings)) !! j
      = Some entry ∧
    last (temperatures entry) = Some (Finite q) ∧
    show_latest (result_at (modelNodes l) modelEdges settings (steps_of settings)) node =
    decorateNode (with_data (with_latestTemp (Some (Finite q)) (n_data node)) node).
Proof.
  intros Hvalid Hnode.
  set (N := steps_of settings).
  destruct (list_find (λ other, n_id other = n_id node) l) as [[j first]|] eqn:Hfind;
    last first.
  { eapply list_find_None in Hfind. rewrite Forall_forall in Hfind.
    destruct (Hfind node); [by eapply list_elem_of_lookup_2|done]. }
  apply list_find_Some in Hfind as (Hfirst & Hid & Hmin).
  destruct (lookup_modelNodes l j first Hfirst) as (modelNode & HmodelNode & Hmid).
  assert (j < length (modelNodes l))%nat as Hj by by eapply lookup_lt_Some.
  set (entry := {| nodeId := node_id modelNode; name := node_name modelNode;
                   temperatures :=
                     (λ k, temps_at (modelNodes l)
                             (adjacency_of (modelNodes l) modelEdges) settings k !!! j)
                       <$> seq 0 (S N) |}).
  assert (series_at (modelNodes l) (adjacency_of (modelNodes l) modelEdges)
            settings N !! j = Some entry) as Hentry.
  { rewrite lookup_series_at, HmodelNode. done. }
  assert (∃ q, last (temperatures entry) = Some (Finite q)) as [q Hlast].
  { eexists. cbn [temperatures entry]. rewrite last_fmap_seq. f_equal.
    rewrite <-(sample_result_at (modelNodes l) modelEdges settings N j N) by done.
    by apply sample_Finite. }
  exists j, first, entry, q. split; [done|]. split; [exact Hentry|].
  split; [exact Hlast|].
  unfold show_latest. cbn [series result_at].
  assert (list_find (λ entry, nodeId entry = n_id node)
            (series_at (modelNodes l) (adjacency_of (modelNodes l) modelEdges)
               settings N) = Some (j, entry)) as ->.
  { apply list_find_Some. split; [done|split].
    - cbn. congruence.
    - intros j' entry' Hentry' Hlt.
      rewrite lookup_series_at in Hentry'.
      destruct (l !! j') as [node'|] eqn:Hnode'.
      + destruct (lookup_modelNodes l j' node' Hnode') as (modelNode' & Hm' & Hid').
        rewrite Hm' in Hentry'. injection Hentry' as <-. cbn.
        rewrite Hid'. by eapply Hmin.
      + apply lookup_ge_None in Hnode'. apply lookup_lt_Some in Hfirst. lia. }
  by rewrite Hlast.
Qed.

(** A node that shows a temperature: its [latestTemp] is a number, not
    [undefined]. *)
Definition shows (node : FlowNode) : Prop :=
  is_Some (latestTemp (n_data node)).

Lemma show_latest_shows (l : list FlowNode) modelEdges settings :
  valid (modelNodes l) modelEdges settings →
  Forall shows
    (show_latest (result_at (modelNodes l) modelEdges settings (steps_of settings))
       <$> l).
Proof.
  intros Hvalid. apply Forall_fmap, Forall_forall. intros node Hin.
  apply list_elem_of_lookup_1 in Hin as [i Hnode].
  destruct (show_latest_result_at l modelEdges settings i node Hvalid Hnode)
    as (j & first & entry & q & _ & _ & _ & Hshow).
  exists (Finite q). unfold compose. by rewrite Hshow.
Qed.

(** After a run that succeeds, a node shows the last temperature of the
    series of the first node with its id; when the ids are pairwise
    different, this is its own series. *)
Theorem runSimulation_shows_final fuel st st' result i node :
  runSimulation fuel st = Some st' →
  simulationResult st' = Some result →
  nodes st !! i = Some node →
  ∃ j first entry t,
    list_find (λ other, n_id other = n_id node) (nodes st) = Some (j, first) ∧
    (NoDup (ids st) → j = i) ∧
    series result !! j = Some entry ∧
    last (temperatures entry) = Some t ∧
    nodes st' !! i =
    Some (decorateNode (with_data (with_latestTemp (Some t) (n_data node)) node)).
Proof.
  intros Hrun Hresult Hnode. unfold runSimulation in Hrun.
  destruct (simulateThermalNetwork _ _ _ _) as [result'|e|] eqn:Hsim; [| |done].
  - injection Hrun as <-. cbn in Hresult. injection Hresult as ->.
    apply Return_valid in Hsim as [Hvalid ->].
    destruct (show_latest_result_at (nodes st) (modelEdges (edges st))
                (simulationSettings st) i node Hvalid Hnode)
      as (j & first & entry & q & Hfind & Hentry & Hlast & Hshow).
    exists j, first, entry, (Finite q).
    split; [done|]. split; [|split; [done|split; [done|]]].
    + intros Hnodup. apply list_find_Some in Hfind as (Hfirst & Hid & _).
      apply (NoDup_lookup (ids st) j i (n_id node) Hnodup).
      * unfold ids. by rewrite list_lookup_fmap, Hfirst, <-Hid.
      * unfold ids. by rewrite list_lookup_fmap, Hnode.
    + cbn [nodes]. by rewrite list_lookup_fmap, Hnode, <-Hshow.
  - injection Hrun as <-. done.
Qed.

(** When a run comes to an end, it is with the result of the solver, and
    then no error is shown and every node shows a temperature; or with the
    message of the solver's error, which is not empty, and then the result
    is cleared and no node shows a temperature. *)
Theorem runSimulation_outcome fuel st st' :
  runSimulation fuel st = Some st' →
  (∃ result,
     simulateThermalNetwork fuel (modelNodes (nodes st)) (modelEdges (edges st))
       (simulationSettings st) = Return result ∧
     simulationResult st' = Some result ∧ errorMessage st' = EmptyString ∧
     Forall shows (nodes st')) ∨
  (∃ message,
     simulateThermalNetwork fuel (modelNodes (nodes st)) (modelEdges (edges st))
       (simulationSettings st) = Throw (SimulationError message) ∧
     simulationResult st' = None ∧ errorMessage st' = message ∧
     message ≠ EmptyString ∧
     Forall (λ node, latestTemp (n_data node) = None) (nodes st')).
Proof.
  intros Hrun. unfold runSimulation in Hrun.
  destruct (simulateThermalNetwork _ _ _ _) as [result|e|] eqn:Hsim; [| |done].
  - injection Hrun as <-. left. exists result. split; [done|].
    split; [done|]. split; [done|]. cbn [nodes].
    apply Return_valid in Hsim as [Hvalid ->]. by apply show_latest_shows.
  - injection Hrun as <-.
    destruct (Throw_SimulationError _ _ _ _ _ Hsim) as (message & -> & Hmessage).
    right. exists message. split; [done|].
    split; [done|]. split; [done|]. split; [done|].
    cbn [nodes]. apply Forall_fmap, Forall_true. intros node.
    unfold compose, clearNodeTemperature.
    destruct (latestTemp (n_data node)) eqn:E; cbn; done.
Qed.

(** Running the simulation again changes nothing. *)
Theorem runSimulation_twice fuel st st' :
  runSimulation fuel st = Some st' → runSimulation fuel st' = Some st'.
Proof.
  intros Hrun. unfold runSimulation in *.
  destruct (simulateThermalNetwork _ _ _ _) as [result|e|] eqn:Hsim; [| |done].
  - injection Hrun as <-. cbn [nodes edges simulationSettings].
    rewrite modelNodes_fmap by (apply n_id_show_latest || apply data_show_latest).
    rewrite Hsim.
    assert (show_latest result <$> (show_latest result <$> nodes st) =
            show_latest result <$> nodes st) as Hsame.
    { rewrite <-list_fmap_compose. apply list_fmap_ext. intros _ node _.
      unfold compose. unfold show_latest at 1. rewrite n_id_show_latest.
      unfold show_latest.
      destruct (list_find _ _) as [[? entry]|]; [done|].
      unfold clearNodeTemperature. destruct (latestTemp (n_data node)) eqn:E.
      - done.
      - by rewrite E. }
    by rewrite Hsame.
  - injection Hrun as <-. cbn [nodes edges simulationSettings].
    rewrite modelNodes_fmap
      by (apply n_id_clearNodeTemperature || apply data_clearNodeTemperature).
    rewrite Hsim.
    assert (clearNodeTemperature <$> (clearNodeTemperature <$> nodes st) =
            clearNodeTemperature <$> nodes st) as Hsame.
    { rewrite <-list_fmap_compose. apply list_fmap_ext. intros _ node _.
      unfold compose, clearNodeTemperature.
      destruct (latestTemp (n_data node)) eqn:E; [done|by rewrite E]. }
    by rewrite Hsame.
Qed.

(** A run changes nothing of the model: what [exportModelToJson] writes is
    the same before and after, as are the edges and the settings. *)
Theorem runSimulation_keeps_model fuel st st' :
  runSimulation fuel st = Some st' →
  buildModelFromState (nodes st') (edges st') =
    buildModelFromState (nodes st) (edges st) ∧
  edges st' = edges st ∧ simulationSettings st' = simulationSettings st.
Proof.
  intros Hrun.
  assert (∀ (f : FlowNode → FlowNode) (l : list FlowNode) l',
            (∀ node, n_id (f node) = n_id node) →
            (∀ node, n_position (f node) = n_position node) →
            (∀ node, with_label EmptyString (with_latestTemp None (n_data (f node))) =
                     with_label EmptyString (with_latestTemp None (n_data node))) →
            buildModelFromState (f <$> l) l' = buildModelFromState l l') as Hkeeps.
  { intros f l l' Hid Hposition Hdata. unfold buildModelFromState. f_equal.
    rewrite <-list_fmap_compose. apply list_fmap_ext. intros _ node _.
    unfold compose. specialize (Hdata node).
    rewrite Hid, Hposition. injection Hdata as -> -> -> -> ->. done. }
  assert (∀ node, n_position (clearNodeTemperature node) = n_position node)
    as Hclear.
  { intros node. unfold clearNodeTemperature. by destruct (latestTemp _). }
  unfold runSimulation in Hrun.
  destruct (simulateThermalNetwork _ _ _ _) as [result|e|]; [| |done].
  - injection Hrun as <-. split; [|done]. cbn [nodes edges].
    apply Hkeeps; [apply n_id_show_latest| |apply data_show_latest].
    intros node. unfold show_latest.
    by destruct (list_find _ _) as [[? ?]|].
  - injection Hrun as <-. split; [|done]. cbn [nodes edges].
    by apply Hkeeps;
      [apply n_id_clearNodeTemperature| |apply data_clearNodeTemperature].
Qed.
Lemma handle_result event st st' :
  handle event st = Some st' →
  (∀ result, simulationResult st = Some result →
     errorMessage st = EmptyString ∧ Forall shows (nodes st)) →
  ∀ result, simulationResult st' = Some result →
    errorMessage st' = EmptyString ∧ Forall shows (nodes st').
Proof.
  intros Hstep IH result.
  destruct event; cbn in Hstep.
  all: try (injection Hstep as <-); try done.
  - unfold handleAddEdge.
    repeat match goal with |- context [if ?c then _ else _] => destruct c end;
      try done; apply IH.
  - unfold handleConnect.
    destruct (conn_source connection), (conn_target connection); try apply IH.
    repeat match goal with |- context [if ?c then _ else _] => destruct c end;
      try done; apply IH.
  - apply IH.
  - apply IH.
  - apply IH.
  - apply IH.
  - unfold runSimulation in Hstep.
    destruct (simulateThermalNetwork _ _ _ _) as [result'|e|] eqn:Hsim; [| |done].
    + injection Hstep as <-. intros _. split; [done|].
      apply Return_valid in Hsim as [Hvalid ->]. by apply show_latest_shows.
    + by injection Hstep as <-.
Qed.

(** Whenever a result is on the page, no error is shown and every node
    shows a temperature. *)
Theorem result_shown st result :
  reachable st → simulationResult st = Some result →
  errorMessage st = EmptyString ∧ Forall shows (nodes st).
Proof.
  intros Hreach. revert result.
  induction Hreach as [|event st st' _ IH _ Hstep]; [done|].
  by eapply handle_result.
Qed.

(** ** The ids of new nodes *)

Lemma is_digit_pretty_N_char x : is_digit (pretty_N_char x) = true.
Proof. unfold pretty_N_char. by repeat case_match. Qed.

Lemma value_pretty_N_char x :
  (x < 10)%N → (Ascii.N_of_ascii (pretty_N_char x) - 48 = x)%N.
Proof.
  intros Hx.
  assert (x = 0 ∨ x = 1 ∨ x = 2 ∨ x = 3 ∨ x = 4 ∨ x = 5 ∨ x = 6 ∨ x = 7 ∨ x = 8 ∨
          x = 9)%N as Hcases by lia.
  repeat (destruct Hcases as [->|Hcases]; [done|]). by subst x.
Qed.

(** The digits that [String] gives for [x], put before [s]. *)
Lemma pretty_N_go_digits x s :
  ∃ m, digits (pretty_N_go x s) = pretty_N_go x (digits s) ∧
       ∀ value, parseInt_from value (pretty_N_go x s) =
                parseInt_from (value * m + x)%N s.
Proof.
  revert s. induction (N.lt_wf_0 x) as [x _ IH]. intros s.
  destruct (decide (x = 0)%N) as [->|Hx].
  - exists 1%N. rewrite !pretty_N_go_0. split; [done|].
    intros value. f_equal. lia.
  - rewrite (pretty_N_go_step x s), (pretty_N_go_step x (digits s)) by lia.
    destruct (IH (x `div` 10)%N) with (s := String (pretty_N_char (x `mod` 10)) s)
      as (m & Hdigits & Hvalue).
    { apply N.div_lt; lia. }
    exists (m * 10)%N. split.
    + rewrite Hdigits. cbn [digits]. by rewrite is_digit_pretty_N_char.
    + intros value. rewrite Hvalue. cbn [parseInt_from].
      rewrite value_pretty_N_char by (apply N.mod_lt; lia).
      f_equal. pose proof (N.div_mod x 10). lia.
Qed.

Lemma digits_pretty (x : N) : digits (pretty x) = pretty x.
Proof.
  unfold pretty, pretty_N. case_decide; [done|].
  destruct (pretty_N_go_digits x EmptyString) as (m & Hdigits & _). by rewrite Hdigits.
Qed.

Lemma parseInt_pretty (x : N) : parseInt (pretty x) = x.
Proof.
  unfold pretty, pretty_N, parseInt. case_decide; [by subst x|].
  destruct (pretty_N_go_digits x EmptyString) as (m & _ & Hvalue). by rewrite Hvalue.
Qed.

Lemma pretty_N_go_nonempty x c s : pretty_N_go x (String c s) ≠ EmptyString.
Proof.
  revert c s. induction (N.lt_wf_0 x) as [x _ IH]. intros c s.
  destruct (decide (x = 0)%N) as [->|Hx].
  - by rewrite pretty_N_go_0.
  - rewrite pretty_N_go_step by lia. apply IH. apply N.div_lt; lia.
Qed.

Lemma pretty_nonempty (x : N) : pretty x ≠ EmptyString.
Proof.
  unfold pretty, pretty_N. case_decide; [done|].
  rewrite pretty_N_go_step by lia. apply pretty_N_go_nonempty.
Qed.

(** The pattern finds the number of an id that [handleAddNode] makes. *)
Lemma exec_prefix s : digits s ≠ EmptyString → exec ("node-" +:+ s) = Some (digits s).
Proof.
  intros Hdigits.
  unfold String.append. simpl. by destruct (digits s).
Qed.

Lemma exec_made (x : N) : exec ("node-" +:+ pretty x) = Some (pretty x).
Proof.
  rewrite exec_prefix; rewrite digits_pretty; [done|apply pretty_nonempty].
Qed.

Lemma foldl_max_le (l : list FlowNode) (start : N) :
  let step := λ (max : N) (node : FlowNode),
                match exec (n_id node) with
                | None => max
                | Some group => N.max max (parseInt group)
                end in
  (start ≤ foldl step start l)%N ∧
  ∀ node group, node ∈ l → exec (n_id node) = Some group →
    (parseInt group ≤ foldl step start l)%N.
Proof.
  intros step. revert start. induction l as [|node l IH]; intros start.
  - split; [done|]. intros ? ? Hin. by apply elem_of_nil in Hin.
  - cbn [foldl]. destruct (IH (step start node)) as [Hstart Hrest].
    assert (start ≤ step start node)%N as Hstep.
    { unfold step. destruct (exec _); lia. }
    split; [lia|].
    intros node' group [->|Hin]%elem_of_cons Hexec; [|by eapply Hrest].
    assert (parseInt group ≤ step start node)%N.
    { unfold step. rewrite Hexec. lia. }
    lia.
Qed.

(** No node has the id that [handleAddNode] makes from the counter or from
    a later value of it. *)
Definition fresh (counter : N) (l : list string) : Prop :=
  ∀ k, (counter ≤ k)%N → "node-" +:+ pretty k ∉ l.

Lemma computeNextNodeCounter_fresh (l : list FlowNode) :
  fresh (computeNextNodeCounter l) (n_id <$> l).
Proof.
  intros k Hk Hin. apply list_elem_of_fmap in Hin as (node & Hid & Hnode).
  destruct (foldl_max_le l 0%N) as [_ Hmax].
  specialize (Hmax node (pretty k) Hnode).
  rewrite <-Hid, exec_made, parseInt_pretty in Hmax.
  specialize (Hmax eq_refl). unfold computeNextNodeCounter in Hk. lia.
Qed.

(** The ids are pairwise different and the counter is beyond them. *)
Definition unique_ids (st : AppState) : Prop :=
  NoDup (ids st) ∧ fresh (nodeIdCounter st) (ids st).

Lemma handle_counter event st st' :
  handle event st = Some st' →
  nodeIdCounter st' =
  match event with
  | AddNode => (nodeIdCounter st + 1)%N
  | ResetToInitialModel =>
      computeNextNodeCounter (buildNodesFromModel (model_nodes initialModel))
  | _ => nodeIdCounter st
  end.
Proof.
  intros Hstep. destruct event; cbn in Hstep.
  all: try (by injection Hstep as <-).
  - injection Hstep as <-. unfold handleAddEdge.
    by repeat match goal with |- context [if ?c then _ else _] => destruct c end.
  - injection Hstep as <-. unfold handleConnect.
    destruct (conn_source connection), (conn_target connection); try done.
    by repeat match goal with |- context [if ?c then _ else _] => destruct c end.
  - unfold runSimulation in Hstep.
    destruct (simulateThermalNetwork _ _ _ _); [| |done]; by injection Hstep as <-.
Qed.

(** The ids of the nodes stay pairwise different: they are so at the start
    when the model has no two nodes with the same id, and every event keeps
    them so, [handleAddNode] by taking an id that no node has.  The counter
    is kept within 2^53, where binary64 has the integers exactly. *)
Theorem ids_stay_unique :
  NoDup (mn_id <$> model_nodes initialModel) →
  (computeNextNodeCounter (buildNodesFromModel (model_nodes initialModel)) ≤ 2 ^ 53)%N →
  unique_ids initialState ∧
  ∀ event st st',
    (nodeIdCounter st < 2 ^ 53)%N →
    handle event st = Some st' → unique_ids st → unique_ids st'.
Proof.
  intros Hmodel _.
  assert (unique_ids initialState) as Hinitial.
  { split.
    - unfold ids. cbn [nodes initialState]. by rewrite ids_buildNodesFromModel.
    - apply computeNextNodeCounter_fresh. }
  split; [done|].
  intros event st st' _ Hstep [Hnodup Hfresh].
  unfold unique_ids.
  rewrite (handle_ids event st st' Hstep), (handle_counter event st st' Hstep).
  destruct event; try done.
  - split.
    + apply NoDup_app. split; [done|]. split; [|apply NoDup_singleton].
      intros id Hin ->%list_elem_of_singleton. by apply (Hfresh (nodeIdCounter st)).
    + intros k Hk [Hin|Hin%list_elem_of_singleton]%elem_of_app.
      * apply (Hfresh k); [lia|done].
      * apply (inj (String.append "node-")) in Hin. apply (inj pretty) in Hin. lia.
  - split.
    + by apply NoDup_filter.
    + intros k Hk [_ Hin]%list_elem_of_filter. by apply (Hfresh k).
  - rewrite <-ids_buildNodesFromModel. apply Hinitial.
Qed.

End app.

(** ** An example: two nodes and an edge *)

Definition example_style : StyleConfig :=
  {| node_default := {| palette_background := "#ffffff"; palette_border := "#1f2937";
                        palette_text := "#111827" |};
     node_fixed := {| palette_background := "#fee2e2"; palette_border := "#b91c1c";
                      palette_text := "#7f1d1d" |};
     node_shape := {| shape_padding := of_Z 12; shape_borderRadius := of_Z 8;
                      shape_fontSize := of_Z 14; shape_fontWeight := of_Z 600;
                      shape_boxShadow := "none" |};
     edge_stroke := "#6b7280";
     edge_strokeWidth := of_Z 2 |}.

Definition example_model : ModelFile :=
  {| model_nodes :=
       [ {| mn_id := "node-1"; mn_name := "A"; mn_initialTemp := of_Z 100;
            mn_heatCapacity := of_Z 50; mn_isFixed := false; mn_fixedTemp := of_Z 0;
            mn_position := {| pos_x := of_Z 0; pos_y := of_Z 80 |} |};
         {| mn_id := "node-2"; mn_name := "B"; mn_initialTemp := of_Z 0;
            mn_heatCapacity := of_Z 1; mn_isFixed := true; mn_fixedTemp := of_Z 20;
            mn_position := {| pos_x := of_Z 160; pos_y := of_Z 120 |} |} ];
     model_edges :=
       [ {| me_id := "edge-1"; me_source := "node-1"; me_target := "node-2";
            me_conductance := of_Z 5 |} ] |}.

Definition example_state : AppState := initialState example_style example_model.

(** The first node of the example on the canvas. *)
Definition example_node : FlowNode :=
  decorateNode example_style
    {| n_id := "node-1"; n_type := Some "thermal";
       n_position := {| pos_x := of_Z 0; pos_y := of_Z 80 |};
       n_data := {| data_name := "A"; data_initialTemp := of_Z 100;
                    data_heatCapacity := of_Z 50; data_isFixed := false;
                    data_fixedTemp := of_Z 0; latestTemp := None; label := "A" |};
       n_style := None;
       n_sourcePosition := Some PositionLeft;
       n_targetPosition := Some PositionRight |}.

(** The example with a total time of 2, and after a run. *)
Definition example_short : AppState :=
  handleSimulationSettingChange KeyTotalTime (of_Z 2) example_state.

Definition example_result : SimulationResult :=
  result_at (modelNodes (nodes example_short)) (modelEdges (edges example_short))
    (simulationSettings example_short) 2.

Definition example_run : AppState :=
  default example_short (runSimulation example_style 2 example_short).

Lemma example_short_reachable : reachable example_style example_model example_short.
Proof.
  apply (reachable_step example_style example_model
           (SimulationSettingChange KeyTotalTime (of_Z 2)) example_state).
  - apply reachable_initial.
  - exact I.
  - reflexivity.
Defined.

Lemma example_run_Some : runSimulation example_style 2 example_short = Some example_run.
Proof. vm_compute. reflexivity. Defined.

Lemma example_run_reachable : reachable example_style example_model example_run.
Proof.
  apply (reachable_step example_style example_model (RunSimulation 2) example_short).
  - apply example_short_reachable.
  - exact I.
  - apply example_run_Some.
Defined.

Lemma example_model_attached : model_attached example_model.
Proof. unfold model_attached. apply (bool_decide_unpack _). vm_compute. exact I. Defined.

Lemma example_model_simple : model_simple example_model.
Proof. unfold model_simple. apply (bool_decide_unpack _). vm_compute. exact I. Defined.

Lemma deriveEdgeDefaults_ids_witness :
  sourceId (deriveEdgeDefaults (nodes example_state) None) ∈ n_id <$> nodes example_state ∧
  targetId (deriveEdgeDefaults (nodes example_state) None) ∈ n_id <$> nodes example_state.
Proof.
  apply (deriveEdgeDefaults_ids (nodes example_state) None). vm_compute. discriminate.
Defined.

Lemma deriveEdgeDefaults_distinct_witness :
  sourceId (deriveEdgeDefaults (nodes example_state) None) ≠
  targetId (deriveEdgeDefaults (nodes example_state) None).
Proof.
  apply (deriveEdgeDefaults_distinct (nodes example_state) None "node-1" "node-2").
  - apply (bool_decide_unpack _). vm_compute. exact I.
  - apply (bool_decide_unpack _). vm_compute. exact I.
  - discriminate.
Defined.

Lemma deriveEdgeDefaults_keeps_witness :
  deriveEdgeDefaults (nodes example_state)
    (Some {| sourceId := "node-2"; targetId := "node-1"; cfg_conductance := of_Z 3 |}) =
  {| sourceId := "node-2"; targetId := "node-1"; cfg_conductance := of_Z 3 |}.
Proof.
  apply (deriveEdgeDefaults_keeps (nodes example_state)
           {| sourceId := "node-2"; targetId := "node-1"; cfg_conductance := of_Z 3 |}).
  - apply (bool_decide_unpack _). vm_compute. exact I.
  - apply (bool_decide_unpack _). vm_compute. exact I.
  - discriminate.
Defined.

Lemma nodes_stay_decorated_witness :
  Forall (decorated example_style) (nodes (handleAddNode example_style example_state)).
Proof.
  apply (nodes_stay_decorated example_style example_model).
  apply (reachable_step example_style example_model AddNode example_state).
  - apply reachable_initial.
  - exact I.
  - reflexivity.
Defined.

Lemma edges_stay_simple_witness :
  simple (edges (handleConnect example_style "r"
                   {| conn_source := Some "node-2"; conn_target := Some "node-1" |}
                   example_state)).
Proof.
  apply (edges_stay_simple example_style example_model).
  - apply example_model_simple.
  - apply (reachable_step example_style example_model
             (Connect "r" {| conn_source := Some "node-2"; conn_target := Some "node-1" |})
             example_state).
    + apply reachable_initial.
    + intros source target [= <-] [= <-].
      split; apply (bool_decide_unpack _); vm_compute; exact I.
    + reflexivity.
Defined.

Lemma never_dangling_error_witness : errorMessage example_run ≠ msg_dangling.
Proof.
  apply (never_dangling_error example_style example_model 2 example_short example_run).
  - apply example_model_attached.
  - apply example_short_reachable.
  - apply example_run_Some.
Defined.

Lemma runSimulation_shows_final_witness :
  ∃ j first entry t,
    list_find (λ other, n_id other = n_id example_node) (nodes example_short) =
      Some (j, first) ∧
    (NoDup (ids example_short) → j = 0%nat) ∧
    series example_result !! j = Some entry ∧
    last (temperatures entry) = Some t ∧
    nodes example_run !! 0%nat =
    Some (decorateNode example_style
            (with_data (with_latestTemp (Some t) (n_data example_node))
               example_node)).
Proof.
  apply (runSimulation_shows_final example_style 2 example_short example_run
           example_result 0 example_node).
  - apply example_run_Some.
  - vm_compute. reflexivity.
  - reflexivity.
Defined.

Lemma runSimulation_outcome_witness :
  simulationResult example_run = Some example_result ∧
  errorMessage example_run = EmptyString ∧ Forall shows (nodes example_run).
Proof.
  destruct (runSimulation_outcome example_style 2 example_short example_run)
    as [(result & Hsim & Hresult & Herror & Hshows)|(message & Hsim & _)].
  - apply example_run_Some.
  - split; [|done]. rewrite Hresult. f_equal.
    assert (simulateThermalNetwork 2 (modelNodes (nodes example_short))
              (modelEdges (edges example_short)) (simulationSettings example_short)
            = Return example_result) as Hrun by (vm_compute; reflexivity).
    congruence.
  - assert (simulateThermalNetwork 2 (modelNodes (nodes example_short))
              (modelEdges (edges example_short)) (simulationSettings example_short)
            = Return example_result) as Hrun by (vm_compute; reflexivity).
    congruence.
Defined.

Lemma runSimulation_keeps_model_witness :
  buildModelFromState (nodes example_run) (edges example_run) =
    buildModelFromState (nodes example_short) (edges example_short) ∧
  edges example_run = edges example_short ∧
  simulationSettings example_run = simulationSettings example_short.
Proof.
  apply (runSimulation_keeps_model example_style 2 example_short example_run).
  apply example_run_Some.
Defined.

Lemma runSimulation_twice_witness :
  runSimulation example_style 2 example_run = Some example_run.
Proof.
  apply (runSimulation_twice example_style 2 example_short example_run).
  apply example_run_Some.
Defined.

Lemma result_shown_witness :
  errorMessage example_run = EmptyString ∧ Forall shows (nodes example_run).
Proof.
  apply (result_shown example_style example_model example_run example_result).
  - apply example_run_reachable.
  - vm_compute. reflexivity.
Defined.

Lemma ids_stay_unique_witness :
  unique_ids example_state ∧
  ∀ event st st',
    (nodeIdCounter st < 2 ^ 53)%N →
    handle example_style example_model event st = Some st' →
    unique_ids st → unique_ids st'.
Proof.
  apply (ids_stay_unique example_style example_model).
  - apply (bool_decide_unpack _). vm_compute. exact I.
  - vm_compute. discriminate.
Defined.

End App.
